(** * Orchestration core of the subagent scheduler: a shallow embedding

    The development follows the JavaScript sources of
    [skills/subagent-scheduler]:

    - [redis-concurrency.js]  : [Module Concurrency]
    - [task-decomposer.js]    : [Module Decomposer]
    - [agent-registry.js]     : [Module Registry]
    - [agent-router.js]       : [Module Router]
    - the result aggregator   : [Module Aggregator]
    - [scheduler.js]          : [Module Classifier]
    - [index.js]              : [Module Retry] (RetryExecutor),
                                [Module Scheduler] and [Module MultiAgent]
                                (SubagentScheduler)

    JavaScript objects used as dictionaries and [Map]/[Set] instances are
    finite maps and sets of stdpp when only lookups matter, and association
    lists when the insertion order is observable.  A call that may throw
    returns a [completion]. *)

From Stdlib Require Import ZArith QArith Qpower Lia Sorted.
From stdpp Require Import gmap strings list pretty.

Open Scope string_scope.
Open Scope list_scope.
Open Scope Z_scope.

(** ** Completions: a JavaScript call either returns or throws *)

Inductive completion (A : Type) : Type :=
| Returned (a : A)
| Thrown (message : string).
Arguments Returned {A} a.
Arguments Thrown {A} message.

Definition is_thrown {A} (c : completion A) : bool :=
  match c with Thrown _ => true | Returned _ => false end.

(** ** Plain objects used as dictionaries

    An object literal answers a lookup under the name of a member of
    [Object.prototype] with that member, although nothing was stored
    under the name, and [Object.keys] lists integer-like names before
    all others.  The finite maps of this development are the objects
    of the code for the names that are [ordinary]. *)

Definition prototype_members : list string :=
  ["constructor"; "__defineGetter__"; "__defineSetter__"; "hasOwnProperty";
   "__lookupGetter__"; "__lookupSetter__"; "isPrototypeOf";
   "propertyIsEnumerable"; "toString"; "valueOf"; "__proto__";
   "toLocaleString"].

Definition inherited (name : string) : bool :=
  bool_decide (name ∈ prototype_members).

Definition is_digit (c : Ascii.ascii) : bool :=
  (48 <=? Ascii.nat_of_ascii c)%nat && (Ascii.nat_of_ascii c <=? 57)%nat.

Definition starts_with_digit (name : string) : bool :=
  match name with
  | String c _ => is_digit c
  | EmptyString => false
  end.

Definition ordinary (name : string) : bool :=
  negb (inherited name) && negb (starts_with_digit name).

(** ** redis-concurrency.js *)

Module Concurrency.

(** [this.limits], the same table in both controllers. *)
Definition limits : gmap string Z :=
  list_to_map
    [("Simple", 10); ("Standard", 4); ("Batch", 2);
     ("Orchestrator", 2); ("Deep", 1)].

(** *** LocalConcurrencyController

    [this.slots] is a [Map] from branch to a [Set] of task ids. *)
Module Local.

(** The controller has no [await] inside [acquireSlot]: the body runs
    in one piece.  [slot.size < undefined] is [false] in JavaScript,
    so a branch missing from [limits] never gets a slot. *)
Definition acquireSlot (branch taskId : string) (s : gmap string (gset string))
  : gmap string (gset string) * bool :=
  let s1 := match s !! branch with
            | Some _ => s
            | None => <[branch := ∅]> s
            end in
  let slot := default ∅ (s1 !! branch) in
  match limits !! branch with
  | Some limit =>
      if Z.of_nat (size slot) <? limit
      then (<[branch := {[taskId]} ∪ slot]> s1, true)
      else (s1, false)
  | None => (s1, false)
  end.

Definition releaseSlot (branch taskId : string) (s : gmap string (gset string))
  : gmap string (gset string) :=
  match s !! branch with
  | Some slot => <[branch := slot ∖ {[taskId]}]> s
  | None => s
  end.

Definition getCurrentConcurrency (branch : string) (s : gmap string (gset string)) : nat :=
  match s !! branch with
  | Some slot => size slot
  | None => 0%nat
  end.

End Local.

(** *** RedisConcurrencyController

    The store maps a key to a Redis set.  The Lua script of
    [acquireSlot] is evaluated by the server as one command. *)
Module Redis.

Definition prefix : string := "subagent:concurrency:".

Definition scard (key : string) (db : gmap string (gset string)) : nat :=
  match db !! key with
  | Some members => size members
  | None => 0%nat
  end.

Definition sadd (key member : string) (db : gmap string (gset string))
  : gmap string (gset string) :=
  <[key := {[member]} ∪ default ∅ (db !! key)]> db.

(** Redis removes a set key when its last member goes. *)
Definition srem (key member : string) (db : gmap string (gset string))
  : gmap string (gset string) :=
  match db !! key with
  | Some members =>
      let rest := members ∖ {[member]} in
      if decide (rest = ∅) then delete key db else <[key := rest]> db
  | None => db
  end.

(** [this.limits[branch] || 1], for a branch that is not an [inherited]
    name: under such a name the lookup finds a function or an object,
    which the script cannot compare with the cardinality. *)
Definition limit_of (branch : string) : Z :=
  match limits !! branch with
  | Some n => if n =? 0 then 1 else n
  | None => 1
  end.

Definition acquireSlot (branch taskId : string) (db : gmap string (gset string))
  : gmap string (gset string) * bool :=
  let key := (prefix ++ branch)%string in
  let limit := limit_of branch in
  let current := scard key db in
  if Z.of_nat current <? limit
  then (sadd key taskId db, true)
  else (db, false).

Definition releaseSlot (branch taskId : string) (db : gmap string (gset string))
  : gmap string (gset string) :=
  srem (prefix ++ branch)%string taskId db.

Definition getCurrentConcurrency (branch : string) (db : gmap string (gset string)) : nat :=
  scard (prefix ++ branch)%string db.

(** The one-hour [expire] set by the script drops the whole key. *)
Definition expire (branch : string) (db : gmap string (gset string))
  : gmap string (gset string) :=
  delete (prefix ++ branch)%string db.

End Redis.

(** Calls on one controller, in the order in which the event loop (or
    the Redis server) serialises them, and the expiry of a Redis key,
    which the local controller does not have. *)
Inductive op : Type :=
| Acquire (branch taskId : string)
| Release (branch taskId : string)
| Expire (branch : string).

Definition local_step (o : op) (s : gmap string (gset string)) : gmap string (gset string) :=
  match o with
  | Acquire b t => fst (Local.acquireSlot b t s)
  | Release b t => Local.releaseSlot b t s
  | Expire _ => s
  end.

Definition redis_step (o : op) (s : gmap string (gset string)) : gmap string (gset string) :=
  match o with
  | Acquire b t => fst (Redis.acquireSlot b t s)
  | Release b t => Redis.releaseSlot b t s
  | Expire b => Redis.expire b s
  end.

Definition local_run (ops : list op) (s : gmap string (gset string)) :=
  foldl (fun s o => local_step o s) s ops.

Definition redis_run (ops : list op) (s : gmap string (gset string)) :=
  foldl (fun s o => redis_step o s) s ops.

(** Outcomes of a batch of [acquireSlot] calls on one branch. *)
Fixpoint local_acquire_all (branch : string) (ids : list string)
    (s : gmap string (gset string)) : list bool * gmap string (gset string) :=
  match ids with
  | [] => ([], s)
  | t :: rest =>
      let '(s1, ok) := Local.acquireSlot branch t s in
      let '(oks, s2) := local_acquire_all branch rest s1 in
      (ok :: oks, s2)
  end.

Fixpoint redis_acquire_all (branch : string) (ids : list string)
    (s : gmap string (gset string)) : list bool * gmap string (gset string) :=
  match ids with
  | [] => ([], s)
  | t :: rest =>
      let '(s1, ok) := Redis.acquireSlot branch t s in
      let '(oks, s2) := redis_acquire_all branch rest s1 in
      (ok :: oks, s2)
  end.

Definition successes (oks : list bool) : nat := length (filter (fun b => b = true) oks).

(** The task ids holding a slot of [b]. *)
Definition local_holders (s : gmap string (gset string)) (b : string) : gset string :=
  default ∅ (s !! b).

Definition redis_holders (db : gmap string (gset string)) (b : string) : gset string :=
  default ∅ (db !! (Redis.prefix ++ b)%string).

(** No tier has more holders than its limit. *)
Definition bounded (holders : string -> gset string) : Prop :=
  forall b N, limits !! b = Some N -> Z.of_nat (size (holders b)) <= N.

End Concurrency.

(** ** task-decomposer.js *)

Module Decomposer.

Record Subtask := {
  id : string;
  task : string;
  dependsOn : list string;
  estimatedDuration : option Z;
  requiredCapabilities : option (list string);
  type : option string
}.

(** *** buildDAG

    [graph] and [inDegree] are plain objects keyed by subtask id, and
    [graph[depId]] is looked up for every dependency name.  For names
    that are [ordinary], [Object.keys] lists the ids in insertion order
    and [graph[depId]] is truthy exactly for the ids that were
    inserted.  Under another name the code behaves differently: for a
    dependency called [constructor], say, [graph[depId]] is the
    inherited function and [graph[depId].push] throws a [TypeError].
    The ids and dependency names that [decompose] generates are all
    ordinary; [well_keyed] says so of an arbitrary list. *)

Definition well_keyed (subtasks : list Subtask) : Prop :=
  Forall (fun st => ordinary (id st) = true
                    /\ Forall (fun depId => ordinary depId = true) (dependsOn st))
         subtasks.

Definition succs (graph : gmap string (list string)) (u : string) : list string :=
  default [] (graph !! u).

Definition deg (inDegree : gmap string Z) (v : string) : Z :=
  default 0 (inDegree !! v).

Definition add_key (keys : list string) (k : string) : list string :=
  if decide (k ∈ keys) then keys else keys ++ [k].

(** [subtasks.forEach(st => { graph[st.id] = []; inDegree[st.id] = 0; })] *)
Definition init_graph (subtasks : list Subtask) : gmap string (list string) :=
  foldl (fun g st => <[id st := []]> g) ∅ subtasks.

Definition init_inDegree (subtasks : list Subtask) : gmap string Z :=
  foldl (fun d st => <[id st := 0]> d) ∅ subtasks.

Definition keys_of (subtasks : list Subtask) : list string :=
  foldl (fun ks st => add_key ks (id st)) [] subtasks.

(** [if (graph[depId]) { graph[depId].push(st.id); inDegree[st.id]++; }] *)
Definition add_edge (sid : string)
    (acc : gmap string (list string) * gmap string Z) (depId : string)
  : gmap string (list string) * gmap string Z :=
  let '(graph, inDegree) := acc in
  match graph !! depId with
  | Some out => (<[depId := out ++ [sid]]> graph,
                 <[sid := deg inDegree sid + 1]> inDegree)
  | None => acc
  end.

Definition add_edges (subtasks : list Subtask)
    (acc : gmap string (list string) * gmap string Z)
  : gmap string (list string) * gmap string Z :=
  foldl (fun acc st => foldl (add_edge (id st)) acc (dependsOn st)) acc subtasks.

(** [inDegree[nextId]--; if (inDegree[nextId] === 0) queue.push(nextId);] *)
Definition relax (acc : gmap string Z * list string) (nextId : string)
  : gmap string Z * list string :=
  let '(inDegree, queue) := acc in
  let d := deg inDegree nextId - 1 in
  (<[nextId := d]> inDegree, if d =? 0 then queue ++ [nextId] else queue).

(** [currentGroup.forEach(id => graph[id].forEach(nextId => ...))] *)
Definition next_group (graph : gmap string (list string))
    (inDegree : gmap string Z) (currentGroup : list string)
  : gmap string Z * list string :=
  foldl (fun acc u => foldl relax acc (succs graph u)) (inDegree, []) currentGroup.

(** [while (queue.length > 0)]: one unit of fuel per round. *)
Fixpoint groups_loop (fuel : nat) (graph : gmap string (list string))
    (inDegree : gmap string Z) (queue : list string) : option (list (list string)) :=
  match queue with
  | [] => Some []
  | _ :: _ =>
      match fuel with
      | O => None
      | S fuel' =>
          let '(inDegree', queue') := next_group graph inDegree queue in
          cons queue <$> groups_loop fuel' graph inDegree' queue'
      end
  end.

(** The object returned by [analyzeComplexity]. *)
Record Indicators := {
  length : Z;
  wordCount : Z;
  hasMultipleSteps : bool;
  hasMultipleTargets : bool;
  hasDeepAnalysis : bool;
  hasDependencies : bool;
  estimatedSubtasks : Z;
  complexityScore : Z;
  shouldDecompose : bool
}.

(** The object returned by [buildDAG], with the fields that [decompose]
    adds to it afterwards.  A field that the object does not carry is
    [None] ([undefined]). *)
Record DAG := {
  subtasks : list Subtask;
  graph : option (gmap string (list string));
  parallelGroups : list (list string);
  isValid : option bool;
  taskId : option string;
  originalTask : option string;
  complexity : option Indicators;
  totalSubtasks : option Z
}.

(** The loop runs at most once per key (see [buildDAG_returns]), so the
    fuel given by [buildDAG] is never exhausted. *)
Definition buildDAG_fuel (fuel : nat) (sts : list Subtask) : option DAG :=
  let '(g, d) := add_edges sts (init_graph sts, init_inDegree sts) in
  let queue := filter (fun k => deg d k = 0) (keys_of sts) in
  match groups_loop fuel g d queue with
  | Some groups =>
      Some {| subtasks := sts; graph := Some g; parallelGroups := groups;
              isValid := Some (bool_decide (0 < List.length groups)%nat);
              taskId := None; originalTask := None; complexity := None;
              totalSubtasks := None |}
  | None => None
  end.

Definition buildDAG (sts : list Subtask) : option DAG :=
  buildDAG_fuel (List.length sts) sts.

(** *** analyzeComplexity and decompose

    The regular-expression tests and the string primitives of the
    JavaScript runtime are parameters of the model. *)
Inductive marker := MultipleSteps | MultipleTargets | DeepAnalysis | Dependencies.

Section Decompose.

(** [this.maxSubtasks] *)
Variable maxSubtasks : Z.
(** [task.length] and [task.split(/\s+/).length] *)
Variable js_length : string -> Z.
Variable js_wordCount : string -> Z.
(** [/.../.test(task)] for the four marker patterns *)
Variable re_test : marker -> string -> bool.
(** [parseInt] of the first run of digits, [task.match(/(\d+)/)] *)
Variable first_number : string -> option Z.
(** [task.includes('文件')] *)
Variable includes_file : string -> bool.
(** [parseInt] of the count matched by [/(\d+)个?.*文件/] *)
Variable file_count : string -> option Z.
Variable substring : string -> Z -> Z -> string.
(** [Date.now()] *)
Variable now : Z.

Definition analyzeComplexity (t : string) : Indicators :=
  let steps := re_test MultipleSteps t in
  let targets := re_test MultipleTargets t in
  let deep := re_test DeepAnalysis t in
  let deps := re_test Dependencies t in
  let e0 := 1 in
  let e1 := if steps then e0 + 2 else e0 in
  let e2 := if targets
            then match first_number t with
                 | Some n => e1 + Z.min n 10
                 | None => e1 + 3
                 end
            else e1 in
  let e3 := if deep then e2 + 2 else e2 in
  let e4 := if deps then e3 + 1 else e3 in
  let s1 := if 200 <? js_length t then 2 else 0 in
  let s2 := if 500 <? js_length t then s1 + 3 else s1 in
  let s3 := if steps then s2 + 2 else s2 in
  let s4 := if targets then s3 + 2 else s3 in
  let s5 := if deep then s4 + 2 else s4 in
  let s6 := if deps then s5 + 1 else s5 in
  {| length := js_length t;
     wordCount := js_wordCount t;
     hasMultipleSteps := steps;
     hasMultipleTargets := targets;
     hasDeepAnalysis := deep;
     hasDependencies := deps;
     estimatedSubtasks := Z.min e4 maxSubtasks;
     complexityScore := s6;
     shouldDecompose := (3 <=? s6) || (2 <? e4) |}.

Definition process_file (i : nat) : Subtask :=
  {| id := ("process_file_" ++ pretty i)%string;
     task := ("处理第" ++ pretty (S i) ++ "批文件")%string;
     dependsOn := ["scan_files"];
     estimatedDuration := Some 30000;
     requiredCapabilities := Some ["read"; "write"; "analyze"];
     type := Some "process" |}.

Definition decomposeFileBatchTask (t : string) (analysis : Indicators) : list Subtask :=
  let fileCount := default 5 (file_count t) in
  let scan :=
    {| id := "scan_files"; task := "扫描并列出所有目标文件"; dependsOn := [];
       estimatedDuration := Some 10000;
       requiredCapabilities := Some ["read"; "list_files"]; type := Some "scan" |} in
  let sts := scan :: map process_file (seq 0 (Z.to_nat (Z.min fileCount 10))) in
  let processIds :=
    map id (filter (fun s => type s = Some "process") sts) in
  sts ++
  [{| id := "aggregate_results"; task := "汇总所有文件处理结果";
      dependsOn := processIds; estimatedDuration := Some 15000;
      requiredCapabilities := Some ["read"; "write"; "aggregate"];
      type := Some "aggregate" |}].

Definition steps : list (string * list string) :=
  [("数据收集", ["read"; "fetch"]);
   ("数据清洗", ["read"; "write"; "transform"]);
   ("数据分析", ["read"; "analyze"]);
   ("结果生成", ["read"; "write"; "generate"])].

(** [steps.forEach((step, index) => ...)] with the running [prevId] *)
Fixpoint step_subtasks (t : string) (index : nat) (prevId : option string)
    (todo : list (string * list string)) : list Subtask :=
  match todo with
  | [] => []
  | (name, caps) :: rest =>
      let sid := ("step_" ++ pretty (S index))%string in
      {| id := sid;
         task := (name ++ ": " ++ substring t 0 50 ++ "...")%string;
         dependsOn := match prevId with Some p => [p] | None => [] end;
         estimatedDuration := Some 30000;
         requiredCapabilities := Some caps;
         type := Some "step" |}
      :: step_subtasks t (S index) (Some sid) rest
  end.

Definition decomposeStepByStepTask (t : string) (analysis : Indicators) : list Subtask :=
  step_subtasks t 0 None steps.

Definition decomposeAnalysisTask (t : string) (analysis : Indicators) : list Subtask :=
  [{| id := "collect_info"; task := "收集相关信息和背景资料"; dependsOn := [];
      estimatedDuration := Some 20000;
      requiredCapabilities := Some ["read"; "search"; "fetch"]; type := Some "collect" |};
   {| id := "analyze_structure"; task := "分析结构和组成部分";
      dependsOn := ["collect_info"]; estimatedDuration := Some 30000;
      requiredCapabilities := Some ["read"; "analyze"]; type := Some "analyze" |};
   {| id := "deep_analysis"; task := "深度分析和挖掘";
      dependsOn := ["analyze_structure"]; estimatedDuration := Some 60000;
      requiredCapabilities := Some ["read"; "analyze"; "reasoning"]; type := Some "deep" |};
   {| id := "synthesize_report"; task := "综合分析并生成报告";
      dependsOn := ["deep_analysis"]; estimatedDuration := Some 30000;
      requiredCapabilities := Some ["read"; "write"; "synthesize"];
      type := Some "synthesize" |}].

Definition decomposeGenericTask (t : string) (analysis : Indicators) : list Subtask :=
  [{| id := "prepare"; task := "准备和规划"; dependsOn := [];
      estimatedDuration := Some 10000;
      requiredCapabilities := Some ["read"; "plan"]; type := Some "prepare" |};
   {| id := "execute"; task := ("执行: " ++ substring t 0 100)%string;
      dependsOn := ["prepare"]; estimatedDuration := Some 60000;
      requiredCapabilities := Some ["read"; "write"; "execute"]; type := Some "execute" |};
   {| id := "verify"; task := "验证和整理结果"; dependsOn := ["execute"];
      estimatedDuration := Some 15000;
      requiredCapabilities := Some ["read"; "verify"]; type := Some "verify" |}].

(** The template chosen by [decompose] when the task is decomposed. *)
Definition template (t : string) (analysis : Indicators) : list Subtask :=
  if hasMultipleTargets analysis && includes_file t
  then decomposeFileBatchTask t analysis
  else if hasMultipleSteps analysis then decomposeStepByStepTask t analysis
  else if hasDeepAnalysis analysis then decomposeAnalysisTask t analysis
  else decomposeGenericTask t analysis.

Definition decompose (t : string) : option DAG :=
  let analysis := analyzeComplexity t in
  if negb (shouldDecompose analysis)
  then
    Some {| taskId := Some ("task_" ++ pretty now)%string;
            originalTask := Some t;
            complexity := Some analysis;
            subtasks := [{| id := "subtask_1"; task := t; dependsOn := [];
                            estimatedDuration := Some 60000;
                            requiredCapabilities := Some ["read"; "write"];
                            type := None |}];
            graph := None;
            parallelGroups := [["subtask_1"]];
            isValid := None;
            totalSubtasks := Some 1 |}
  else
    let sts := template t analysis in
    match buildDAG sts with
    | Some dag =>
        Some {| subtasks := subtasks dag; graph := graph dag;
                parallelGroups := parallelGroups dag; isValid := isValid dag;
                taskId := Some ("task_" ++ pretty now)%string;
                originalTask := Some t;
                complexity := Some analysis;
                totalSubtasks := Some (Z.of_nat (List.length sts)) |}
    | None => None
    end.

End Decompose.

(** [getExecutableSubtasks(dag, completed)] *)
Definition getExecutableSubtasks (dag : DAG) (completed : gset string) : list Subtask :=
  List.filter
    (fun st =>
       if bool_decide (id st ∈ completed) then false
       else forallb (fun depId => bool_decide (depId ∈ completed)) (dependsOn st))
    (subtasks dag).

End Decomposer.

(** ** The dependency graph of a list of subtasks

    The notions in which the properties of [buildDAG] are stated. *)

Module Graph.

Import Decomposer.

(** The number of occurrences of [v] in [l]. *)
Definition occ (v : string) (l : list string) : nat :=
  List.length (filter (fun x => x = v) l).

(** The in-degree that [us] contribute to [v]: the occurrences of [v]
    among their successors. *)
Definition inflow (g : gmap string (list string)) (v : string) (us : list string) : nat :=
  sum_list_with (fun u => occ v (succs g u)) us.

(** [u] is a dependency of [v] that names a subtask. *)
Definition depends (sts : list Subtask) (u v : string) : Prop :=
  u ∈ keys_of sts /\ exists st, st ∈ sts /\ id st = v /\ u ∈ dependsOn st.

(** The pairs (subtask, dependency) in the order of the two loops. *)
Definition edges_of (sts : list Subtask) : list (string * string) :=
  sts ≫= fun st => (fun dep => (id st, dep)) <$> dependsOn st.

(** What the two [forEach] loops have built after the edges [E]. *)
Definition built (sts : list Subtask) (E : list (string * string))
    (acc : gmap string (list string) * gmap string Z) : Prop :=
  (forall k, is_Some (acc.1 !! k) <-> k ∈ keys_of sts)
  /\ (forall u v, v ∈ succs acc.1 u <-> u ∈ keys_of sts /\ (v, u) ∈ E)
  /\ (forall v, deg acc.2 v = Z.of_nat (inflow acc.1 v (keys_of sts))).

Section Kahn.

Variable sts : list Subtask.

#[local] Abbreviation keys := (keys_of sts).
#[local] Abbreviation G := (add_edges sts (init_graph sts, init_inDegree sts)).1.

(** [done] are the ids of the groups already formed, [queue] is the
    group about to be formed.  The in-degree of a subtask counts the
    edges from the subtasks outside [done], and the subtasks of
    in-degree 0 are those of [done] and [queue]. *)
Definition kahn (done : list string) (d : gmap string Z) (queue : list string) : Prop :=
  NoDup (done ++ queue)
  /\ (forall x, x ∈ done ++ queue -> x ∈ keys)
  /\ (forall v, deg d v = Z.of_nat (inflow G v keys) - Z.of_nat (inflow G v done))
  /\ (forall v, v ∈ keys -> deg d v = 0 <-> v ∈ done ++ queue).

End Kahn.

(** The subtask ids that [buildDAG] has put into a group. *)
Definition scheduled (dag : DAG) (v : string) : Prop := v ∈ concat (parallelGroups dag).

(** A valid topological partition: every subtask id occurs once in the
    groups, and a dependency that occurs in a group occurs in an earlier
    group than the subtask, so neither in the same nor in a later one. *)
Definition topological_partition (sts : list Subtask) (groups : list (list string)) : Prop :=
  (forall st, st ∈ sts -> occ (id st) (concat groups) = 1%nat)
  /\ (forall st d j k gj gk,
        st ∈ sts -> d ∈ dependsOn st ->
        groups !! k = Some gk -> id st ∈ gk ->
        groups !! j = Some gj -> d ∈ gj ->
        (j < k)%nat).

(** Three subtasks, two of which depend on each other. *)
Definition cyclic_example : list Subtask :=
  [ {| id := "a"; task := "a"; dependsOn := []; estimatedDuration := None;
       requiredCapabilities := None; type := None |};
    {| id := "b"; task := "b"; dependsOn := ["c"]; estimatedDuration := None;
       requiredCapabilities := None; type := None |};
    {| id := "c"; task := "c"; dependsOn := ["b"]; estimatedDuration := None;
       requiredCapabilities := None; type := None |} ].

(** Ranks for the subtasks of the templates of [decompose]; an id that
    is not listed has rank 1. *)
Definition rank_of (ranks : list (string * nat)) (s : string) : nat :=
  default 1%nat (snd <$> List.find (fun p => bool_decide (p.1 = s)) ranks).

Definition batch_ranks : list (string * nat) :=
  [("scan_files", 0%nat); ("aggregate_results", 2%nat)].

Definition step_ranks : list (string * nat) :=
  [("step_1", 0%nat); ("step_2", 1%nat); ("step_3", 2%nat); ("step_4", 3%nat)].

Definition analysis_ranks : list (string * nat) :=
  [("collect_info", 0%nat); ("analyze_structure", 1%nat);
   ("deep_analysis", 2%nat); ("synthesize_report", 3%nat)].

Definition generic_ranks : list (string * nat) :=
  [("prepare", 0%nat); ("execute", 1%nat); ("verify", 2%nat)].

End Graph.

(** ** The result aggregator *)

Module Aggregator.

(** JavaScript values that a subtask may return as its payload. *)
#[warnings="-register-all"] Inductive value : Type :=
| VUndefined
| VNull
| VBool (b : bool)
| VNum (q : Q)
| VStr (s : string)
| VArr (items : list value)
| VObj (fields : list (string * value)).

Inductive js_type := TString | TObject | TOther.

Definition typeof (v : value) : js_type :=
  match v with
  | VStr _ => TString
  | VNull | VArr _ | VObj _ => TObject
  | VUndefined | VBool _ | VNum _ => TOther
  end.

Record Metadata := {
  confidence : option Q;
  agentName : option string
}.

(** An element of the [results] array: the fields that [aggregate] reads. *)
Record Entry := {
  subtaskId : option string;
  result : value;
  metadata : option Metadata
}.

(** The object returned by [aggregate]; absent fields are [None]. *)
Record Aggregated := {
  success : bool;
  payload : option value;
  error : option string;
  source : option string;
  out_metadata : option Metadata;
  count : option Z;
  uniqueCount : option Z;
  conflictCount : option Z;
  vote_confidence : option Q;
  voteDistribution : option (list (string * Z));
  selectedFrom : option (option string)
}.

(** Reading [.subtaskId], [.result] and [.metadata] off an aggregate, as
    [aggregate] does when a final result is put into a results list. *)
Definition as_entry (a : Aggregated) : Entry :=
  {| subtaskId := None;
     result := default VUndefined (payload a);
     metadata := out_metadata a |}.

Inductive AggregationStrategy :=
| CONCAT | SMART_MERGE | VOTE | PRIORITY | SUMMARIZE
| UNKNOWN (name : string).

Record Options := {
  strategy : option AggregationStrategy;
  originalTask : option string;
  priorities : option (option string -> Q)
}.

Definition nl : string := String (Ascii.ascii_of_nat 10) EmptyString.
Definition separator : string := (nl ++ nl ++ "---" ++ nl ++ nl)%string.

(** Stable insertion sort, the behaviour of [Array.prototype.sort] with
    a consistent comparator; [before a b] is [compare(a, b) <= 0]. *)
Section Sort.
Context {A : Type} (before : A -> A -> bool).

Fixpoint insert_sorted (x : A) (l : list A) : list A :=
  match l with
  | [] => [x]
  | y :: l' => if before y x then y :: insert_sorted x l' else x :: y :: l'
  end.

Definition js_sort (l : list A) : list A :=
  foldl (fun acc x => insert_sorted x acc) [] l.
End Sort.

Section Aggregate.

(** [this.strategy] and [this.conflictThreshold] *)
Variable default_strategy : AggregationStrategy.
Variable conflictThreshold : Q.
(** [JSON.stringify(v)], [JSON.stringify(v, null, 2)] and [String(v)];
    [JSON.stringify] gives [undefined] for some values. *)
Variable JSON_stringify : value -> option string.
Variable JSON_stringify_pretty : value -> option string.
Variable String_ : value -> string.
(** The share of common words of two texts, as [calculateSimilarity]
    computes it from the lower-cased words, and [this.extractKeyPoints],
    which works on the sentences of the text. *)
Variable word_similarity : string -> string -> Q.
Variable extractKeyPoints : string -> value.
Variable substring : string -> Z -> Z -> string.

(** A template literal prints [undefined] as the word. *)
Definition interpolate (o : option string) : string := default "undefined" o.

Definition aggregateByConcat (results : list Entry) : Aggregated :=
  let texts := map (fun r =>
    match typeof (result r) with
    | TString => match result r with VStr s => Some s | _ => None end
    | TObject => JSON_stringify (result r)
    | TOther => Some (String_ (result r))
    end) results in
  {| success := true;
     payload := Some (VStr (String.concat separator (map (default "") texts)));
     error := None; source := Some "concat"; out_metadata := None;
     count := Some (Z.of_nat (length results));
     uniqueCount := None; conflictCount := None; vote_confidence := None;
     voteDistribution := None; selectedFrom := None |}.

(** The key used by [deduplicate] and [aggregateByVote]. *)
Definition key_of (r : Entry) : option string :=
  match result r with
  | VStr s => Some s
  | v => JSON_stringify v
  end.

Fixpoint dedup_from (seen : list (option string)) (results : list Entry) : list Entry :=
  match results with
  | [] => []
  | r :: rest =>
      let k := key_of r in
      if decide (k ∈ seen) then dedup_from seen rest
      else r :: dedup_from (k :: seen) rest
  end.

Definition deduplicate (results : list Entry) : list Entry := dedup_from [] results.

(** [calculateSimilarity(a, b)]: a value that is not a string goes
    through [JSON.stringify], and [toLowerCase] is called on the
    outcome, which throws when that is [undefined]. *)
Definition calculateSimilarity (a b : value) : completion Q :=
  let strA := match a with VStr s => Some s | v => JSON_stringify v end in
  let strB := match b with VStr s => Some s | v => JSON_stringify v end in
  match strA, strB with
  | Some sa, Some sb => Returned (word_similarity sa sb)
  | _, _ => Thrown "TypeError: Cannot read properties of undefined (reading 'toLowerCase')"
  end.

(** The inner loop of [detectConflicts], over the results after [r]. *)
Fixpoint conflictsWith (r : Entry) (later : list Entry)
  : completion (list (option string * option string * Q)) :=
  match later with
  | [] => Returned []
  | r' :: rest =>
      match calculateSimilarity (result r) (result r') with
      | Thrown e => Thrown e
      | Returned similarity =>
          match conflictsWith r rest with
          | Thrown e => Thrown e
          | Returned conflicts =>
              Returned
                (if Qlt_le_dec (3 # 10) similarity
                 then if Qlt_le_dec similarity conflictThreshold
                      then (subtaskId r, subtaskId r', similarity) :: conflicts
                      else conflicts
                 else conflicts)
          end
      end
  end.

Fixpoint detectConflicts (results : list Entry)
  : completion (list (option string * option string * Q)) :=
  match results with
  | [] => Returned []
  | r :: rest =>
      match conflictsWith r rest with
      | Thrown e => Thrown e
      | Returned conflicts =>
          match detectConflicts rest with
          | Thrown e => Thrown e
          | Returned more => Returned (conflicts ++ more)
          end
      end
  end.

(** [a.metadata?.confidence || 0.5] *)
Definition confidence_of (r : Entry) : Q :=
  match metadata r with
  | Some m => match confidence m with
              | Some c => if Qeq_bool c 0 then 1 # 2 else c
              | None => 1 # 2
              end
  | None => 1 # 2
  end.

(** The comparator is [confidenceB - confidenceA]: descending. *)
Definition resolveConflicts (results : list Entry)
    (conflicts : list (option string * option string * Q)) : list Entry :=
  js_sort (fun a b => Qle_bool (confidence_of b) (confidence_of a)) results.

Definition section_of (index : nat) (r : Entry) : string :=
  let name := match metadata r with
              | Some m => match agentName m with
                          | Some n => if decide (n = "") then "Agent" else n
                          | None => "Agent"
                          end
              | None => "Agent"
              end in
  let header := ("[" ++ name ++ " " ++ pretty (S index) ++ "]")%string in
  let content := match result r with
                 | VStr s => s
                 | v => interpolate (JSON_stringify_pretty v)
                 end in
  (header ++ nl ++ content)%string.

Definition mergeTexts (results : list Entry) : string :=
  String.concat separator (imap section_of results).

Definition aggregateBySmartMerge (results : list Entry) : completion Aggregated :=
  let uniqueResults := deduplicate results in
  match detectConflicts uniqueResults with
  | Thrown e => Thrown e
  | Returned conflicts =>
      let resolved := resolveConflicts uniqueResults conflicts in
      let merged := mergeTexts resolved in
      Returned
        {| success := true; payload := Some (VStr merged); error := None;
           source := Some "smart_merge"; out_metadata := None;
           count := Some (Z.of_nat (length results));
           uniqueCount := Some (Z.of_nat (length uniqueResults));
           conflictCount := Some (Z.of_nat (length conflicts));
           vote_confidence := None; voteDistribution := None; selectedFrom := None |}
  end.

(** [aggregateByVote]: [votes] is a [Map] in insertion order. *)
Fixpoint cast_vote (k : option string) (r : Entry)
    (votes : list (option string * (Z * list Entry)))
  : list (option string * (Z * list Entry)) :=
  match votes with
  | [] => [(k, (1, [r]))]
  | (k', (n, rs)) :: rest =>
      if decide (k' = k) then (k', (n + 1, rs ++ [r])) :: rest
      else (k', (n, rs)) :: cast_vote k r rest
  end.

Definition count_votes (results : list Entry) : list (option string * (Z * list Entry)) :=
  foldl (fun votes r => cast_vote (key_of r) r votes) [] results.

(** [if (vote.count > maxVotes) { maxVotes = vote.count; winner = vote.results[0]; }] *)
Definition pick_winner (votes : list (option string * (Z * list Entry)))
  : option Entry * Z :=
  foldl (fun acc kv =>
           let '(winner, maxVotes) := acc in
           let '(_, (n, rs)) := kv in
           if maxVotes <? n then (head rs, n) else acc)
        (None, 0) votes.

(** [k.substring(0, 100)] throws when the key is [undefined]. *)
Fixpoint distribution (votes : list (option string * (Z * list Entry)))
  : completion (list (string * Z)) :=
  match votes with
  | [] => Returned []
  | (Some k, (n, _)) :: rest =>
      match distribution rest with
      | Returned d => Returned ((substring k 0 100, n) :: d)
      | Thrown e => Thrown e
      end
  | (None, _) :: _ => Thrown "TypeError: Cannot read properties of undefined"
  end.

Definition aggregateByVote (results : list Entry) : completion Aggregated :=
  let votes := count_votes results in
  match pick_winner votes with
  | (Some winner, maxVotes) =>
      match distribution votes with
      | Returned d =>
          Returned
            {| success := true; payload := Some (result winner); error := None;
               source := Some "vote"; out_metadata := None; count := None;
               uniqueCount := None; conflictCount := None;
               vote_confidence :=
                 Some (Qmake maxVotes (Pos.of_nat (length results)));
               voteDistribution := Some d; selectedFrom := None |}
      | Thrown e => Thrown e
      end
  | (None, _) => Thrown "TypeError: Cannot read properties of null"
  end.

(** [priorities[a.subtaskId] || 0]; the comparator is
    [priorityB - priorityA]. *)
Definition aggregateByPriority (results : list Entry)
    (prio : option (option string -> Q)) : completion Aggregated :=
  let priority_of r :=
    match prio with
    | Some f => f (subtaskId r)
    | None => 0%Q
    end in
  let sorted := js_sort (fun a b => Qle_bool (priority_of b) (priority_of a)) results in
  match sorted with
  | first :: _ =>
      Returned
        {| success := true; payload := Some (result first); error := None;
           source := Some "priority"; out_metadata := None; count := None;
           uniqueCount := None; conflictCount := None; vote_confidence := None;
           voteDistribution := None; selectedFrom := Some (subtaskId first) |}
  | [] => Thrown "TypeError: Cannot read properties of undefined"
  end.

(** [Array.prototype.join] prints [undefined] as the empty string. *)
Definition aggregateBySummarize (results : list Entry) (original : string) : Aggregated :=
  let fullText :=
    String.concat (nl ++ nl)%string
      (map (fun r => match result r with
                     | VStr s => s
                     | v => default "" (JSON_stringify v)
                     end) results) in
  let summary := extractKeyPoints fullText in
  {| success := true;
     payload := Some (VObj [("summary", summary);
                            ("fullText", VStr (substring fullText 0 5000 ++ "...")%string);
                            ("originalTask", VStr original)]);
     error := None; source := Some "summarize"; out_metadata := None;
     count := Some (Z.of_nat (length results));
     uniqueCount := None; conflictCount := None; vote_confidence := None;
     voteDistribution := None; selectedFrom := None |}.

(** [aggregate(results, options)]; a missing [results] is [None]. *)
Definition aggregate (results : option (list Entry)) (options : Options)
  : completion Aggregated :=
  let strategy := default default_strategy (strategy options) in
  let original := default "" (originalTask options) in
  match results with
  | None | Some [] =>
      Returned
        {| success := false; payload := None; error := Some "没有结果可聚合";
           source := None; out_metadata := None; count := None;
           uniqueCount := None; conflictCount := None; vote_confidence := None;
           voteDistribution := None; selectedFrom := None |}
  | Some [r] =>
      Returned
        {| success := true; payload := Some (result r); error := None;
           source := Some "single"; out_metadata := metadata r; count := None;
           uniqueCount := None; conflictCount := None; vote_confidence := None;
           voteDistribution := None; selectedFrom := None |}
  | Some rs =>
      match strategy with
      | CONCAT => Returned (aggregateByConcat rs)
      | SMART_MERGE => aggregateBySmartMerge rs
      | VOTE => aggregateByVote rs
      | PRIORITY => aggregateByPriority rs (priorities options)
      | SUMMARIZE => Returned (aggregateBySummarize rs original)
      | UNKNOWN _ => Returned (aggregateByConcat rs)
      end
  end.

(** The value read from [.result] of an aggregate. *)
Definition payload_of (a : Aggregated) : value := default VUndefined (payload a).

(** [aggregateByDAG(dag, results)]: [results] is the [Map] from subtask
    id to its result; a subtask without a result is skipped. *)
Fixpoint aggregate_groups (groups : list (list string)) (results : gmap string Entry)
  : completion (list Aggregated) :=
  match groups with
  | [] => Returned []
  | group :: rest =>
      let groupResults := omap (fun i => results !! i) group in
      match groupResults with
      | [] => aggregate_groups rest results
      | _ :: _ =>
          match aggregate (Some groupResults)
                  {| strategy := Some SMART_MERGE; originalTask := None;
                     priorities := None |} with
          | Returned a =>
              match aggregate_groups rest results with
              | Returned l => Returned (a :: l)
              | Thrown e => Thrown e
              end
          | Thrown e => Thrown e
          end
      end
  end.

Definition aggregateByDAG (groups : list (list string)) (results : gmap string Entry)
  : completion Aggregated :=
  match aggregate_groups groups results with
  | Returned aggregatedResults =>
      aggregate
        (Some (map (fun r => {| subtaskId := None; result := payload_of r;
                                metadata := None |}) aggregatedResults))
        {| strategy := Some CONCAT; originalTask := None; priorities := None |}
  | Thrown e => Thrown e
  end.

End Aggregate.

End Aggregator.

(** ** index.js: RetryExecutor *)

Module Retry.

(** The default [this.downgradeChain]. *)
Definition downgradeChain : gmap string string :=
  list_to_map
    [("Deep", "Standard"); ("Orchestrator", "Standard");
     ("Batch", "Standard"); ("Standard", "Simple")].

(** [chain[branch]] as a condition: a missing entry and the empty string
    are both falsy. *)
Definition next_branch (chain : gmap string string) (branch : option string)
  : option string :=
  match branch with
  | Some b => match chain !! b with
              | Some "" => None
              | o => o
              end
  | None => None
  end.

Record Context := {
  branch : option string;
  downgraded : bool;
  originalBranch : option string
}.

Section Executor.

(** The type of what the wrapped operation returns. *)
Variable R : Type.

Record Result := {
  success : bool;
  result : option R;
  error : option string;
  reason : option string;
  was_downgraded : bool;
  from : option string;
  to : option string;
  attempts : option nat;
  errorType : option string
}.

Definition failure (e : option string) (why : string) : Result :=
  {| success := false; result := None; error := e; reason := Some why;
     was_downgraded := false; from := None; to := None; attempts := None;
     errorType := None |}.

(** *** downgradeAndRetry

    The operation [fn] may answer differently each time it is invoked:
    it receives the number of earlier invocations.  The function returns
    the completion together with the branches under which [fn] was
    invoked, in order; [None] means that the fuel ran out. *)
Fixpoint downgradeAndRetry (fuel : nat) (chain : gmap string string)
    (fn : nat -> Context -> completion R) (calls : nat) (context : Context)
  : option (completion Result * list string) :=
  match fuel with
  | O => None
  | S fuel' =>
      let currentBranch := branch context in
      match next_branch chain currentBranch with
      | None =>
          Some (Returned
                  (failure (Some ("无法降级分支: " ++ default "undefined" currentBranch)%string)
                           "已到最低策略级别"),
                [])
      | Some downgradeTo =>
          let downgradedContext :=
            {| branch := Some downgradeTo; downgraded := true;
               originalBranch := currentBranch |} in
          match fn calls downgradedContext with
          | Returned r =>
              Some (Returned
                      {| success := true; result := Some r; error := None;
                         reason := None; was_downgraded := true;
                         from := currentBranch; to := Some downgradeTo;
                         attempts := None; errorType := None |},
                    [downgradeTo])
          | Thrown e =>
              match next_branch chain (Some downgradeTo) with
              | Some _ =>
                  match downgradeAndRetry fuel' chain fn (S calls) downgradedContext with
                  | Some (out, visited) => Some (out, downgradeTo :: visited)
                  | None => None
                  end
              | None => Some (Thrown e, [downgradeTo])
              end
          end
      end
  end.

(** *** execute

    [classifyError] matches the message against regular expressions; it
    is a parameter, like the list [this.retryableErrors]. *)
Variable classifyError : string -> string.
Variable retryableErrors : list string.

Definition isRetryable (errorType : string) : bool :=
  bool_decide (errorType ∈ retryableErrors).

(** [while (attempt <= this.maxRetries)]: [budget] is the number of
    rounds left, [maxRetries + 1] at the start for a [maxRetries] that
    is not negative, and none for a negative one (see [execute_with]). *)
Fixpoint execute_from (budget : nat) (maxRetries : nat) (fn : nat -> completion R)
    (attempt : nat) (lastError : option string) : Result :=
  match budget with
  | O =>
      {| success := false; result := None; error := lastError;
         reason := Some "未知错误"; was_downgraded := false; from := None;
         to := None; attempts := Some attempt; errorType := None |}
  | S budget' =>
      match fn attempt with
      | Returned r =>
          {| success := true; result := Some r; error := None; reason := None;
             was_downgraded := false; from := None; to := None;
             attempts := Some (S attempt); errorType := None |}
      | Thrown e =>
          let attempt' := S attempt in
          let errorType := classifyError e in
          if negb (isRetryable errorType) then
            {| success := false; result := None; error := Some e;
               reason := Some "不可重试的错误"; was_downgraded := false;
               from := None; to := None; attempts := Some attempt';
               errorType := Some errorType |}
          else if (maxRetries <? attempt')%nat then
            {| success := false; result := None; error := Some e;
               reason := Some "重试次数耗尽"; was_downgraded := false;
               from := None; to := None; attempts := Some attempt';
               errorType := Some errorType |}
          else execute_from budget' maxRetries fn attempt' (Some e)
      end
  end.

Definition execute (maxRetries : nat) (fn : nat -> completion R) : Result :=
  execute_from (S maxRetries) maxRetries fn 0%nat None.

(** [this.maxRetries = options.maxRetries || 5]: the constructor keeps
    every number but zero, also a negative one. *)
Definition maxRetries_of (option : option Z) : Z :=
  match option with
  | Some n => if n =? 0 then 5 else n
  | None => 5
  end.

(** [execute] with an integer [this.maxRetries]; when it is negative
    the loop is not entered. *)
Definition execute_with (maxRetries : Z) (fn : nat -> completion R) : Result :=
  execute_from (Z.to_nat (maxRetries + 1)) (Z.to_nat maxRetries) fn 0%nat None.

End Executor.

Arguments success {R} _.
Arguments result {R} _.
Arguments error {R} _.
Arguments reason {R} _.
Arguments attempts {R} _.
Arguments downgradeAndRetry {R} fuel chain fn calls context.
Arguments execute {R} classifyError retryableErrors maxRetries fn.
Arguments execute_with {R} classifyError retryableErrors maxRetries fn.

(** The five strategy tiers. *)
Definition tiers : list string := ["Simple"; "Standard"; "Batch"; "Orchestrator"; "Deep"].

(** A completion that is not a success. *)
Definition failed {R} (out : completion (Result R)) : bool :=
  match out with
  | Returned r => negb (success r)
  | Thrown _ => true
  end.

(** [visited] follows the chain from [start], one entry at a time. *)
Fixpoint follows_chain (chain : gmap string string) (start : string)
    (visited : list string) : Prop :=
  match visited with
  | [] => True
  | b :: rest => next_branch chain (Some start) = Some b /\ follows_chain chain b rest
  end.

Section Recovery.

Variable R : Type.
Variable classifyError : string -> string.
(** [this.maxRetries] and [this.enableDowngrade] *)
Variable maxRetries : nat.
Variable enableDowngrade : bool.

(** *** retryWithBackoff

    The delays only postpone the calls.  The operation receives the
    number of earlier invocations, the context and the value of
    [context.lastErrorType], which the loop overwrites after every
    failure; the final value is returned with the result. *)
Fixpoint retry_rounds (rounds : nat) (total : nat)
    (fn : nat -> Context -> option string -> completion R)
    (attempt : nat) (context : Context)
    (lastErrorType : option string) (lastError : option string)
  : Result R * option string :=
  match rounds with
  | O =>
      ({| success := false; result := None; error := lastError;
          reason := Some "重试次数耗尽"; was_downgraded := false; from := None;
          to := None; attempts := Some total; errorType := None |},
       lastErrorType)
  | S rounds' =>
      match fn (attempt - 1)%nat context lastErrorType with
      | Returned r =>
          ({| success := true; result := Some r; error := None; reason := None;
              was_downgraded := false; from := None; to := None;
              attempts := Some attempt; errorType := None |},
           lastErrorType)
      | Thrown e =>
          retry_rounds rounds' total fn (S attempt) context
            (Some (classifyError e)) (Some e)
      end
  end.

(** [options.maxRetries || this.maxRetries] *)
Definition retryWithBackoff (opt_maxRetries : option nat)
    (fn : nat -> Context -> option string -> completion R)
    (context : Context) (lastErrorType : option string)
  : Result R * option string :=
  let maxRetries := match opt_maxRetries with
                    | Some (S n) => S n
                    | _ => maxRetries
                    end in
  retry_rounds maxRetries maxRetries fn 1 context lastErrorType None.

(** *** handleErrorByType

    The [switch] has no [return] after the [RESOURCE] case when the
    downgrade is not taken: the function then returns [undefined],
    which is [Returned None].  The outer [None] means that
    [downgradeAndRetry] ran out of fuel. *)
Definition handleErrorByType (fuel : nat) (chain : gmap string string)
    (error : string) (errorType : string) (context : Context)
    (lastErrorType : option string)
    (fn : nat -> Context -> option string -> completion R)
  : option (completion (option (Result R))) :=
  if bool_decide (errorType ∈ ["TRANSIENT"; "TIMEOUT"; "NETWORK"]) then
    Some (Returned (Some (retryWithBackoff None fn context lastErrorType).1))
  else if decide (errorType = "RESOURCE") then
    if enableDowngrade
       && match branch context with Some "" | None => false | Some _ => true end
    then
      match downgradeAndRetry fuel chain (fun n c => fn n c lastErrorType) 0 context with
      | Some (Returned r, _) => Some (Returned (Some r))
      | Some (Thrown e, _) => Some (Thrown e)
      | None => None
      end
    else Some (Returned None)
  else if decide (errorType = "RATE_LIMIT") then
    Some (Returned (Some (retryWithBackoff None fn context lastErrorType).1))
  else if bool_decide (errorType ∈ ["LOGIC"; "INVALID_INPUT"]) then
    Some (Returned (Some
      {| success := false; result := None; error := Some error;
         reason := Some "逻辑错误，无法通过重试恢复"; was_downgraded := false;
         from := None; to := None; attempts := None;
         errorType := Some errorType |}))
  else
    Some (Returned (Some (retryWithBackoff None fn context lastErrorType).1)).

(** *** Checkpoints

    [this.checkpoints] is a [Map] from task id to the checkpoint. *)
Variable D : Type.

Record Checkpoint := {
  timestamp : Z;
  data : D;
  attempt : nat
}.

(** [(this.checkpoints.get(taskId)?.attempt || 0) + 1] *)
Definition saveCheckpoint (now : Z) (taskId : string) (d : D)
    (checkpoints : gmap string Checkpoint) : gmap string Checkpoint :=
  <[taskId := {| timestamp := now; data := d;
                 attempt := (match checkpoints !! taskId with
                             | Some c => attempt c
                             | None => 0
                             end + 1)%nat |}]> checkpoints.

Definition loadCheckpoint (taskId : string) (checkpoints : gmap string Checkpoint)
  : option Checkpoint := checkpoints !! taskId.

Definition clearCheckpoint (taskId : string) (checkpoints : gmap string Checkpoint)
  : gmap string Checkpoint := delete taskId checkpoints.

(** The object returned by [resumeFromCheckpoint]. *)
Record Resumed := {
  resume_success : bool;
  resume_result : option R;
  resume_error : option string;
  resumed : option bool;
  resume_attempts : option nat;
  resume_reason : option string
}.

(** The operation receives the context and [checkpoint.data]. *)
Definition resumeFromCheckpoint (taskId : string)
    (fn : Context -> D -> completion R) (context : Context)
    (checkpoints : gmap string Checkpoint) : Resumed * gmap string Checkpoint :=
  match loadCheckpoint taskId checkpoints with
  | None =>
      ({| resume_success := false; resume_result := None; resume_error := None;
          resumed := None; resume_attempts := None;
          resume_reason := Some "无检查点可恢复" |}, checkpoints)
  | Some checkpoint =>
      match fn context (data checkpoint) with
      | Returned r =>
          ({| resume_success := true; resume_result := Some r; resume_error := None;
              resumed := Some true; resume_attempts := Some (attempt checkpoint);
              resume_reason := None |},
           delete taskId checkpoints)
      | Thrown e =>
          ({| resume_success := false; resume_result := None; resume_error := Some e;
              resumed := Some true; resume_attempts := None;
              resume_reason := Some "从检查点恢复失败" |}, checkpoints)
      end
  end.

End Recovery.

Arguments timestamp {D} _.
Arguments data {D} _.
Arguments attempt {D} _.
Arguments resume_success {R} _.
Arguments resume_result {R} _.
Arguments resume_error {R} _.
Arguments resumed {R} _.
Arguments resume_attempts {R} _.
Arguments resume_reason {R} _.

End Retry.

(** ** agent-registry.js *)

Module Registry.

Inductive Status := healthy | busy | offline.

#[global] Instance Status_eq_dec : EqDecision Status.
Proof. solve_decision. Defined.

Record AgentMetadata := {
  kind : option string;
  costPerToken : option Q
}.

Record Agent := {
  agentId : string;
  name : string;
  capabilities : list string;
  maxConcurrent : Z;
  currentLoad : Z;
  status : Status;
  lastHeartbeat : Z;
  metadata : option AgentMetadata;
  avgExecutionTime : Q
}.

Definition with_load (a : Agent) (load : Z) (st : Status) : Agent :=
  {| agentId := agentId a; name := name a; capabilities := capabilities a;
     maxConcurrent := maxConcurrent a; currentLoad := load; status := st;
     lastHeartbeat := lastHeartbeat a; metadata := metadata a;
     avgExecutionTime := avgExecutionTime a |}.

(** [this.agents] is a [Map]: entries stay in insertion order and
    [set] on a present key replaces the value in place. *)
Fixpoint get (agents : list Agent) (i : string) : option Agent :=
  match agents with
  | [] => None
  | a :: rest => if decide (agentId a = i) then Some a else get rest i
  end.

Fixpoint set (agents : list Agent) (a : Agent) : list Agent :=
  match agents with
  | [] => [a]
  | b :: rest => if decide (agentId b = agentId a) then a :: rest else b :: set rest a
  end.

Record AgentInfo := {
  info_agentId : string;
  info_name : option string;
  info_capabilities : option (list string);
  info_maxConcurrent : option Z;
  info_metadata : option AgentMetadata
}.

(** [register]; the generated id of an anonymous agent is supplied by
    the caller in [info_agentId]. *)
Definition register (now : Z) (info : AgentInfo) (agents : list Agent) : list Agent :=
  set agents
    {| agentId := info_agentId info;
       name := default (info_agentId info) (info_name info);
       capabilities := default [] (info_capabilities info);
       maxConcurrent := match info_maxConcurrent info with
                        | Some 0 | None => 1
                        | Some n => n
                        end;
       currentLoad := 0;
       status := healthy;
       lastHeartbeat := now;
       metadata := Some (default {| kind := None; costPerToken := None |}
                                 (info_metadata info));
       avgExecutionTime := 0 |}.

Definition unregister (i : string) (agents : list Agent) : list Agent :=
  filter (fun a => agentId a ≠ i) agents.

(** [updateLoad(agentId, delta)] *)
Definition updated (a : Agent) (delta : Z) : Agent :=
  let load := Z.max 0 (currentLoad a + delta) in
  let st := if maxConcurrent a <=? load then busy
            else if decide (status a = busy) then healthy
            else status a in
  with_load a load st.

Definition updateLoad (i : string) (delta : Z) (agents : list Agent) : list Agent :=
  match get agents i with
  | Some a => set agents (updated a delta)
  | None => agents
  end.

(** One tick of the loop started by [startHealthCheck]. *)
Definition healthCheck (offlineThreshold now : Z) (agents : list Agent) : list Agent :=
  map (fun a =>
         if (offlineThreshold <? now - lastHeartbeat a)
         then if decide (status a = offline) then a else with_load a 0 offline
         else a) agents.

Definition heartbeat (now : Z) (i : string) (agents : list Agent) : list Agent :=
  match get agents i with
  | Some a =>
      set agents
        {| agentId := agentId a; name := name a; capabilities := capabilities a;
           maxConcurrent := maxConcurrent a; currentLoad := currentLoad a;
           status := if decide (status a = offline) then healthy else status a;
           lastHeartbeat := now; metadata := metadata a;
           avgExecutionTime := avgExecutionTime a |}
  | None => agents
  end.

(** *** Load ratios

    The code computes [currentLoad / maxConcurrent] as a binary64
    number.  [binary64_div a b] is that number for integers [0 <= a]
    and [0 < b] below [2 ^ 53]: the exact quotient, scaled by a power
    of two [2 ^ e]
    to a significand between [2 ^ 52] and [2 ^ 53], which is rounded to
    the nearest integer, a tie to the even one. *)
Definition round_half_even (n d : Z) : Z :=
  let k := n / d in
  let r := n mod d in
  if 2 * r <? d then k
  else if d <? 2 * r then k + 1
  else if Z.even k then k else k + 1.

(** The quotient [n / d] divided by [2 ^ e], as a fraction. *)
Definition scaled (n d e : Z) : Z * Z :=
  if 0 <=? e then (n, d * 2 ^ e) else (n * 2 ^ (- e), d).

Definition binary64_exponent (n d : Z) : Z :=
  let e := Z.log2 n - Z.log2 d - 53 in
  let '(N, D) := scaled n d (e + 1) in
  if 2 ^ 52 * D <=? N then e + 1 else e.

Definition binary64_div (a b : Z) : Q :=
  if a =? 0 then 0%Q
  else
    let q := Qred (a # Z.to_pos b) in
    let n := Qnum q in
    let d := Z.pos (Qden q) in
    let e := binary64_exponent n d in
    let '(N, D) := scaled n d e in
    (inject_Z (round_half_even N D) * Qpower 2 e)%Q.

(** Two different quotients of integers below [2 ^ 26] differ by more
    than the rounding error of the division, so that the doubles
    compare as the exact quotients do (see [binary64_div_lt] and
    [binary64_div_le]).  [ratio_lt] and [ratio_le] compare the
    exact quotients by cross multiplication: they are the code's
    comparisons for agents [in_exact_range]. *)
Definition in_exact_range (a : Agent) : Prop :=
  0 <= currentLoad a < 2 ^ 26 /\ 0 < maxConcurrent a < 2 ^ 26.

Definition ratio_lt (a b : Agent) : bool :=
  currentLoad a * maxConcurrent b <? currentLoad b * maxConcurrent a.

Definition ratio_le (a b : Agent) : bool :=
  currentLoad a * maxConcurrent b <=? currentLoad b * maxConcurrent a.

(** The comparator of [discover]: healthy agents first, then by load
    ratio. [before a b] holds when [a] need not move behind [b]. *)
Definition before (a b : Agent) : bool :=
  match decide (status a = healthy), decide (status b = healthy) with
  | left _, right _ => true
  | right _, left _ => false
  | _, _ => ratio_le a b
  end.

Fixpoint insert_sorted (x : Agent) (l : list Agent) : list Agent :=
  match l with
  | [] => [x]
  | y :: l' => if before y x then y :: insert_sorted x l' else x :: y :: l'
  end.

Definition sort_candidates (l : list Agent) : list Agent :=
  foldl (fun acc x => insert_sorted x acc) [] l.

Record Requirements := {
  req_capabilities : list string;
  minAvailable : Z;
  excludeIds : list string;
  preferHealthy : bool
}.

Definition eligible (req : Requirements) (a : Agent) : bool :=
  negb (bool_decide (agentId a ∈ excludeIds req))
  && negb (bool_decide (status a = offline))
  && forallb (fun c => bool_decide (c ∈ capabilities a)) (req_capabilities req)
  && (minAvailable req <=? maxConcurrent a - currentLoad a).

Definition discover (req : Requirements) (agents : list Agent) : list Agent :=
  let candidates := List.filter (eligible req) agents in
  if preferHealthy req then sort_candidates candidates else candidates.

Definition getAgent (i : string) (agents : list Agent) : option Agent := get agents i.

Definition getAllAgents (agents : list Agent) : list Agent := agents.

(** The object returned by [getStats]. *)
Record RegistryStats := {
  stat_total : nat;
  stat_healthy : nat;
  stat_busy : nat;
  stat_offline : nat;
  totalLoad : Z;
  totalCapacity : Z
}.

Definition getStats (agents : list Agent) : RegistryStats :=
  let agents := getAllAgents agents in
  {| stat_total := length agents;
     stat_healthy := length (List.filter (fun a => bool_decide (status a = healthy)) agents);
     stat_busy := length (List.filter (fun a => bool_decide (status a = busy)) agents);
     stat_offline := length (List.filter (fun a => bool_decide (status a = offline)) agents);
     totalLoad := foldl (fun sum a => sum + currentLoad a) 0 agents;
     totalCapacity := foldl (fun sum a => sum + maxConcurrent a) 0 agents |}.

End Registry.

(** ** agent-router.js *)

Module Router.

Import Registry.

Definition CAPABILITY_MATCH : string := "capability_match".
Definition LOAD_BALANCE : string := "load_balance".
Definition COST_OPTIMIZE : string := "cost_optimize".
Definition PERFORMANCE : string := "performance".
Definition ROUND_ROBIN : string := "round_robin".

(** The object returned by [route]; [routeSubtasks] adds [subtask]. *)
Record Route := {
  subtaskId : string;
  agentId : string;
  agentName : string;
  strategy : string;
  assignedAt : Z;
  estimatedDuration : option Z;
  isFallback : option bool;
  subtask : option Decomposer.Subtask
}.

(** The router: its registry, [roundRobinIndex] and [fallbackEnabled]. *)
Record State := {
  agents : list Agent;
  roundRobinIndex : nat;
  fallbackEnabled : bool
}.

Definition with_agents (s : State) (l : list Agent) : State :=
  {| agents := l; roundRobinIndex := roundRobinIndex s;
     fallbackEnabled := fallbackEnabled s |}.

Record Options := {
  opt_strategy : option string;
  excludeAgents : list string;
  opt_isFallback : bool
}.

(** [selectByCapability]: the score is [matched / required]; all scores
    share the denominator, and with no required capability every score
    is [NaN], which the sort treats as a tie. *)
Definition matched (required : list string) (a : Agent) : nat :=
  length (List.filter (fun c => bool_decide (c ∈ capabilities a)) required).

Fixpoint insert_scored (required : list string) (x : Agent) (l : list Agent) : list Agent :=
  match l with
  | [] => [x]
  | y :: l' =>
      if (matched required x <=? matched required y)%nat || bool_decide (required = [])
      then y :: insert_scored required x l'
      else x :: y :: l'
  end.

Definition selectByCapability (candidates : list Agent) (st : Decomposer.Subtask)
  : option Agent :=
  let requiredCaps := default [] (Decomposer.requiredCapabilities st) in
  head (foldl (fun acc x => insert_scored requiredCaps x acc) [] candidates).

(** [candidates.reduce((best, current) => ...)] *)
Definition reduce_best (better : Agent -> Agent -> bool) (candidates : list Agent)
  : option Agent :=
  match candidates with
  | [] => None
  | first :: rest =>
      Some (foldl (fun best current => if better current best then current else best)
                  first rest)
  end.

Definition selectByLoadBalance (candidates : list Agent) : option Agent :=
  reduce_best ratio_lt candidates.

(** [metadata?.costPerToken || 1] *)
Definition cost_of (a : Agent) : Q :=
  match metadata a with
  | Some m => match costPerToken m with
              | Some c => if Qeq_bool c 0 then 1%Q else c
              | None => 1%Q
              end
  | None => 1%Q
  end.

Definition Qlt_bool (x y : Q) : bool := negb (Qle_bool y x).

Definition selectByCost (candidates : list Agent) : option Agent :=
  reduce_best (fun current best => Qlt_bool (cost_of current) (cost_of best)) candidates.

(** [stats?.avgExecutionTime || Infinity]: [None] is [Infinity]. *)
Definition time_of (a : Agent) : option Q :=
  if Qeq_bool (avgExecutionTime a) 0 then None else Some (avgExecutionTime a).

Definition time_lt (x y : option Q) : bool :=
  match x, y with
  | Some a, Some b => Qlt_bool a b
  | Some _, None => true
  | None, _ => false
  end.

Definition selectByPerformance (candidates : list Agent) : option Agent :=
  reduce_best (fun current best => time_lt (time_of current) (time_of best)) candidates.

Definition selectByRoundRobin (s : State) (candidates : list Agent)
  : option Agent * State :=
  let index := (roundRobinIndex s mod length candidates)%nat in
  (candidates !! index,
   {| agents := agents s; roundRobinIndex := S (roundRobinIndex s);
      fallbackEnabled := fallbackEnabled s |}).

Definition selectAgent (s : State) (candidates : list Agent)
    (st : Decomposer.Subtask) (strat : string) : option Agent * State :=
  if decide (strat = CAPABILITY_MATCH) then (selectByCapability candidates st, s)
  else if decide (strat = LOAD_BALANCE) then (selectByLoadBalance candidates, s)
  else if decide (strat = COST_OPTIMIZE) then (selectByCost candidates, s)
  else if decide (strat = PERFORMANCE) then (selectByPerformance candidates, s)
  else if decide (strat = ROUND_ROBIN) then selectByRoundRobin s candidates
  else (head candidates, s).

Section Route.

(** [this.strategy] and [Date.now()] *)
Variable default_strategy : string.
Variable now : Z.

(** The body of [route] once candidates were found. *)
Definition assign (s : State) (candidates : list Agent) (st : Decomposer.Subtask)
    (strat : string) : completion Route * State :=
  match selectAgent s candidates st strat with
  | (Some selectedAgent, s1) =>
      (Returned
         {| subtaskId := Decomposer.id st;
            agentId := Registry.agentId selectedAgent;
            agentName := name selectedAgent;
            strategy := strat;
            assignedAt := now;
            estimatedDuration :=
              Some match Decomposer.estimatedDuration st with
                   | Some 0 | None => 60000
                   | Some d => d
                   end;
            isFallback := None;
            subtask := None |},
       with_agents s1 (updateLoad (Registry.agentId selectedAgent) 1 (agents s1)))
  | (None, s1) => (Thrown "无法选择合适的 Agent", s1)
  end.

Definition candidates_for (s : State) (st : Decomposer.Subtask) (exclude : list string)
  : list Agent :=
  discover {| req_capabilities := default [] (Decomposer.requiredCapabilities st);
              minAvailable := 1; excludeIds := exclude; preferHealthy := true |}
           (agents s).

(** [route] called with [isFallback: true]: the fallback branch is
    closed, so finding no candidate throws. *)
Definition route_no_fallback (s : State) (st : Decomposer.Subtask)
    (strat : string) (exclude : list string) : completion Route * State :=
  match candidates_for s st exclude with
  | [] => (Thrown "没有可用的 Agent 处理该子任务", s)
  | candidates => assign s candidates st strat
  end.

(** [fallbackRoute]: the nested [route] runs with [isFallback: true],
    the load-balance strategy and an empty exclusion list. *)
Definition fallbackRoute (s : State) (st : Decomposer.Subtask)
  : completion Route * State :=
  let relaxedSubtask :=
    {| Decomposer.id := Decomposer.id st;
       Decomposer.task := Decomposer.task st;
       Decomposer.dependsOn := Decomposer.dependsOn st;
       Decomposer.estimatedDuration := Decomposer.estimatedDuration st;
       Decomposer.requiredCapabilities :=
         Some match Decomposer.requiredCapabilities st with
              | Some caps => take 1 caps
              | None => ["read"]
              end;
       Decomposer.type := Decomposer.type st |} in
  match route_no_fallback s relaxedSubtask LOAD_BALANCE [] with
  | (Returned r, s1) => (Returned r, s1)
  | (Thrown _, s1) =>
      match head (getAllAgents (agents s1)) with
      | Some defaultAgent =>
          (Returned
             {| subtaskId := Decomposer.id st;
                agentId := Registry.agentId defaultAgent;
                agentName := name defaultAgent;
                strategy := "fallback_default";
                assignedAt := now;
                estimatedDuration := None;
                isFallback := Some true;
                subtask := None |},
           with_agents s1 (updateLoad (Registry.agentId defaultAgent) 1 (agents s1)))
      | None => (Thrown "降级路由也失败，没有可用 Agent", s1)
      end
  end.

Definition route (s : State) (st : Decomposer.Subtask) (options : Options)
  : completion Route * State :=
  let strat := default default_strategy (opt_strategy options) in
  match candidates_for s st (excludeAgents options) with
  | [] =>
      if fallbackEnabled s && negb (opt_isFallback options)
      then fallbackRoute s st
      else (Thrown "没有可用的 Agent 处理该子任务", s)
  | candidates => assign s candidates st strat
  end.

(** [reRoute(failedRoute)] *)
Definition reRoute (s : State) (failedRoute : Route) : completion Route * State :=
  let s1 := with_agents s (updateLoad (agentId failedRoute) (-1) (agents s)) in
  match subtask failedRoute with
  | Some st =>
      route s1 st {| opt_strategy := Some LOAD_BALANCE;
                     excludeAgents := [agentId failedRoute];
                     opt_isFallback := false |}
  | None => (Thrown "TypeError: Cannot read properties of undefined", s1)
  end.

End Route.

Section Batch.

Variable default_strategy : string.
Variable now : Z.

(** An element of the array returned by [routeBatch]: the route with
    [success: true], or the subtask id and the message of the error. *)
Record BatchEntry := {
  batch_success : bool;
  batch_subtaskId : string;
  batch_route : option Route;
  batch_error : option string
}.

(** [routeBatch]: the loop awaits each [route] before the next one. *)
Fixpoint routeBatch (s : State) (subtasks : list Decomposer.Subtask) (options : Options)
  : list BatchEntry * State :=
  match subtasks with
  | [] => ([], s)
  | st :: rest =>
      match route default_strategy now s st options with
      | (Returned r, s1) =>
          let '(routes, s2) := routeBatch s1 rest options in
          ({| batch_success := true; batch_subtaskId := subtaskId r;
              batch_route := Some r; batch_error := None |} :: routes, s2)
      | (Thrown e, s1) =>
          let '(routes, s2) := routeBatch s1 rest options in
          ({| batch_success := false; batch_subtaskId := Decomposer.id st;
              batch_route := None; batch_error := Some e |} :: routes, s2)
      end
  end.

(** [routeDAG].  The callback mapped over [executable]: a route that
    is found is stored and its subtask leaves [pending]; an error is
    swallowed.  The callbacks are taken one after the other. *)
Definition route_pending
    (acc : gmap string Route * gset string * State) (st : Decomposer.Subtask)
  : gmap string Route * gset string * State :=
  let '(routes, pending, s) := acc in
  match route default_strategy now s st
          {| opt_strategy := None; excludeAgents := []; opt_isFallback := false |} with
  | (Returned r, s1) => (<[Decomposer.id st := r]> routes, pending ∖ {[Decomposer.id st]}, s1)
  | (Thrown _, s1) => (routes, pending, s1)
  end.

(** The [while (pending.size > 0)] loop; nothing is ever added to
    [completed].  [None] means that the fuel ran out. *)
Fixpoint routeDAG_loop (fuel : nat) (dag : Decomposer.DAG)
    (routes : gmap string Route) (completed pending : gset string) (s : State)
  : option (completion (gmap string Route) * State) :=
  match fuel with
  | O => None
  | S fuel' =>
      if decide (pending = ∅) then Some (Returned routes, s)
      else
        let executable :=
          List.filter
            (fun st =>
               if bool_decide (Decomposer.id st ∈ completed)
                  || bool_decide (is_Some (routes !! Decomposer.id st))
               then false
               else forallb (fun depId => bool_decide (depId ∈ completed))
                            (Decomposer.dependsOn st))
            (Decomposer.subtasks dag) in
        match executable with
        | [] => Some (Thrown "DAG 执行死锁，无法继续", s)
        | _ :: _ =>
            let '(routes1, pending1, s1) :=
              foldl route_pending (routes, pending, s) executable in
            routeDAG_loop fuel' dag routes1 completed pending1 s1
        end
  end.

Definition routeDAG (fuel : nat) (dag : Decomposer.DAG) (s : State)
  : option (completion (gmap string Route) * State) :=
  routeDAG_loop fuel dag ∅ ∅
    (list_to_set (map Decomposer.id (Decomposer.subtasks dag))) s.

End Batch.

End Router.

(** ** scheduler.js: the task classifier *)

Module Classifier.

Inductive keyword := BatchKeyword | DeepKeyword | OrchestratorKeyword.

Record Classification := {
  branch : string;
  confidence : Q;
  reason : string
}.

Section FastRules.

(** [task.length], [task.split(/\s+/).length], [task.includes(...)] and
    [/.../.test(task)] for the three keyword patterns *)
Variable js_length : string -> Z.
Variable js_wordCount : string -> Z.
Variable includes : string -> string -> bool.
Variable re_test : keyword -> string -> bool.
(** The branch that the history of similar tasks suggests, if any. *)
Variable similar : string -> option Classification.

Definition fastRules (task : string) : Classification :=
  let length := js_length task in
  let wordCount := js_wordCount task in
  let hasAttachment := includes task "[文件]" || includes task "[附件]" in
  let hasBatchKeyword := re_test BatchKeyword task in
  let hasDeepKeyword := re_test DeepKeyword task in
  let hasOrchestratorKeyword := re_test OrchestratorKeyword task in
  if hasDeepKeyword && (100 <? length)
  then {| branch := "Deep"; confidence := 8 # 10; reason := "深度分析任务" |}
  else if hasOrchestratorKeyword
  then {| branch := "Orchestrator"; confidence := 7 # 10; reason := "多阶段流程任务" |}
  else if hasBatchKeyword || includes task "10个" || includes task "20个"
  then {| branch := "Batch"; confidence := 75 # 100; reason := "批量处理任务" |}
  else if (length <? 100) && negb hasAttachment && (wordCount <? 20)
  then {| branch := "Simple"; confidence := 85 # 100; reason := "短文本简单任务" |}
  else {| branch := "Standard"; confidence := 6 # 10; reason := "默认标准任务" |}.

(** [classifyTask(task, db)]: the history is consulted only when the
    rules report a confidence below 0.6. *)
Definition classifyTask (task : string) : Classification :=
  let result := fastRules task in
  if Qle_bool (6 # 10) (confidence result) then result
  else default result (similar task).

End FastRules.

End Classifier.

(** ** index.js: SubagentScheduler *)

Module Scheduler.

Import Aggregator.

(** The object returned by [execute], [executeSingle] and
    [executeSimple]. *)
Record TaskResult := {
  success : bool;
  branch : option string;
  result : option value;
  error : option string;
  errorType : option string;
  attempts : option nat
}.

(** *** executeSingle

    [this.concurrencyController] is one of the two controllers.  The
    local one has no [waitForSlot] method. *)
Inductive Controller :=
| LocalController (slots : gmap string (gset string))
| RedisController (db : gmap string (gset string)).

Definition holders (c : Controller) (branch : string) : gset string :=
  match c with
  | LocalController s => default ∅ (s !! branch)
  | RedisController db => default ∅ (db !! (Concurrency.Redis.prefix ++ branch)%string)
  end.

Inductive Action := proceed | downgrade | cancel.

(** What the collaborators of one [executeSingle] call answer: the
    classifier, the cost monitor ([budgetCheck.allowed] and
    [budgetCheck.reasons]), the confirmation gate, the message channel
    (sending the progress message and starting its updater), the task
    configuration, the sub-agent, the cron manager and the history
    store.  [None] for [chatId] or [toolExecutor] means that the option
    is not set. *)
Record World := {
  classifyTask : completion string;
  checkBudget : completion bool;
  budgetReasons : list string;
  chatId : option string;
  confirmation_enabled : bool;
  sendTextConfirm : completion Action;
  buildTaskConfig : string -> completion unit;
  sendMessage : completion unit;
  toolExecutor : option (nat -> completion value);
  stopUpdater : completion unit;
  insertTaskHistory : completion unit;
  updateMessage : completion unit;
  insertFailureHistory : completion unit
}.

Section Single.

(** Polls that fit into the 30 s timeout of [waitForSlot], and what
    other tasks do to the store while a caller sleeps between polls. *)
Variable polls : nat.
Variable others : gmap string (gset string) -> gmap string (gset string).
(** The retry executor's configuration. *)
Variable classifyError : string -> string.
Variable retryableErrors : list string.
Variable maxRetries : nat.

Fixpoint redis_waitForSlot (n : nat) (branch taskId : string)
    (db : gmap string (gset string)) : completion unit * gmap string (gset string) :=
  match n with
  | O => (Thrown ("等待" ++ branch ++ "槽位超时")%string, db)
  | S n' =>
      let '(db1, acquired) := Concurrency.Redis.acquireSlot branch taskId db in
      if acquired then (Returned tt, db1)
      else redis_waitForSlot n' branch taskId (others db1)
  end.

Definition waitForSlot (c : Controller) (branch taskId : string)
  : completion unit * Controller :=
  match c with
  | LocalController s =>
      (Thrown "TypeError: this.concurrencyController.waitForSlot is not a function", c)
  | RedisController db =>
      let '(r, db1) := redis_waitForSlot polls branch taskId db in
      (r, RedisController db1)
  end.

Definition releaseSlot (c : Controller) (branch taskId : string) : Controller :=
  match c with
  | LocalController s => LocalController (Concurrency.Local.releaseSlot branch taskId s)
  | RedisController db => RedisController (Concurrency.Redis.releaseSlot branch taskId db)
  end.

Definition executeSimple : TaskResult :=
  {| success := true; branch := Some "Simple"; result := Some (VStr "直接执行完成");
     error := None; errorType := None; attempts := None |}.

Definition simulateExecution : Retry.Result value :=
  {| Retry.success := true; Retry.result := Some (VStr "模拟执行结果");
     Retry.error := None; Retry.reason := None; Retry.was_downgraded := false;
     Retry.from := None; Retry.to := None; Retry.attempts := Some 1%nat;
     Retry.errorType := None |}.

(** The [catch] block of [executeSingle]: it records the failure and
    returns an error result; an exception of the history store leaves the
    function. *)
Definition on_error (w : World) (e : string) : completion TaskResult :=
  match insertFailureHistory w with
  | Returned _ =>
      Returned {| success := false; branch := None; result := None;
                  error := Some e; errorType := Some "EXECUTION_ERROR";
                  attempts := None |}
  | Thrown e' => Thrown e'
  end.

(** Steps 6 to 12, after the slot was acquired. *)
Definition run_with_slot (w : World) (c : Controller) (branch taskId : string)
  : completion TaskResult * Controller :=
  match buildTaskConfig w branch with
  | Thrown e => (on_error w e, c)
  | Returned _ =>
      match (match chatId w with Some _ => sendMessage w | None => Returned tt end) with
      | Thrown e => (on_error w e, c)
      | Returned _ =>
          let executionResult :=
            match toolExecutor w with
            | Some spawn => Retry.execute classifyError retryableErrors maxRetries spawn
            | None => simulateExecution
            end in
          match stopUpdater w with
          | Thrown e => (on_error w e, c)
          | Returned _ =>
              let c1 := releaseSlot c branch taskId in
              match insertTaskHistory w with
              | Thrown e => (on_error w e, c1)
              | Returned _ =>
                  match (match chatId w with
                         | Some _ => updateMessage w
                         | None => Returned tt
                         end) with
                  | Thrown e => (on_error w e, c1)
                  | Returned _ =>
                      (Returned
                         {| success := Retry.success executionResult;
                            branch := Some branch;
                            result := Retry.result executionResult;
                            error := Retry.error executionResult;
                            errorType := None;
                            attempts := Some (match Retry.attempts executionResult with
                                              | Some (S n) => S n
                                              | _ => 1%nat
                                              end) |},
                       c1)
                  end
              end
          end
      end
  end.

Definition executeSingle (w : World) (c : Controller)
    (forceBranch : option string) (taskId : string)
  : completion TaskResult * Controller :=
  match classifyTask w with
  | Thrown e => (on_error w e, c)
  | Returned classified =>
      let branch := match forceBranch with
                    | Some "" | None => classified
                    | Some b => b
                    end in
      if decide (branch = "Simple") then (Returned executeSimple, c)
      else
        match checkBudget w with
        | Thrown e => (on_error w e, c)
        | Returned false =>
            (Returned {| success := false; branch := None; result := None;
                         error := Some ("预算检查失败: "
                                        ++ String.concat ", " (budgetReasons w))%string;
                         errorType := Some "BUDGET_EXCEEDED"; attempts := None |}, c)
        | Returned true =>
            let confirmed :=
              match chatId w with
              | Some _ => if confirmation_enabled w then sendTextConfirm w
                          else Returned proceed
              | None => Returned proceed
              end in
            match confirmed with
            | Thrown e => (on_error w e, c)
            | Returned cancel =>
                (Returned {| success := false; branch := None; result := None;
                             error := Some "用户取消";
                             errorType := Some "USER_CANCELLED"; attempts := None |}, c)
            | Returned downgrade => (Returned executeSimple, c)
            | Returned proceed =>
                match waitForSlot c branch taskId with
                | (Thrown e, c1) => (on_error w e, c1)
                | (Returned _, c1) => run_with_slot w c1 branch taskId
                end
            end
        end
  end.

End Single.

(** *** executeDAG, for given executions

    The subtasks of one parallel group are run one after the other, each
    to its end: the schedule in which every execution settles before the
    next one starts. *)
Record ExecutionResult := {
  er_subtaskId : string;
  er_result : option value;
  er_success : bool;
  er_agentId : string;
  er_agentName : string
}.

(** The fields of an execution result that the aggregator reads. *)
Definition entry_of (r : ExecutionResult) : Entry :=
  {| subtaskId := Some (er_subtaskId r);
     Aggregator.result := default VUndefined (er_result r);
     metadata := None |}.

Record MultiResult := {
  m_success : bool;
  m_strategy : string;
  m_subtaskCount : option Z;
  m_result : option value;
  m_parallelGroups : nat
}.

Section Multi.

(** The router's configuration. *)
Variable default_strategy : string.
Variable now : Z.
(** What the execution of a subtask comes to: the attempt (0 for the
    first route, 1 after a re-route), the subtask and the branch chosen
    for the agent.  [MultiAgent] below has the scheduler's own
    [execute] in this place. *)
Variable execute : nat -> Decomposer.Subtask -> string -> completion TaskResult.
(** [options.retry !== false] *)
Variable retry : bool.

Definition find_subtask (dag : Decomposer.DAG) (i : string) : option Decomposer.Subtask :=
  List.find (fun st => bool_decide (Decomposer.id st = i)) (Decomposer.subtasks dag).

Definition deps_done (completed : gset string) (st : Decomposer.Subtask) : bool :=
  forallb (fun d => bool_decide (d ∈ completed)) (Decomposer.dependsOn st).

(** [routeSubtasks] *)
Definition route_one (acc : gmap string Router.Route * Router.State)
    (st : Decomposer.Subtask) : gmap string Router.Route * Router.State :=
  let '(routes, s) := acc in
  match Router.route default_strategy now s st
          {| Router.opt_strategy := Some Router.CAPABILITY_MATCH;
             Router.excludeAgents := []; Router.opt_isFallback := false |} with
  | (Returned r, s1) =>
      (<[Decomposer.id st :=
           {| Router.subtaskId := Router.subtaskId r;
              Router.agentId := Router.agentId r;
              Router.agentName := Router.agentName r;
              Router.strategy := Router.strategy r;
              Router.assignedAt := Router.assignedAt r;
              Router.estimatedDuration := Router.estimatedDuration r;
              Router.isFallback := Router.isFallback r;
              Router.subtask := Some st |}]> routes, s1)
  | (Thrown _, s1) => (routes, s1)
  end.

Fixpoint route_groups (dag : Decomposer.DAG) (groups : list (list string))
    (routes : gmap string Router.Route) (completed : gset string) (s : Router.State)
  : gmap string Router.Route * Router.State :=
  match groups with
  | [] => (routes, s)
  | _ :: rest =>
      let executable :=
        List.filter (fun st => negb (bool_decide (is_Some (routes !! Decomposer.id st)))
                               && deps_done completed st)
                    (Decomposer.subtasks dag) in
      let '(routes1, s1) := foldl route_one (routes, s) executable in
      route_groups dag rest routes1
        (list_to_set (map Decomposer.id executable) ∪ completed) s1
  end.

Definition routeSubtasks (dag : Decomposer.DAG) (s : Router.State)
  : gmap string Router.Route * Router.State :=
  route_groups dag (Decomposer.parallelGroups dag) ∅ ∅ s.

(** [executeSubtask] *)
Definition executeSubtask (s : Router.State) (attempt : nat) (route : Router.Route)
    (st : Decomposer.Subtask) : completion ExecutionResult :=
  match Registry.getAgent (Router.agentId route) (Router.agents s) with
  | None => Thrown "TypeError: Cannot read properties of undefined"
  | Some agent =>
      let kind := match Registry.metadata agent with
                  | Some m => Registry.kind m
                  | None => None
                  end in
      let branch := if decide (kind = Some "deep") then "Deep"
                    else if decide (kind = Some "simple") then "Simple"
                    else "Standard" in
      match execute attempt st branch with
      | Returned r =>
          Returned {| er_subtaskId := Decomposer.id st;
                      er_result := result r;
                      er_success := success r;
                      er_agentId := Router.agentId route;
                      er_agentName := Registry.name agent |}
      | Thrown e => Thrown e
      end
  end.

(** The state of [executeDAG]: the router with its registry, the
    [results] map and the [completed] set. *)
Record Run := {
  router : Router.State;
  results : gmap string ExecutionResult;
  completed : gset string
}.

(** The body of the function mapped over [executable]. *)
Definition execute_one (routes : gmap string Router.Route) (dag : Decomposer.DAG)
    (run : Run) (i : string) : Run :=
  match routes !! i, find_subtask dag i with
  | Some route, Some st =>
      match executeSubtask (router run) 0 route st with
      | Returned r =>
          {| results := <[i := r]> (results run);
             completed := {[i]} ∪ completed run;
             router := Router.with_agents (router run)
                         (Registry.updateLoad (Router.agentId route) (-1)
                            (Router.agents (router run))) |}
      | Thrown _ =>
          if retry then
            match Router.reRoute default_strategy now (router run) route with
            | (Returned newRoute, s1) =>
                match executeSubtask s1 1 newRoute st with
                | Returned r =>
                    {| results := <[i := r]> (results run);
                       completed := {[i]} ∪ completed run;
                       router := s1 |}
                | Thrown _ =>
                    {| results := results run; completed := completed run;
                       router := s1 |}
                end
            | (Thrown _, s1) =>
                {| results := results run; completed := completed run; router := s1 |}
            end
          else run
      end
  | _, _ => run
  end.

Definition executable_of (routes : gmap string Router.Route) (dag : Decomposer.DAG)
    (done : gset string) (group : list string) : list string :=
  List.filter (fun i =>
    match routes !! i, find_subtask dag i with
    | Some _, Some st => deps_done done st
    | _, _ => false
    end) group.

Definition executeDAG (dag : Decomposer.DAG) (routes : gmap string Router.Route)
    (s : Router.State) : Run :=
  foldl (fun run group =>
           foldl (execute_one routes dag) run
                 (executable_of routes dag (completed run) group))
        {| router := s; results := ∅; completed := ∅ |}
        (Decomposer.parallelGroups dag).

End Multi.

(** [shouldUseMultiAgent]; [analyzeComplexity] is the decomposer's. *)
Definition shouldUseMultiAgent (analyzeComplexity : string -> Decomposer.Indicators)
    (task : string) : bool :=
  let analysis := analyzeComplexity task in
  Decomposer.shouldDecompose analysis && (2 <? Decomposer.estimatedSubtasks analysis).

End Scheduler.

(** ** index.js: execute and the multi-agent path

    [executeSubtask] hands the text of a subtask to the scheduler's own
    [execute], which decides again between the multi-agent path and
    [executeSingle].  The functions below are the ones of the code;
    [Scheduler.executeDAG] above is the same loop for given outcomes of
    the executions.  As there, the subtasks of one parallel group are
    run one after the other, each to its end; for a DAG whose groups
    hold one subtask each, as the step, analysis and generic templates
    make them, this is the order of the code. *)

Module MultiAgent.

Import Aggregator Scheduler.

(** What [execute] returns: the object of [executeSingle] or the one of
    [executeMultiAgent]; [executeSubtask] reads [.success] and
    [.result] of either. *)
Inductive Outcome :=
| Single (r : TaskResult)
| Multi (m : MultiResult).

Definition outcome_success (o : Outcome) : bool :=
  match o with
  | Single r => Scheduler.success r
  | Multi m => m_success m
  end.

Definition outcome_result (o : Outcome) : option value :=
  match o with
  | Single r => Scheduler.result r
  | Multi m => m_result m
  end.

(** The options of [execute] that the two paths read:
    [options.multiAgent !== false], [options.forceBranch],
    [options.toolExecutor] and [options.retry !== false]. *)
Record ExecuteOptions := {
  opt_multiAgent : bool;
  opt_forceBranch : option string;
  opt_toolExecutor : option (nat -> completion value);
  opt_retry : bool
}.

(** [executeSubtask] calls [this.execute] with one argument: the branch
    chosen for the agent and the caller's options go into [taskInput],
    where only [task] is read, and [options] is the empty default.  The
    caller's options are taken not to hold a [task] of their own, which
    would replace the text of every subtask. *)
Definition no_options : ExecuteOptions :=
  {| opt_multiAgent := true; opt_forceBranch := None; opt_toolExecutor := None;
     opt_retry := true |}.

(** The parts of the scheduler that change: the registry and the router,
    the concurrency controller, and the number of [executeSingle] calls
    made so far. *)
Record State := {
  agentRouter : Router.State;
  concurrencyController : Controller;
  calls : nat
}.

Definition with_router (s : State) (r : Router.State) : State :=
  {| agentRouter := r; concurrencyController := concurrencyController s;
     calls := calls s |}.

(** The state of [executeDAG]: the scheduler, the [results] map and the
    [completed] set. *)
Record Run := {
  state : State;
  results : gmap string ExecutionResult;
  completed : gset string
}.

Section Engine.

(** The router's configuration. *)
Variable default_strategy : string.
Variable now : Z.
(** [this.taskDecomposer.decompose] and
    [this.resultAggregator.aggregateByDAG]. *)
Variable decompose : string -> option Decomposer.DAG.
Variable aggregateByDAG :
  list (list string) -> gmap string Entry -> completion Aggregated.
(** [this.execute] for a subtask text; [None] when the run does not
    end within the nesting allowed. *)
Variable execute : string -> State -> option (completion Outcome * State).
(** [options.retry !== false] *)
Variable retry : bool.

(** [executeSubtask]; [agent.name] of a missing agent throws. *)
Definition executeSubtask (route : Router.Route) (st : Decomposer.Subtask) (s : State)
  : option (completion ExecutionResult * State) :=
  match Registry.getAgent (Router.agentId route) (Router.agents (agentRouter s)) with
  | None => Some (Thrown "TypeError: Cannot read properties of undefined", s)
  | Some agent =>
      match execute (Decomposer.task st) s with
      | None => None
      | Some (Returned r, s1) =>
          Some (Returned {| er_subtaskId := Decomposer.id st;
                            er_result := outcome_result r;
                            er_success := outcome_success r;
                            er_agentId := Router.agentId route;
                            er_agentName := Registry.name agent |},
                s1)
      | Some (Thrown e, s1) => Some (Thrown e, s1)
      end
  end.

Definition record_result (run : Run) (i : string) (r : ExecutionResult) (s : State)
  : Run :=
  {| state := s; results := <[i := r]> (results run);
     completed := {[i]} ∪ completed run |}.

Definition unresolved (run : Run) (s : State) : Run :=
  {| state := s; results := results run; completed := completed run |}.

(** The body of the function mapped over [executable]. *)
Definition execute_one (routes : gmap string Router.Route) (dag : Decomposer.DAG)
    (run : Run) (i : string) : option Run :=
  match routes !! i, find_subtask dag i with
  | Some route, Some st =>
      match executeSubtask route st (state run) with
      | None => None
      | Some (Returned r, s1) =>
          Some (record_result run i r
                  (with_router s1
                     (Router.with_agents (agentRouter s1)
                        (Registry.updateLoad (Router.agentId route) (-1)
                           (Router.agents (agentRouter s1))))))
      | Some (Thrown _, s1) =>
          if retry then
            match Router.reRoute default_strategy now (agentRouter s1) route with
            | (Returned newRoute, r2) =>
                match executeSubtask newRoute st (with_router s1 r2) with
                | None => None
                | Some (Returned r, s3) => Some (record_result run i r s3)
                | Some (Thrown _, s3) => Some (unresolved run s3)
                end
            | (Thrown _, r2) => Some (unresolved run (with_router s1 r2))
            end
          else Some (unresolved run s1)
      end
  | _, _ => Some run
  end.

(** The subtasks of a group, one after the other. *)
Fixpoint execute_group (routes : gmap string Router.Route) (dag : Decomposer.DAG)
    (run : Run) (executable : list string) : option Run :=
  match executable with
  | [] => Some run
  | i :: rest =>
      match execute_one routes dag run i with
      | Some run1 => execute_group routes dag run1 rest
      | None => None
      end
  end.

Fixpoint execute_groups (routes : gmap string Router.Route) (dag : Decomposer.DAG)
    (run : Run) (groups : list (list string)) : option Run :=
  match groups with
  | [] => Some run
  | group :: rest =>
      match execute_group routes dag run
              (executable_of routes dag (completed run) group) with
      | Some run1 => execute_groups routes dag run1 rest
      | None => None
      end
  end.

Definition executeDAG (dag : Decomposer.DAG) (routes : gmap string Router.Route)
    (s : State) : option Run :=
  execute_groups routes dag {| state := s; results := ∅; completed := ∅ |}
    (Decomposer.parallelGroups dag).

(** [executeMultiAgent]: the [catch] block throws the error again. *)
Definition executeMultiAgent (task : string) (s : State)
  : option (completion MultiResult * State) :=
  match decompose task with
  | None => None
  | Some dag =>
      let '(routes, r1) := routeSubtasks default_strategy now dag (agentRouter s) in
      match executeDAG dag routes (with_router s r1) with
      | None => None
      | Some run =>
          match aggregateByDAG (Decomposer.parallelGroups dag)
                  (entry_of <$> results run) with
          | Returned aggregated =>
              Some (Returned
                      {| m_success := true;
                         m_strategy := "multi_agent";
                         m_subtaskCount := Decomposer.totalSubtasks dag;
                         m_result := payload aggregated;
                         m_parallelGroups := length (Decomposer.parallelGroups dag) |},
                    state run)
          | Thrown e => Some (Thrown e, state run)
          end
      end
  end.

End Engine.

(** What holds of [results] and [completed] all along [executeDAG]:
    they have the same keys, and a subtask has a result only if that
    result is what one execution of the subtask returned and all its
    dependencies have a result. *)
Definition settled (execute : string -> State -> option (completion Outcome * State))
    (dag : Decomposer.DAG) (run : Run) : Prop :=
  dom (results run) = completed run
  /\ forall i r, results run !! i = Some r ->
       exists st, find_subtask dag i = Some st
         /\ (exists route s0 s1,
               executeSubtask execute route st s0 = Some (Returned r, s1))
         /\ forall d, d ∈ Decomposer.dependsOn st -> d ∈ completed run.

Section Execute.

Variable default_strategy : string.
Variable now : Z.
(** The configuration of [executeSingle]. *)
Variable polls : nat.
Variable others : gmap string (gset string) -> gmap string (gset string).
Variable classifyError : string -> string.
Variable retryableErrors : list string.
Variable maxRetries : nat.
(** [this.taskDecomposer.analyzeComplexity] and [decompose], and
    [this.resultAggregator.aggregateByDAG]. *)
Variable analyzeComplexity : string -> Decomposer.Indicators.
Variable decompose : string -> option Decomposer.DAG.
Variable aggregateByDAG :
  list (list string) -> gmap string Entry -> completion Aggregated.
(** What the collaborators answer during the [n]-th call of
    [executeSingle], which is for the given task, and the task id made
    from the clock in that call. *)
Variable world : nat -> string -> World.
Variable taskId : nat -> string.

Definition with_toolExecutor (w : World) (spawn : option (nat -> completion value))
  : World :=
  {| classifyTask := classifyTask w; checkBudget := checkBudget w;
     budgetReasons := budgetReasons w; chatId := chatId w;
     confirmation_enabled := confirmation_enabled w;
     sendTextConfirm := sendTextConfirm w; buildTaskConfig := buildTaskConfig w;
     sendMessage := sendMessage w; toolExecutor := spawn;
     stopUpdater := stopUpdater w; insertTaskHistory := insertTaskHistory w;
     updateMessage := updateMessage w;
     insertFailureHistory := insertFailureHistory w |}.

(** [execute(taskInput, options)].  The fuel bounds the nesting of
    [execute] within [executeSubtask]: a run that nests deeper gives
    [None]. *)
Fixpoint execute (fuel : nat) (options : ExecuteOptions) (task : string) (s : State)
  : option (completion Outcome * State) :=
  match fuel with
  | O => None
  | S fuel' =>
      if opt_multiAgent options && shouldUseMultiAgent analyzeComplexity task
      then
        match executeMultiAgent default_strategy now decompose aggregateByDAG
                (execute fuel' no_options) (opt_retry options) task s with
        | Some (Returned m, s1) => Some (Returned (Multi m), s1)
        | Some (Thrown e, s1) => Some (Thrown e, s1)
        | None => None
        end
      else
        let w := with_toolExecutor (world (calls s) task) (opt_toolExecutor options) in
        let '(r, c) :=
          executeSingle polls others classifyError retryableErrors maxRetries w
            (concurrencyController s) (opt_forceBranch options) (taskId (calls s)) in
        Some (match r with
              | Returned x => Returned (Single x)
              | Thrown e => Thrown e
              end,
              {| agentRouter := agentRouter s; concurrencyController := c;
                 calls := S (calls s) |})
  end.

End Execute.

End MultiAgent.

(** ** Scenarios

    Registries, subtasks and collaborators on which the functions are
    evaluated. *)

Module AggregatorScenario.

Import Aggregator.

(** An aggregator with the default configuration, for payloads that are
    strings or [undefined], and for texts that share no word. *)
Definition plain_aggregate : option (list Entry) -> Options -> completion Aggregated :=
  aggregate SMART_MERGE (4 # 5) (fun _ => None) (fun _ => None)
    (fun _ => "undefined") (fun _ _ => 0%Q) (fun _ => VNull) (fun s _ _ => s).

Definition with_strategy (s : AggregationStrategy) : Options :=
  {| strategy := Some s; originalTask := None; priorities := None |}.

Definition two_texts : list Entry :=
  [ {| subtaskId := Some "1"; result := VStr "A"; metadata := None |};
    {| subtaskId := Some "2"; result := VStr "B"; metadata := None |} ].

Definition one_undefined : list Entry :=
  [ {| subtaskId := Some "1"; result := VUndefined; metadata := None |};
    {| subtaskId := Some "2"; result := VStr "x"; metadata := None |} ].

End AggregatorScenario.

Module RouterScenario.

Import Registry Router.

Definition worker (i : string) (caps : list string) (capacity : Z) : Agent :=
  {| Registry.agentId := i; name := i; capabilities := caps;
     maxConcurrent := capacity; currentLoad := 0; status := healthy;
     lastHeartbeat := 0; metadata := None; avgExecutionTime := 0 |}.

Definition job (i : string) (caps : list string) (deps : list string) : Decomposer.Subtask :=
  {| Decomposer.id := i; Decomposer.task := i; Decomposer.dependsOn := deps;
     Decomposer.estimatedDuration := Some 1000;
     Decomposer.requiredCapabilities := Some caps; Decomposer.type := None |}.

Definition plain : Options :=
  {| opt_strategy := None; excludeAgents := []; opt_isFallback := false |}.

(** An agent with some load, and one heard of at a given time. *)
Definition loaded (a : Agent) (load : Z) : Agent :=
  {| Registry.agentId := Registry.agentId a; name := name a;
     capabilities := capabilities a; maxConcurrent := maxConcurrent a;
     currentLoad := load; status := status a; lastHeartbeat := lastHeartbeat a;
     metadata := metadata a; avgExecutionTime := avgExecutionTime a |}.

Definition heard_at (a : Agent) (time : Z) : Agent :=
  {| Registry.agentId := Registry.agentId a; name := name a;
     capabilities := capabilities a; maxConcurrent := maxConcurrent a;
     currentLoad := currentLoad a; status := status a; lastHeartbeat := time;
     metadata := metadata a; avgExecutionTime := avgExecutionTime a |}.

End RouterScenario.

Module SchedulerScenario.

Import Aggregator Scheduler.

(** A world in which every collaborator answers. *)
Definition calm : World :=
  {| classifyTask := Returned "Standard";
     checkBudget := Returned true;
     budgetReasons := [];
     chatId := Some "chat";
     confirmation_enabled := false;
     sendTextConfirm := Returned proceed;
     buildTaskConfig := fun _ => Returned tt;
     sendMessage := Returned tt;
     toolExecutor := None;
     stopUpdater := Returned tt;
     insertTaskHistory := Returned tt;
     updateMessage := Returned tt;
     insertFailureHistory := Returned tt |}.

(** The same world, except that the progress message cannot be sent. *)
Definition channel_down : World :=
  {| classifyTask := Returned "Standard";
     checkBudget := Returned true;
     budgetReasons := [];
     chatId := Some "chat";
     confirmation_enabled := false;
     sendTextConfirm := Returned proceed;
     buildTaskConfig := fun _ => Returned tt;
     sendMessage := Thrown "network error";
     toolExecutor := None;
     stopUpdater := Returned tt;
     insertTaskHistory := Returned tt;
     updateMessage := Returned tt;
     insertFailureHistory := Returned tt |}.

Definition two_workers : Router.State :=
  {| Router.agents := [RouterScenario.worker "alpha" ["read"] 2;
                       RouterScenario.worker "beta" ["read"] 2];
     Router.roundRobinIndex := 0; Router.fallbackEnabled := true |}.

Definition one_job : Decomposer.DAG :=
  {| Decomposer.subtasks := [RouterScenario.job "s1" ["read"] []];
     Decomposer.graph := None;
     Decomposer.parallelGroups := [["s1"]];
     Decomposer.isValid := None; Decomposer.taskId := None;
     Decomposer.originalTask := None; Decomposer.complexity := None;
     Decomposer.totalSubtasks := Some 1 |}.

Definition done_ok : TaskResult :=
  {| success := true; branch := Some "Standard"; result := Some (VStr "ok");
     error := None; errorType := None; attempts := Some 1%nat |}.

(** The first attempt of every subtask throws, the second returns. *)
Definition second_time_lucky (attempt : nat) (st : Decomposer.Subtask) (b : string)
  : completion TaskResult :=
  match attempt with
  | O => Thrown "worker crashed"
  | S _ => Returned done_ok
  end.

Definition always_ok (attempt : nat) (st : Decomposer.Subtask) (b : string)
  : completion TaskResult := Returned done_ok.

Definition load_of (s : Router.State) (i : string) : option Z :=
  Registry.currentLoad <$> Registry.getAgent i (Router.agents s).

(** The agents created by [setupDefaultAgents]. *)
Definition local_agent (i : string) (caps : list string) (capacity : Z) (kind : string)
  : Registry.Agent :=
  {| Registry.agentId := i; Registry.name := i; Registry.capabilities := caps;
     Registry.maxConcurrent := capacity; Registry.currentLoad := 0;
     Registry.status := Registry.healthy; Registry.lastHeartbeat := 0;
     Registry.metadata := Some {| Registry.kind := Some kind;
                                  Registry.costPerToken := None |};
     Registry.avgExecutionTime := 0 |}.

Definition default_agents : Router.State :=
  {| Router.agents :=
       [local_agent "SimpleAgent" ["read"; "write"; "simple_analysis"] 5 "simple";
        local_agent "StandardAgent" ["read"; "write"; "analyze"; "search"] 3 "standard";
        local_agent "DeepAgent"
          ["read"; "write"; "analyze"; "deep_research"; "reasoning"] 1 "deep"];
     Router.roundRobinIndex := 0; Router.fallbackEnabled := true |}.

(** The aggregator with the default configuration. *)
Definition default_aggregateByDAG
  : list (list string) -> gmap string Entry -> completion Aggregated :=
  aggregateByDAG SMART_MERGE (4 # 5) (fun _ => None) (fun _ => None)
    (fun _ => "undefined") (fun _ _ => 0%Q) (fun _ => VNull) (fun s _ _ => s).

End SchedulerScenario.

Module MultiAgentScenario.

Import Aggregator Scheduler MultiAgent.

(** A task of 60 characters.  The word that announces several steps,
    最后, comes after the first 50 characters, which are the part of
    the task that the step template copies into its subtasks. *)
Definition release_notes_head : string :=
  "按照发布流程整理本周的变更记录并核对每一项的负责人和完成日期再把缺少说明的条目补充完整后交给组长检查".

Definition release_notes : string :=
  (release_notes_head ++ "最后生成一份总结报告")%string.

(** The string primitives and the regular expressions on the texts of
    this run, which are [release_notes] and the four subtask texts made
    from [release_notes_head]: only the task matches the pattern for
    several steps, no text matches another pattern of the decomposer or
    holds a number, and every text holds 流程, a keyword of the
    Orchestrator branch. *)
Definition js_length (s : string) : Z :=
  if decide (s = release_notes) then 60 else 59.

Definition js_wordCount (s : string) : Z :=
  if decide (s = release_notes) then 1 else 2.

Definition marker_test (m : Decomposer.marker) (s : string) : bool :=
  match m with
  | Decomposer.MultipleSteps => bool_decide (s = release_notes)
  | _ => false
  end.

Definition substring (s : string) (from to : Z) : string :=
  if decide (s = release_notes) then release_notes_head else s.

Definition keyword_test (k : Classifier.keyword) (s : string) : bool :=
  match k with
  | Classifier.OrchestratorKeyword => true
  | _ => false
  end.

Definition analyzeComplexity : string -> Decomposer.Indicators :=
  Decomposer.analyzeComplexity 20 js_length js_wordCount marker_test (fun _ => None).

Definition decompose : string -> option Decomposer.DAG :=
  Decomposer.decompose 20 js_length js_wordCount marker_test (fun _ => None)
    (fun _ => false) (fun _ => None) substring 0.

Definition classifyTask (task : string) : string :=
  Classifier.branch
    (Classifier.classifyTask js_length js_wordCount (fun _ _ => false) keyword_test
       (fun _ => None) task).

(** The history store: one that answers every call of [executeSingle],
    and one that answers the first call and is out of reach from then
    on. *)
Definition store_up (n : nat) : completion unit := Returned tt.

Definition store_lost (n : nat) : completion unit :=
  match n with
  | O => Returned tt
  | S _ => Thrown "SQLITE_CANTOPEN: unable to open database file"
  end.

(** No chat is configured, the budget allows every task, and the
    classifier is the one of [scheduler.js]. *)
Definition world (store : nat -> completion unit) (n : nat) (task : string) : World :=
  {| Scheduler.classifyTask := Returned (classifyTask task);
     checkBudget := Returned true;
     budgetReasons := [];
     chatId := None;
     confirmation_enabled := false;
     sendTextConfirm := Returned proceed;
     buildTaskConfig := fun _ => Returned tt;
     sendMessage := Returned tt;
     toolExecutor := None;
     stopUpdater := Returned tt;
     insertTaskHistory := store n;
     updateMessage := Returned tt;
     insertFailureHistory := store n |}.

Definition taskId (n : nat) : string := ("task_" ++ pretty n)%string.

(** A scheduler with the default agents, with an idle Redis-backed
    controller or with the local controller. *)
Definition with_redis : State :=
  {| agentRouter := SchedulerScenario.default_agents;
     concurrencyController := RedisController ∅;
     calls := 0 |}.

Definition with_local : State :=
  {| agentRouter := SchedulerScenario.default_agents;
     concurrencyController := LocalController ∅;
     calls := 0 |}.

Definition executeSingle (store : nat -> completion unit) (n : nat) (task : string)
    (c : Controller) : completion TaskResult * Controller :=
  Scheduler.executeSingle 60 (fun db => db) (fun _ => "UNKNOWN") [] 5
    (world store n task) c None (taskId n).

Definition execute (store : nat -> completion unit) (fuel : nat)
  : ExecuteOptions -> string -> State -> option (completion Outcome * State) :=
  MultiAgent.execute Router.CAPABILITY_MATCH 0 60 (fun db => db) (fun _ => "UNKNOWN")
    [] 5 analyzeComplexity decompose SchedulerScenario.default_aggregateByDAG
    (world store) taskId fuel.

Definition executeDAG (store : nat -> completion unit) (fuel : nat)
  : Decomposer.DAG -> gmap string Router.Route -> State -> option Run :=
  MultiAgent.executeDAG Router.CAPABILITY_MATCH 0 (execute store fuel no_options) true.

Definition executeMultiAgent (store : nat -> completion unit) (fuel : nat)
  : string -> State -> option (completion MultiResult * State) :=
  MultiAgent.executeMultiAgent Router.CAPABILITY_MATCH 0 decompose
    SchedulerScenario.default_aggregateByDAG (execute store fuel no_options) true.

End MultiAgentScenario.

(** * Properties

    The rest of the file states and proves properties of the functions
    defined above. *)

#[local] Set Warnings "-clear-no-such-hyp".

(** ** The concurrency controllers *)

Module ConcurrencyFacts.

Import Concurrency.

Lemma limits_lookup (b : string) (N : Z) :
  limits !! b = Some N -> 1 <= N <= 10.
Proof.
  unfold limits. simpl. intros H.
  do 5 (apply lookup_insert_Some in H as [[_ <-]|[_ H]]; [lia|]).
  by rewrite lookup_empty in H.
Qed.

Lemma limit_of_lookup (b : string) (N : Z) :
  limits !! b = Some N -> Redis.limit_of b = N.
Proof.
  intros H. pose proof (limits_lookup _ _ H) as HN.
  unfold Redis.limit_of. rewrite H.
  destruct (Z.eqb_spec N 0); [lia | done].
Qed.

Lemma size_add_le (t : string) (X : gset string) :
  (size ({[t]} ∪ X) <= S (size X))%nat.
Proof.
  rewrite size_union_alt, size_singleton.
  assert (size (X ∖ {[t]}) <= size X)%nat by (apply subseteq_size; set_solver).
  lia.
Qed.

Lemma size_add_fresh (t : string) (X : gset string) :
  t ∉ X -> size ({[t]} ∪ X) = S (size X).
Proof. intros H. rewrite size_union by set_solver. by rewrite size_singleton. Qed.

Lemma local_concurrency_holders s b :
  Local.getCurrentConcurrency b s = size (local_holders s b).
Proof.
  unfold Local.getCurrentConcurrency, local_holders.
  destruct (s !! b); reflexivity.
Qed.

Lemma redis_concurrency_holders db b :
  Redis.getCurrentConcurrency b db = size (redis_holders db b).
Proof.
  unfold Redis.getCurrentConcurrency, Redis.scard, redis_holders.
  destruct (db !! _); reflexivity.
Qed.

(** What one [acquireSlot] does to the holders of each branch. *)
Lemma local_acquire_holders b t s b' :
  local_holders (Local.acquireSlot b t s).1 b' =
    if (Local.acquireSlot b t s).2 && bool_decide (b' = b)
    then {[t]} ∪ local_holders s b' else local_holders s b'.
Proof.
  unfold Local.acquireSlot, local_holders.
  set (s1 := match s !! b with Some _ => s | None => <[b:=∅]> s end).
  assert (Hs1 : forall c, default ∅ (s1 !! c) = default (∅ : gset string) (s !! c)).
  { intros c. subst s1. destruct (s !! b) eqn:E; [done|].
    destruct (decide (b = c)) as [->|Hne].
    - by rewrite lookup_insert_eq, E.
    - by rewrite lookup_insert_ne. }
  destruct (limits !! b) as [limit|]; simpl; [|apply Hs1].
  destruct (Z.of_nat (size (default ∅ (s1 !! b))) <? limit); simpl; [|apply Hs1].
  case_bool_decide as Hb.
  - subst b'. by rewrite lookup_insert_eq, !Hs1.
  - rewrite lookup_insert_ne by done. apply Hs1.
Qed.

Lemma local_acquire_ok b t s N :
  limits !! b = Some N ->
  (Local.acquireSlot b t s).2 = bool_decide (Z.of_nat (size (local_holders s b)) < N).
Proof.
  intros HN. unfold Local.acquireSlot, local_holders. rewrite HN.
  assert (Hs1 : default ∅ (match s !! b with Some _ => s | None => <[b:=∅]> s end !! b)
                = default (∅ : gset string) (s !! b)).
  { destruct (s !! b) eqn:E; [by rewrite E|]. by rewrite lookup_insert_eq. }
  rewrite Hs1.
  destruct (Z.ltb_spec (Z.of_nat (size (default ∅ (s !! b)))) N); simpl;
    symmetry; [by apply bool_decide_eq_true | apply bool_decide_eq_false; lia].
Qed.

Lemma local_release_holders b t s b' :
  local_holders (Local.releaseSlot b t s) b' ⊆ local_holders s b'.
Proof.
  unfold Local.releaseSlot, local_holders.
  destruct (s !! b) as [slot|] eqn:E; [|done].
  destruct (decide (b = b')) as [->|Hne].
  - rewrite lookup_insert_eq, E. simpl. set_solver.
  - by rewrite lookup_insert_ne.
Qed.

Lemma redis_acquire_holders b t db b' :
  redis_holders (Redis.acquireSlot b t db).1 b' =
    if (Redis.acquireSlot b t db).2 && bool_decide (b' = b)
    then {[t]} ∪ redis_holders db b' else redis_holders db b'.
Proof.
  unfold Redis.acquireSlot, redis_holders, Redis.sadd.
  destruct (Z.of_nat (Redis.scard _ db) <? Redis.limit_of b); simpl; [|done].
  case_bool_decide as Hb.
  - subst b'. by rewrite lookup_insert_eq.
  - rewrite lookup_insert_ne; [done|]. intros Heq. by apply String.app_inj in Heq.
Qed.

Lemma redis_acquire_ok b t db N :
  limits !! b = Some N ->
  (Redis.acquireSlot b t db).2 = bool_decide (Z.of_nat (size (redis_holders db b)) < N).
Proof.
  intros HN. unfold Redis.acquireSlot.
  rewrite (limit_of_lookup _ _ HN).
  change (Redis.scard (Redis.prefix ++ b)%string db) with (Redis.getCurrentConcurrency b db).
  rewrite redis_concurrency_holders.
  destruct (Z.ltb_spec (Z.of_nat (size (redis_holders db b))) N); simpl;
    symmetry; [by apply bool_decide_eq_true | apply bool_decide_eq_false; lia].
Qed.

Lemma redis_release_holders b t db b' :
  redis_holders (Redis.releaseSlot b t db) b' ⊆ redis_holders db b'.
Proof.
  unfold Redis.releaseSlot, Redis.srem, redis_holders.
  destruct (db !! (Redis.prefix ++ b)%string) as [members|] eqn:E; [|done].
  destruct (decide (b = b')) as [->|Hne].
  - case_decide.
    + rewrite lookup_delete_eq. simpl. set_solver.
    + rewrite lookup_insert_eq, E. simpl. set_solver.
  - assert ((Redis.prefix ++ b)%string ≠ (Redis.prefix ++ b')%string).
    { intros Heq. by apply String.app_inj in Heq. }
    case_decide; [by rewrite lookup_delete_ne | by rewrite lookup_insert_ne].
Qed.

Lemma redis_expire_holders b db b' :
  redis_holders (Redis.expire b db) b' ⊆ redis_holders db b'.
Proof.
  unfold Redis.expire, redis_holders.
  destruct (decide (b = b')) as [->|Hne].
  - rewrite lookup_delete_eq. simpl. set_solver.
  - rewrite lookup_delete_ne; [done|]. intros Heq. by apply String.app_inj in Heq.
Qed.

Lemma local_step_bounded o s :
  bounded (local_holders s) -> bounded (local_holders (local_step o s)).
Proof.
  intros Hs b' N HN. specialize (Hs b' N HN).
  destruct o as [b t|b t|b]; simpl.
  - rewrite local_acquire_holders.
    destruct (Local.acquireSlot b t s).2 eqn:Hok; simpl; [|done].
    case_bool_decide as Hb; [|done]. subst b'.
    rewrite (local_acquire_ok _ _ _ _ HN) in Hok.
    apply bool_decide_eq_true in Hok.
    pose proof (size_add_le t (local_holders s b)). lia.
  - pose proof (subseteq_size _ _ (local_release_holders b t s b')). lia.
  - done.
Qed.

Lemma redis_step_bounded o db :
  bounded (redis_holders db) -> bounded (redis_holders (redis_step o db)).
Proof.
  intros Hs b' N HN. specialize (Hs b' N HN).
  destruct o as [b t|b t|b]; simpl.
  - rewrite redis_acquire_holders.
    destruct (Redis.acquireSlot b t db).2 eqn:Hok; simpl; [|done].
    case_bool_decide as Hb; [|done]. subst b'.
    rewrite (redis_acquire_ok _ _ _ _ HN) in Hok.
    apply bool_decide_eq_true in Hok.
    pose proof (size_add_le t (redis_holders db b)). lia.
  - pose proof (subseteq_size _ _ (redis_release_holders b t db b')). lia.
  - pose proof (subseteq_size _ _ (redis_expire_holders b db b')). lia.
Qed.

Lemma empty_bounded : bounded (local_holders ∅) /\ bounded (redis_holders ∅).
Proof.
  split; intros b N HN; pose proof (limits_lookup _ _ HN);
    unfold local_holders, redis_holders; rewrite lookup_empty;
    change (Z.of_nat 0 <= N); lia.
Qed.

Lemma local_run_bounded ops s :
  bounded (local_holders s) -> bounded (local_holders (local_run ops s)).
Proof.
  revert s. induction ops as [|o ops IH]; intros s Hs; [done|].
  apply IH. by apply local_step_bounded.
Qed.

Lemma redis_run_bounded ops db :
  bounded (redis_holders db) -> bounded (redis_holders (redis_run ops db)).
Proof.
  revert db. induction ops as [|o ops IH]; intros db Hs; [done|].
  apply IH. by apply redis_step_bounded.
Qed.

(** A batch of acquisitions with fresh, distinct ids fills the free
    slots and then fails. *)
Lemma local_acquire_all_count b N ids s :
  limits !! b = Some N -> NoDup ids ->
  (forall t, t ∈ ids -> t ∉ local_holders s b) ->
  Z.of_nat (size (local_holders s b)) <= N ->
  successes (local_acquire_all b ids s).1 =
    Nat.min (length ids) (Z.to_nat N - size (local_holders s b)).
Proof.
  intros HN. revert s. induction ids as [|t ids IH]; intros s Hnd Hfresh Hle; [done|].
  inversion Hnd as [|? ? Ht Hnd']; subst. cbn [local_acquire_all].
  destruct (Local.acquireSlot b t s) as [s1 ok] eqn:E.
  destruct (local_acquire_all b ids s1) as [oks s2] eqn:E2.
  pose proof (local_acquire_holders b t s b) as Hh.
  pose proof (local_acquire_ok b t s N HN) as Hok.
  rewrite E in Hh, Hok. simpl in Hh, Hok.
  rewrite bool_decide_eq_true_2 in Hh by done. rewrite andb_true_r in Hh.
  assert (Htf : t ∉ local_holders s b) by (apply Hfresh; set_solver).
  specialize (IH s1 Hnd'). rewrite E2 in IH. cbn [fst] in IH.
  unfold successes in *. cbn [fst length].
  destruct ok; symmetry in Hok.
  - apply bool_decide_eq_true in Hok.
    rewrite filter_cons_True by done. cbn [length].
    rewrite IH.
    + rewrite Hh, size_add_fresh by done. lia.
    + intros t' Ht'. rewrite Hh.
      assert (t' ≠ t) by (intros ->; done).
      assert (t' ∉ local_holders s b) by (apply Hfresh; set_solver).
      set_solver.
    + rewrite Hh, size_add_fresh by done. lia.
  - apply bool_decide_eq_false in Hok.
    rewrite filter_cons_False by done.
    rewrite IH.
    + rewrite Hh. lia.
    + intros t' Ht'. rewrite Hh. apply Hfresh. set_solver.
    + rewrite Hh. lia.
Qed.

Lemma redis_acquire_all_count b N ids db :
  limits !! b = Some N -> NoDup ids ->
  (forall t, t ∈ ids -> t ∉ redis_holders db b) ->
  Z.of_nat (size (redis_holders db b)) <= N ->
  successes (redis_acquire_all b ids db).1 =
    Nat.min (length ids) (Z.to_nat N - size (redis_holders db b)).
Proof.
  intros HN. revert db. induction ids as [|t ids IH]; intros s Hnd Hfresh Hle; [done|].
  inversion Hnd as [|? ? Ht Hnd']; subst. cbn [redis_acquire_all].
  destruct (Redis.acquireSlot b t s) as [s1 ok] eqn:E.
  destruct (redis_acquire_all b ids s1) as [oks s2] eqn:E2.
  pose proof (redis_acquire_holders b t s b) as Hh.
  pose proof (redis_acquire_ok b t s N HN) as Hok.
  rewrite E in Hh, Hok. simpl in Hh, Hok.
  rewrite bool_decide_eq_true_2 in Hh by done. rewrite andb_true_r in Hh.
  assert (Htf : t ∉ redis_holders s b) by (apply Hfresh; set_solver).
  specialize (IH s1 Hnd'). rewrite E2 in IH. cbn [fst] in IH.
  unfold successes in *. cbn [fst length].
  destruct ok; symmetry in Hok.
  - apply bool_decide_eq_true in Hok.
    rewrite filter_cons_True by done. cbn [length].
    rewrite IH.
    + rewrite Hh, size_add_fresh by done. lia.
    + intros t' Ht'. rewrite Hh.
      assert (t' ≠ t) by (intros ->; done).
      assert (t' ∉ redis_holders s b) by (apply Hfresh; set_solver).
      set_solver.
    + rewrite Hh, size_add_fresh by done. lia.
  - apply bool_decide_eq_false in Hok.
    rewrite filter_cons_False by done.
    rewrite IH.
    + rewrite Hh. lia.
    + intros t' Ht'. rewrite Hh. apply Hfresh. set_solver.
    + rewrite Hh. lia.
Qed.

Lemma local_acquire_all_length b ids s :
  length (local_acquire_all b ids s).1 = length ids.
Proof.
  revert s. induction ids as [|t ids IH]; intros s; [done|]. simpl.
  destruct (Local.acquireSlot b t s) as [s1 ok].
  specialize (IH s1). destruct (local_acquire_all b ids s1). simpl in *. by rewrite IH.
Qed.

Lemma redis_acquire_all_length b ids s :
  length (redis_acquire_all b ids s).1 = length ids.
Proof.
  revert s. induction ids as [|t ids IH]; intros s; [done|]. simpl.
  destruct (Redis.acquireSlot b t s) as [s1 ok].
  specialize (IH s1). destruct (redis_acquire_all b ids s1). simpl in *. by rewrite IH.
Qed.

(** C4. For a tier with limit [N], [N + 1] acquisitions with distinct
    task ids on an idle controller give exactly [N] successes and one
    failure, in whatever order the calls are served; and after any
    sequence of [acquireSlot] and [releaseSlot] calls (and key expiries
    in Redis) the number of task ids holding a slot of the tier is at
    most [N].  Both hold for the
    local and for the Redis-backed controller. *)
Theorem acquireSlot_never_exceeds_limit
    (tier : string) (N : Z) (ids : list string) (ops : list op) :
  limits !! tier = Some N ->
  NoDup ids ->
  length ids = S (Z.to_nat N) ->
  (successes (local_acquire_all tier ids ∅).1 = Z.to_nat N
   /\ length (local_acquire_all tier ids ∅).1 = S (Z.to_nat N))
  /\ (successes (redis_acquire_all tier ids ∅).1 = Z.to_nat N
      /\ length (redis_acquire_all tier ids ∅).1 = S (Z.to_nat N))
  /\ Z.of_nat (Local.getCurrentConcurrency tier (local_run ops ∅)) <= N
  /\ Z.of_nat (Redis.getCurrentConcurrency tier (redis_run ops ∅)) <= N.
Proof.
  intros HN Hnd Hlen. pose proof (limits_lookup _ _ HN) as Hpos.
  destruct empty_bounded as [HL HR].
  repeat split.
  - assert (Hfresh : forall t, t ∈ ids -> t ∉ local_holders ∅ tier).
    { intros t _. unfold local_holders. rewrite lookup_empty. set_solver. }
    rewrite (local_acquire_all_count tier N ids ∅ HN Hnd Hfresh (HL _ _ HN)).
    unfold local_holders. rewrite lookup_empty.
    change (default ∅ None : gset string) with (∅ : gset string).
    rewrite size_empty. lia.
  - by rewrite local_acquire_all_length.
  - assert (Hfresh : forall t, t ∈ ids -> t ∉ redis_holders ∅ tier).
    { intros t _. unfold redis_holders. rewrite lookup_empty. set_solver. }
    rewrite (redis_acquire_all_count tier N ids ∅ HN Hnd Hfresh (HR _ _ HN)).
    unfold redis_holders. rewrite lookup_empty.
    change (default ∅ None : gset string) with (∅ : gset string).
    rewrite size_empty. lia.
  - by rewrite redis_acquire_all_length.
  - rewrite local_concurrency_holders. by apply local_run_bounded.
  - rewrite redis_concurrency_holders. by apply redis_run_bounded.
Qed.

Lemma acquireSlot_never_exceeds_limit_witness :
  (successes (local_acquire_all "Batch" ["t1"; "t2"; "t3"] ∅).1 = 2%nat
   /\ length (local_acquire_all "Batch" ["t1"; "t2"; "t3"] ∅).1 = 3%nat)
  /\ (successes (redis_acquire_all "Batch" ["t1"; "t2"; "t3"] ∅).1 = 2%nat
      /\ length (redis_acquire_all "Batch" ["t1"; "t2"; "t3"] ∅).1 = 3%nat)
  /\ Z.of_nat (Local.getCurrentConcurrency "Batch"
        (local_run [Acquire "Batch" "a"; Acquire "Batch" "b"; Acquire "Batch" "c";
                    Release "Batch" "a"; Acquire "Batch" "d"] ∅)) <= 2
  /\ Z.of_nat (Redis.getCurrentConcurrency "Batch"
        (redis_run [Acquire "Batch" "a"; Acquire "Batch" "b"; Acquire "Batch" "c";
                    Release "Batch" "a"; Acquire "Batch" "d"] ∅)) <= 2.
Proof.
  apply (acquireSlot_never_exceeds_limit "Batch" 2 ["t1"; "t2"; "t3"]).
  - reflexivity.
  - compute_done.
  - reflexivity.
Defined.

End ConcurrencyFacts.

(** ** The decomposer *)

Module DecomposerFacts.

Import Decomposer Graph.

(** *** Counting occurrences *)

Lemma occ_nil v : occ v [] = 0%nat.
Proof. reflexivity. Qed.

Lemma occ_cons v x l :
  occ v (x :: l) = ((if decide (x = v) then 1 else 0) + occ v l)%nat.
Proof.
  unfold occ. destruct (decide (x = v)) as [->|Hne].
  - by rewrite filter_cons_True.
  - by rewrite filter_cons_False.
Qed.

Lemma occ_app v l k : occ v (l ++ k) = (occ v l + occ v k)%nat.
Proof. unfold occ. by rewrite filter_app, length_app. Qed.

Lemma occ_pos v l : (0 < occ v l)%nat <-> v ∈ l.
Proof.
  induction l as [|x l IH]; [rewrite occ_nil; split; [lia | by intros ?%elem_of_nil] |].
  rewrite occ_cons, elem_of_cons. destruct (decide (x = v)) as [->|Hne].
  - split; [by left | lia].
  - rewrite <- IH. split; [intros; right; lia | intros [->|?]; [done | lia]].
Qed.

Lemma occ_NoDup v l : NoDup l -> v ∈ l -> occ v l = 1%nat.
Proof.
  induction 1 as [|x l Hx Hnd IH]; [by intros ?%elem_of_nil|].
  rewrite occ_cons, elem_of_cons. intros [->|Hv].
  - rewrite decide_True by done.
    destruct (occ x l) eqn:E; [done|].
    exfalso. apply Hx, occ_pos. lia.
  - rewrite decide_False by (intros ->; done). by rewrite IH.
Qed.

(** *** The maps of [buildDAG] *)

Lemma deg_insert (d : gmap string Z) n x v :
  deg (<[n := x]> d) v = if decide (n = v) then x else deg d v.
Proof.
  unfold deg. destruct (decide (n = v)) as [->|Hne].
  - by rewrite lookup_insert_eq.
  - by rewrite lookup_insert_ne.
Qed.

Lemma succs_insert (g : gmap string (list string)) n x u :
  succs (<[n := x]> g) u = if decide (n = u) then x else succs g u.
Proof.
  unfold succs. destruct (decide (n = u)) as [->|Hne].
  - by rewrite lookup_insert_eq.
  - by rewrite lookup_insert_ne.
Qed.

(** [Object.keys(inDegree)]: the ids, each once. *)
Lemma add_keys_spec sts ks :
  NoDup ks ->
  NoDup (foldl (fun ks st => add_key ks (id st)) ks sts)
  /\ forall k, k ∈ foldl (fun ks st => add_key ks (id st)) ks sts
               <-> k ∈ ks \/ k ∈ id <$> sts.
Proof.
  revert ks. induction sts as [|st sts IH]; intros ks Hnd; simpl.
  - split; [done|]. intros k. rewrite elem_of_nil. tauto.
  - destruct (IH (add_key ks (id st))) as [H1 H2].
    + unfold add_key. destruct (decide (id st ∈ ks)); [done|].
      apply NoDup_app. split; [done|]. split; [|apply NoDup_singleton].
      intros x Hx ->%list_elem_of_singleton. done.
    + split; [done|]. intros k. rewrite H2, elem_of_cons. unfold add_key.
      destruct (decide (id st ∈ ks)) as [Hin|Hnin].
      * split; [tauto|]. intros [?|[->|?]]; tauto.
      * rewrite elem_of_app, list_elem_of_singleton. tauto.
Qed.

Lemma keys_NoDup sts : NoDup (keys_of sts).
Proof. apply (add_keys_spec sts []). constructor. Qed.

Lemma elem_of_keys sts k : k ∈ keys_of sts <-> k ∈ id <$> sts.
Proof.
  unfold keys_of. destruct (add_keys_spec sts [] (NoDup_nil_2)) as [_ H].
  rewrite H, elem_of_nil. tauto.
Qed.

Lemma init_graph_lookup sts (g : gmap string (list string)) k :
  foldl (fun g st => <[id st := []]> g) g sts !! k =
    if decide (k ∈ id <$> sts) then Some [] else g !! k.
Proof.
  revert g. induction sts as [|st sts IH]; intros g.
  - reflexivity.
  - cbn [foldl]. rewrite IH, fmap_cons.
    destruct (decide (k ∈ id <$> sts)) as [Hin|Hnin].
    + rewrite decide_True; [done | by right].
    + destruct (decide (id st = k)) as [<-|Hne].
      * rewrite decide_True by left. by rewrite lookup_insert_eq.
      * rewrite decide_False by (intros [?|?]%elem_of_cons; done).
        by rewrite lookup_insert_ne.
Qed.

Lemma init_inDegree_lookup sts (d : gmap string Z) k :
  foldl (fun d st => <[id st := 0]> d) d sts !! k =
    if decide (k ∈ id <$> sts) then Some 0 else d !! k.
Proof.
  revert d. induction sts as [|st sts IH]; intros d.
  - reflexivity.
  - cbn [foldl]. rewrite IH, fmap_cons.
    destruct (decide (k ∈ id <$> sts)) as [Hin|Hnin].
    + rewrite decide_True; [done | by right].
    + destruct (decide (id st = k)) as [<-|Hne].
      * rewrite decide_True by left. by rewrite lookup_insert_eq.
      * rewrite decide_False by (intros [?|?]%elem_of_cons; done).
        by rewrite lookup_insert_ne.
Qed.

Lemma init_graph_succs sts u : succs (init_graph sts) u = [].
Proof.
  unfold succs, init_graph. rewrite init_graph_lookup, lookup_empty.
  by destruct (decide _).
Qed.

Lemma init_graph_dom sts k : is_Some (init_graph sts !! k) <-> k ∈ keys_of sts.
Proof.
  unfold init_graph. rewrite init_graph_lookup, lookup_empty, elem_of_keys.
  destruct (decide _); split; try done; by intros [? ?].
Qed.

Lemma init_inDegree_deg sts v : deg (init_inDegree sts) v = 0.
Proof.
  unfold deg, init_inDegree. rewrite init_inDegree_lookup, lookup_empty.
  by destruct (decide _).
Qed.

(** *** The edges *)

Lemma elem_of_edges sts v u :
  (v, u) ∈ edges_of sts <-> exists st, st ∈ sts /\ id st = v /\ u ∈ dependsOn st.
Proof.
  unfold edges_of. rewrite list_elem_of_bind. split.
  - intros (st & Hin & Hst). apply list_elem_of_fmap in Hin as (d & [= -> ->] & Hd).
    by exists st.
  - intros (st & Hst & <- & Hu). exists st. split; [|done].
    apply list_elem_of_fmap. by exists u.
Qed.

Lemma add_edges_flat sts acc :
  add_edges sts acc = foldl (fun acc e => add_edge e.1 acc e.2) acc (edges_of sts).
Proof.
  unfold add_edges, edges_of. revert acc.
  induction sts as [|st sts IH]; intros acc; [done|].
  cbn [foldl]. rewrite IH. rewrite bind_cons, foldl_app. f_equal.
  generalize (dependsOn st). intros deps. revert acc.
  induction deps as [|d deps IHd]; intros acc; [done|].
  cbn [foldl]. rewrite IHd. by rewrite fmap_cons.
Qed.

Lemma sum_list_with_ext (f f' : string -> nat) l :
  (forall u, u ∈ l -> f' u = f u) -> sum_list_with f' l = sum_list_with f l.
Proof.
  induction l as [|x l IH]; intros H; [done|]. simpl.
  rewrite (H x) by left. rewrite IH; [done|]. intros u Hu. apply H. by right.
Qed.

Lemma sum_list_with_update (f f' : string -> nat) x c l :
  NoDup l -> x ∈ l ->
  f' x = (f x + c)%nat ->
  (forall u, u ≠ x -> f' u = f u) ->
  sum_list_with f' l = (sum_list_with f l + c)%nat.
Proof.
  intros Hnd Hx Hfx Hother. induction Hnd as [|y l Hy Hnd IH]; [by apply elem_of_nil in Hx|].
  simpl. apply elem_of_cons in Hx as [<-|Hx].
  - rewrite Hfx. rewrite (sum_list_with_ext f f' l); [lia|].
    intros u Hu. apply Hother. intros ->. done.
  - rewrite IH by done. rewrite Hother; [lia|]. intros ->. done.
Qed.

Lemma built_init sts : built sts [] (init_graph sts, init_inDegree sts).
Proof.
  split; [|split]; simpl.
  - apply init_graph_dom.
  - intros u v. rewrite init_graph_succs, !elem_of_nil. tauto.
  - intros v. rewrite init_inDegree_deg. unfold inflow.
    rewrite (sum_list_with_ext (fun _ => 0%nat)).
    + induction (keys_of sts); [done|]. simpl. lia.
    + intros u _. by rewrite init_graph_succs.
Qed.

Lemma built_add_edge sts E acc sid dep :
  built sts E acc -> built sts (E ++ [(sid, dep)]) (add_edge sid acc dep).
Proof.
  destruct acc as [g d]. intros (Hdom & Hsucc & Hdeg). unfold add_edge.
  destruct (g !! dep) as [out|] eqn:Hdep.
  - assert (Hkey : dep ∈ keys_of sts) by (apply Hdom; simpl; by rewrite Hdep).
    assert (Hout : succs g dep = out) by (unfold succs; by rewrite Hdep).
    split; [|split]; simpl in *.
    + intros k. rewrite <- Hdom. destruct (decide (dep = k)) as [<-|Hne].
      * rewrite lookup_insert_eq, Hdep. split; eauto.
      * by rewrite lookup_insert_ne.
    + intros u v. rewrite succs_insert, elem_of_app, list_elem_of_singleton.
      destruct (decide (dep = u)) as [<-|Hne].
      * rewrite elem_of_app, list_elem_of_singleton, <- Hout, Hsucc.
        split; [intros [[? ?]| ->]; auto | intros [_ [?|[= ->]]]; auto].
      * rewrite Hsucc. split; [intros [? ?]; auto | intros [? [?|[= -> ->]]]; done].
    + intros v. rewrite deg_insert. unfold inflow.
      rewrite (sum_list_with_update (fun u => occ v (succs g u)) _ dep
                 (if decide (sid = v) then 1 else 0)%nat).
      * destruct (decide (sid = v)) as [<-|Hne]; rewrite Hdeg; unfold inflow; lia.
      * apply keys_NoDup.
      * exact Hkey.
      * rewrite succs_insert, decide_True by done. rewrite occ_app, Hout, occ_cons, occ_nil.
        lia.
      * intros u Hu. by rewrite succs_insert, decide_False.
  - assert (Hkey : dep ∉ keys_of sts).
    { intros Hk. apply Hdom in Hk as [x Hx]. simpl in Hx. by rewrite Hdep in Hx. }
    split; [done|]. split; [|done]. simpl in *.
    intros u v. rewrite Hsucc, elem_of_app, list_elem_of_singleton.
    split; [intros [? ?]; auto | intros [? [?|[= -> ->]]]; done].
Qed.

Lemma built_edges sts :
  built sts (edges_of sts) (add_edges sts (init_graph sts, init_inDegree sts)).
Proof.
  rewrite add_edges_flat.
  assert (H : forall E acc E0, built sts E0 acc ->
    built sts (E0 ++ E) (foldl (fun acc e => add_edge e.1 acc e.2) acc E)).
  { induction E as [|[sid dep] E IH]; intros acc E0 Hacc.
    - by rewrite app_nil_r.
    - cbn [foldl]. replace (E0 ++ (sid, dep) :: E) with ((E0 ++ [(sid, dep)]) ++ E)
        by (by rewrite <- app_assoc).
      apply IH. by apply built_add_edge. }
  apply (H (edges_of sts) _ []). apply built_init.
Qed.

(** The graph of [buildDAG] has an edge from [u] to [v] exactly when
    [u] is a dependency of [v] that names a subtask, and the initial
    in-degree of [v] counts these edges. *)
Lemma graph_edges sts u v :
  v ∈ succs (add_edges sts (init_graph sts, init_inDegree sts)).1 u <-> depends sts u v.
Proof.
  destruct (built_edges sts) as (_ & H & _). rewrite H. unfold depends.
  by rewrite elem_of_edges.
Qed.

Lemma graph_inDegree sts v :
  deg (add_edges sts (init_graph sts, init_inDegree sts)).2 v =
    Z.of_nat (inflow (add_edges sts (init_graph sts, init_inDegree sts)).1 v (keys_of sts)).
Proof. by destruct (built_edges sts) as (_ & _ & H). Qed.

Lemma depends_keys sts u v : depends sts u v -> u ∈ keys_of sts /\ v ∈ keys_of sts.
Proof.
  intros (Hu & st & Hst & <- & _). split; [done|].
  apply elem_of_keys, list_elem_of_fmap. by exists st.
Qed.

(** *** One round of the loop *)

(** [relax] over a list of targets: each in-degree drops by the number
    of occurrences, and the queue gains, once each, the targets whose
    positive in-degree is used up. *)
Lemma relax_all L : forall (d : gmap string Z) (q : list string),
  exists fresh,
    (foldl relax (d, q) L).2 = q ++ fresh
    /\ NoDup fresh
    /\ (forall v, v ∈ fresh <-> 0 < deg d v <= Z.of_nat (occ v L))
    /\ (forall v, deg (foldl relax (d, q) L).1 v = deg d v - Z.of_nat (occ v L)).
Proof.
  induction L as [|n L IH]; intros d q.
  - exists []. cbn [foldl snd fst]. rewrite app_nil_r.
    split; [done|]. split; [constructor|]. split.
    + intros v. rewrite elem_of_nil, occ_nil. lia.
    + intros v. rewrite occ_nil. lia.
  - cbn [foldl]. unfold relax at 2.
    set (d1 := <[n := deg d n - 1]> d).
    set (q1 := if deg d n - 1 =? 0 then q ++ [n] else q).
    destruct (IH d1 q1) as (fresh & Hq & Hnd & Hin & Hdeg).
    assert (Hd1 : forall v, deg d1 v = if decide (n = v) then deg d n - 1 else deg d v).
    { intros v. unfold d1. apply deg_insert. }
    exists ((if deg d n - 1 =? 0 then [n] else []) ++ fresh).
    split; [|split; [|split]].
    + rewrite Hq. unfold q1. destruct (deg d n - 1 =? 0); by rewrite <- ?app_assoc.
    + destruct (Z.eqb_spec (deg d n - 1) 0) as [Hz|Hz]; [|done].
      apply NoDup_cons. split; [|done].
      rewrite Hin, Hd1, decide_True by done. lia.
    + intros v. rewrite elem_of_app, Hin, Hd1, occ_cons.
      destruct (decide (n = v)) as [<-|Hne].
      * destruct (Z.eqb_spec (deg d n - 1) 0) as [Hz|Hz].
        -- rewrite list_elem_of_singleton. split; [intros _; lia | auto].
        -- rewrite elem_of_nil. split; [intros [[]|?]; lia | intros ?; right; lia].
      * destruct (deg d n - 1 =? 0).
        -- rewrite list_elem_of_singleton.
           split; [intros [->|?]; [done | lia] | intros ?; right; lia].
        -- rewrite elem_of_nil. split; [intros [[]|?]; lia | intros ?; right; lia].
    + intros v. rewrite Hdeg, Hd1, occ_cons. destruct (decide (n = v)) as [<-|?]; lia.
Qed.

Lemma next_group_flat g d group :
  next_group g d group = foldl relax (d, []) (group ≫= succs g).
Proof.
  unfold next_group. generalize (d, @nil string). revert group.
  induction group as [|u group IH]; intros acc; [done|].
  cbn [foldl]. rewrite IH, bind_cons, foldl_app. done.
Qed.

Lemma occ_bind_succs g v us : occ v (us ≫= succs g) = inflow g v us.
Proof.
  unfold inflow. induction us as [|u us IH]; [done|].
  rewrite bind_cons, occ_app, IH. done.
Qed.

Lemma inflow_app g v us vs : inflow g v (us ++ vs) = (inflow g v us + inflow g v vs)%nat.
Proof. apply sum_list_with_app. Qed.

Lemma inflow_submseteq g v us vs : us ⊆+ vs -> (inflow g v us <= inflow g v vs)%nat.
Proof.
  intros [k Hk]%submseteq_Permutation. unfold inflow.
  rewrite Hk, sum_list_with_app. lia.
Qed.

Lemma inflow_pos g v us :
  (0 < inflow g v us)%nat <-> exists u, u ∈ us /\ v ∈ succs g u.
Proof.
  unfold inflow. induction us as [|u us IH]; simpl.
  - split; [lia | intros (u & Hu & _); by apply elem_of_nil in Hu].
  - split.
    + intros H. destruct (occ v (succs g u)) eqn:E.
      * destruct IH as [IH _]. destruct IH as (u' & Hu' & Hv); [lia|].
        exists u'. split; [by right | done].
      * exists u. split; [left|]. apply occ_pos. lia.
    + intros (u' & [->|Hu']%elem_of_cons & Hv).
      * apply occ_pos in Hv. lia.
      * destruct IH as [_ IH]. assert (0 < sum_list_with (fun u => occ v (succs g u)) us)%nat
          by (apply IH; eauto). lia.
Qed.

(** *** The invariant of the loop *)

Section Kahn.

Variable sts : list Subtask.

#[local] Abbreviation keys := (keys_of sts).
#[local] Abbreviation G := (add_edges sts (init_graph sts, init_inDegree sts)).1.
#[local] Abbreviation D0 := (add_edges sts (init_graph sts, init_inDegree sts)).2.
#[local] Abbreviation kahn := (Graph.kahn sts).

Lemma kahn_bound done d queue v us :
  kahn done d queue -> NoDup us -> (forall x, x ∈ us -> x ∈ keys) ->
  (inflow G v us <= inflow G v keys)%nat.
Proof.
  intros _ Hnd Hsub. apply inflow_submseteq. by apply NoDup_submseteq.
Qed.

Lemma kahn_init : kahn [] D0 (filter (fun k => deg D0 k = 0) keys).
Proof.
  split; [|split; [|split]]; cbn [app].
  - apply NoDup_filter, keys_NoDup.
  - intros x [_ Hx]%list_elem_of_filter. done.
  - intros v. rewrite graph_inDegree. change (inflow G v []) with 0%nat. lia.
  - intros v Hv. rewrite list_elem_of_filter. tauto.
Qed.

Lemma kahn_step done d queue :
  kahn done d queue ->
  kahn (done ++ queue) (next_group G d queue).1 (next_group G d queue).2.
Proof.
  intros Hk. pose proof Hk as (Hnd & Hsub & Hdeg & Hzero).
  rewrite next_group_flat.
  destruct (relax_all (queue ≫= succs G) d []) as (fresh & Hq & Hfnd & Hfin & Hfdeg).
  rewrite Hq. simpl.
  assert (Hflow : forall v, occ v (queue ≫= succs G) = inflow G v queue)
    by (intros v; apply occ_bind_succs).
  assert (Hle : forall v, (inflow G v (done ++ queue) <= inflow G v keys)%nat).
  { intros v. by eapply kahn_bound. }
  assert (Hfkeys : forall v, v ∈ fresh -> v ∈ keys).
  { intros v Hv. apply Hfin in Hv. rewrite Hflow in Hv.
    assert (Hpos : (0 < inflow G v queue)%nat) by lia.
    apply inflow_pos in Hpos as (u & _ & Hvu).
    apply graph_edges in Hvu. by apply depends_keys in Hvu as [_ ?]. }
  split; [|split; [|split]].
  - apply NoDup_app. split; [done|]. split; [|done].
    intros x Hx Hxf. pose proof (Hfkeys x Hxf) as Hxk.
    apply Hzero in Hx; [|done]. apply Hfin in Hxf. lia.
  - intros x [Hx|Hx]%elem_of_app; [by apply Hsub | by apply Hfkeys].
  - intros v. rewrite Hfdeg, Hdeg, Hflow, inflow_app. lia.
  - intros v Hv. rewrite Hfdeg, Hflow, elem_of_app, Hfin, Hflow, <- (Hzero v Hv).
    specialize (Hle v). rewrite inflow_app in Hle. rewrite Hdeg. lia.
Qed.

Lemma NoDup_subset_length (l k : list string) :
  NoDup l -> (forall x, x ∈ l -> x ∈ k) -> (List.length l <= List.length k)%nat.
Proof. intros Hnd Hsub. by apply submseteq_length, NoDup_submseteq. Qed.

(** A subtask of the queue has all its dependencies in [done]. *)
Lemma kahn_queue_ready done d queue u v :
  kahn done d queue -> v ∈ queue -> depends sts u v -> u ∈ done.
Proof.
  intros (Hnd & Hsub & Hdeg & Hzero) Hv Hdep.
  destruct (depends_keys _ _ _ Hdep) as [Hu Hvk].
  destruct (decide (u ∈ done)) as [|Hnot]; [done|]. exfalso.
  assert (Hz : deg d v = 0) by (apply Hzero; [done | apply elem_of_app; by right]).
  rewrite Hdeg in Hz.
  assert (Hle : (inflow G v (done ++ [u]) <= inflow G v keys)%nat).
  { apply inflow_submseteq, NoDup_submseteq.
    - apply NoDup_app. split; [by apply NoDup_app in Hnd as [? _]|].
      split; [|apply NoDup_singleton]. by intros x Hx ->%list_elem_of_singleton.
    - intros x [Hx| ->%list_elem_of_singleton]%elem_of_app; [|done].
      apply Hsub, elem_of_app. by left. }
  rewrite inflow_app in Hle. unfold inflow at 2 in Hle. simpl in Hle.
  apply graph_edges, occ_pos in Hdep. lia.
Qed.

Lemma elem_of_concat (x : string) (ls : list (list string)) :
  x ∈ concat ls <-> exists k l, ls !! k = Some l /\ x ∈ l.
Proof.
  induction ls as [|l ls IH]; simpl.
  - rewrite elem_of_nil. split; [done | by intros (k & l & Hk & _)].
  - rewrite elem_of_app, IH. split.
    + intros [Hx|(k & l' & Hk & Hx)]; [by exists 0%nat, l | by exists (S k), l'].
    + intros ([|k] & l' & Hk & Hx); [left; by injection Hk as -> | right; eauto].
Qed.

(** The loop returns when the fuel covers the keys that are not done,
    and the groups it returns keep the invariant. *)
Lemma groups_loop_spec fuel : forall done d queue,
  kahn done d queue ->
  (List.length keys <= fuel + List.length done)%nat ->
  exists groups d',
    groups_loop fuel G d queue = Some groups
    /\ kahn (done ++ concat groups) d' []
    /\ (forall k gk u v,
          groups !! k = Some gk -> v ∈ gk -> depends sts u v ->
          u ∈ done \/ exists j gj, (j < k)%nat /\ groups !! j = Some gj /\ u ∈ gj).
Proof.
  induction fuel as [|fuel IH]; intros done d queue Hk Hfuel.
  - destruct queue as [|x queue].
    + exists [], d. simpl. rewrite app_nil_r. split; [done|]. split; [done|].
      intros k gk u v Hgk. by rewrite lookup_nil in Hgk.
    + exfalso. destruct Hk as (Hnd & Hsub & _).
      pose proof (NoDup_subset_length _ _ Hnd Hsub) as Hlen.
      rewrite length_app in Hlen. simpl in *. lia.
  - destruct queue as [|x queue].
    + exists [], d. simpl. rewrite app_nil_r. split; [done|]. split; [done|].
      intros k gk u v Hgk. by rewrite lookup_nil in Hgk.
    + pose proof (kahn_step _ _ _ Hk) as Hstep.
      cbn [groups_loop].
      destruct (next_group G d (x :: queue)) as [d1 q1] eqn:Hnext.
      destruct (IH _ _ _ Hstep) as (groups & d' & Hloop & Hend & Htopo).
      { rewrite length_app. simpl. lia. }
      simpl in Hloop. rewrite Hloop.
      exists ((x :: queue) :: groups), d'. split; [done|]. split.
      * change (concat ((x :: queue) :: groups)) with ((x :: queue) ++ concat groups).
        by rewrite app_assoc.
      * intros [|k] gk u v Hgk Hv Hdep.
        -- injection Hgk as <-. left. by eapply kahn_queue_ready.
        -- destruct (Htopo k gk u v Hgk Hv Hdep) as [Hu|(j & gj & Hj & Hgj & Hu)].
           ++ apply elem_of_app in Hu as [Hu|Hu]; [by left|].
              right. exists 0%nat, (x :: queue). split; [lia|]. by split.
           ++ right. exists (S j), gj. split; [lia|]. by split.
Qed.

Lemma keys_length : (List.length keys <= List.length sts)%nat.
Proof.
  rewrite <- (length_fmap id sts). apply NoDup_subset_length; [apply keys_NoDup|].
  intros x. by rewrite elem_of_keys.
Qed.

Lemma buildDAG_spec :
  exists dag,
    buildDAG sts = Some dag
    /\ subtasks dag = sts
    /\ isValid dag = Some (bool_decide (parallelGroups dag ≠ []))
    /\ NoDup (concat (parallelGroups dag))
    /\ (forall v, scheduled dag v -> v ∈ keys)
    /\ (forall v, v ∈ keys ->
          scheduled dag v <-> forall u, depends sts u v -> scheduled dag u)
    /\ (forall k gk u v,
          parallelGroups dag !! k = Some gk -> v ∈ gk -> depends sts u v ->
          exists j gj, (j < k)%nat /\ parallelGroups dag !! j = Some gj /\ u ∈ gj).
Proof.
  destruct (groups_loop_spec (List.length sts) [] D0 _ kahn_init)
    as (groups & d' & Hloop & (Hnd & Hsub & Hdeg & Hzero) & Htopo).
  { pose proof keys_length. simpl. lia. }
  unfold buildDAG, buildDAG_fuel.
  destruct (add_edges sts (init_graph sts, init_inDegree sts)) as [g d0] eqn:Hbuild.
  simpl in *. rewrite Hloop.
  rewrite app_nil_r in Hnd, Hsub, Hzero.
  eexists. split; [reflexivity|]. simpl. split; [done|]. split; [|split; [|split; [|split]]].
  - f_equal. by destruct groups.
  - done.
  - intros v Hv. by apply Hsub.
  - intros v Hv. unfold scheduled. simpl. rewrite <- (Hzero v Hv), Hdeg. split.
    + intros Heq u Hdep.
      destruct (depends_keys _ _ _ Hdep) as [Hu _].
      destruct (decide (u ∈ concat groups)) as [|Hnot]; [done|]. exfalso.
      assert (Hle : (inflow g v (concat groups ++ [u]) <= inflow g v keys)%nat).
      { apply inflow_submseteq, NoDup_submseteq.
        - apply NoDup_app. split; [done|].
          split; [|apply NoDup_singleton]. by intros x Hx ->%list_elem_of_singleton.
        - intros x [Hx| ->%list_elem_of_singleton]%elem_of_app; [by apply Hsub | done]. }
      rewrite inflow_app in Hle. unfold inflow at 2 in Hle. simpl in Hle.
      pose proof (graph_edges sts u v) as Hedge. rewrite Hbuild in Hedge. simpl in Hedge.
      apply Hedge, occ_pos in Hdep. lia.
    + intros Hall.
      destruct (submseteq_Permutation (concat groups) keys) as [rest Hrest].
      { by apply NoDup_submseteq. }
      assert (Hsplit : inflow g v keys = (inflow g v (concat groups) + inflow g v rest)%nat).
      { unfold inflow. by rewrite Hrest, sum_list_with_app. }
      destruct (inflow g v rest) eqn:Hflow; [lia|]. exfalso.
      assert (Hpos : (0 < inflow g v rest)%nat) by lia.
      apply inflow_pos in Hpos as (u & Hu & Hvu).
      pose proof (graph_edges sts u v) as Hedge. rewrite Hbuild in Hedge. simpl in Hedge.
      apply Hedge in Hvu. specialize (Hall u Hvu).
      pose proof (keys_NoDup sts) as Hkn. rewrite Hrest in Hkn.
      apply NoDup_app in Hkn as (_ & Hdisj & _). by apply (Hdisj u).
  - intros k gk u v Hgk Hv Hdep.
    destruct (Htopo k gk u v Hgk Hv Hdep) as [Hu|?]; [by apply elem_of_nil in Hu | done].
Qed.

End Kahn.

(** *** Consequences *)

Lemma concat_lookup_unique (x : string) (ls : list (list string)) j k a b :
  NoDup (concat ls) -> ls !! j = Some a -> ls !! k = Some b ->
  x ∈ a -> x ∈ b -> j = k.
Proof.
  revert j k. induction ls as [|l ls IH]; intros j k Hnd Hj Hk Ha Hb.
  - by rewrite lookup_nil in Hj.
  - simpl in Hnd. apply NoDup_app in Hnd as (_ & Hdisj & Hnd).
    destruct j as [|j], k as [|k]; simpl in Hj, Hk.
    + done.
    + injection Hj as ->. exfalso. apply (Hdisj x Ha), elem_of_concat. eauto.
    + injection Hk as ->. exfalso. apply (Hdisj x Hb), elem_of_concat. eauto.
    + f_equal. by apply IH.
Qed.

(** [buildDAG] returns for every list of subtasks. *)
Lemma buildDAG_returns (sts : list Subtask) :
  exists dag, buildDAG sts = Some dag /\ subtasks dag = sts.
Proof. destruct (buildDAG_spec sts) as (dag & H1 & H2 & _). eauto. Qed.

(** In what [buildDAG] returns, a subtask that was put into a group
    has its dependencies in earlier groups, whatever the input. *)
Lemma buildDAG_dependencies_earlier (sts : list Subtask) (dag : DAG) :
  buildDAG sts = Some dag ->
  NoDup (concat (parallelGroups dag))
  /\ forall st d j k gj gk,
       st ∈ sts -> d ∈ dependsOn st ->
       parallelGroups dag !! k = Some gk -> id st ∈ gk ->
       parallelGroups dag !! j = Some gj -> d ∈ gj ->
       (j < k)%nat.
Proof.
  destruct (buildDAG_spec sts) as (dag' & Hb & _ & _ & Hnd & Hkeys & _ & Htopo).
  rewrite Hb. intros [= <-]. split; [done|].
  intros st d j k gj gk Hst Hd Hgk Hk Hgj Hj.
  assert (Hdep : depends sts d (id st)).
  { split; [|by exists st]. apply Hkeys, elem_of_concat. eauto. }
  destruct (Htopo k gk d (id st) Hgk Hk Hdep) as (j' & gj' & Hlt & Hgj' & Hj').
  by rewrite (concat_lookup_unique d _ j j' gj gj' Hnd Hgj Hgj' Hj Hj').
Qed.

(** A subtask on a dependency cycle is put into no group. *)
Lemma buildDAG_skips_cycles (sts : list Subtask) (dag : DAG) (v : string) :
  buildDAG sts = Some dag -> tc (depends sts) v v -> v ∉ concat (parallelGroups dag).
Proof.
  destruct (buildDAG_spec sts) as (dag' & Hb & _ & _ & _ & _ & _ & Htopo).
  rewrite Hb. intros [= <-] Hcycle Hv.
  assert (Hup : forall u w, tc (depends sts) u w ->
    forall k gk, parallelGroups dag' !! k = Some gk -> w ∈ gk ->
    exists j gj, (j < k)%nat /\ parallelGroups dag' !! j = Some gj /\ u ∈ gj).
  { intros u w Htc. induction Htc as [u w Hdep | u m w Hdep Htc IH]; intros k gk Hgk Hw.
    - by eapply Htopo.
    - destruct (IH k gk Hgk Hw) as (j & gj & Hlt & Hgj & Hm).
      destruct (Htopo j gj u m Hgj Hm Hdep) as (i & gi & Hlt' & Hgi & Hu).
      exists i, gi. split; [lia | done]. }
  apply elem_of_concat in Hv as (k & gk & Hgk & Hv).
  revert gk Hgk Hv. induction (lt_wf k) as [k _ IH]. intros gk Hgk Hv.
  destruct (Hup v v Hcycle k gk Hgk Hv) as (j & gj & Hlt & Hgj & Hj).
  by apply (IH j Hlt gj).
Qed.

(** Kahn's algorithm on an acyclic list: when the dependencies can be
    ranked, every subtask is put into a group and the groups form a
    topological partition. *)
Lemma buildDAG_topological (sts : list Subtask) (rank : string -> nat) :
  (forall u v, depends sts u v -> (rank u < rank v)%nat) ->
  exists dag,
    buildDAG sts = Some dag
    /\ subtasks dag = sts
    /\ topological_partition sts (parallelGroups dag).
Proof.
  intros Hrank.
  destruct (buildDAG_spec sts) as (dag & Hb & Hsts & _ & Hnd & Hkeys & Hclosed & Htopo).
  exists dag. split; [done|]. split; [done|].
  assert (Hall : forall n v, (rank v < n)%nat -> v ∈ keys_of sts -> scheduled dag v).
  { induction n as [|n IH]; intros v Hn Hv; [lia|].
    apply Hclosed; [done|]. intros u Hdep. apply IH.
    - specialize (Hrank u v Hdep). lia.
    - by apply depends_keys in Hdep as [? _]. }
  split.
  - intros st Hst. apply occ_NoDup; [done|].
    apply (Hall (S (rank (id st)))); [lia|].
    apply elem_of_keys, list_elem_of_fmap. by exists st.
  - by apply buildDAG_dependencies_earlier.
Qed.

(** *** The templates of [decompose] *)

(** C1, as the code has it.  [buildDAG] signals no error, whether or
    not the [dependsOn] edges contain a cycle: for every list of
    subtasks whose ids and dependency names are ordinary property names
    it returns a DAG object.  The subtasks that lie on a cycle appear in
    no parallel group, and the [isValid] flag is [false] exactly when no
    parallel group was formed. *)
Theorem buildDAG_accepts_cyclic_input (sts : list Subtask) :
  well_keyed sts ->
  exists dag,
    buildDAG sts = Some dag
    /\ subtasks dag = sts
    /\ isValid dag = Some (bool_decide (parallelGroups dag ≠ []))
    /\ forall v, tc (depends sts) v v -> v ∉ concat (parallelGroups dag).
Proof.
  intros _.
  destruct (buildDAG_spec sts) as (dag & Hb & Hsts & Hvalid & _).
  exists dag. split; [done|]. split; [done|]. split; [done|].
  intros v Hcycle. by apply (buildDAG_skips_cycles sts).
Qed.

Lemma buildDAG_accepts_cyclic_input_witness :
  exists dag,
    buildDAG cyclic_example = Some dag
    /\ subtasks dag = cyclic_example
    /\ isValid dag = Some (bool_decide (parallelGroups dag ≠ []))
    /\ forall v, tc (depends cyclic_example) v v -> v ∉ concat (parallelGroups dag).
Proof.
  apply (buildDAG_accepts_cyclic_input cyclic_example).
  unfold well_keyed, cyclic_example.
  repeat first [apply List.Forall_cons | apply List.Forall_nil | split | reflexivity].
Defined.

(** The subtasks [b] and [c] depend on each other, and all names are
    ordinary.  [buildDAG] returns a DAG object with the single group of
    [a], flagged as valid. *)
Lemma cyclic_input_accepted_as_valid :
  well_keyed cyclic_example
  /\ depends cyclic_example "c" "b"
  /\ depends cyclic_example "b" "c"
  /\ exists dag,
       buildDAG cyclic_example = Some dag
       /\ parallelGroups dag = [["a"]]
       /\ isValid dag = Some true.
Proof.
  split; [|split; [|split]].
  - unfold well_keyed, cyclic_example.
    repeat first [apply List.Forall_cons | apply List.Forall_nil | split | reflexivity].
  - split; [compute_done|]. eexists. split.
    + unfold cyclic_example. apply list_elem_of_further, list_elem_of_here.
    + split; [reflexivity | left].
  - split; [compute_done|]. eexists. split.
    + unfold cyclic_example. do 2 apply list_elem_of_further. apply list_elem_of_here.
    + split; [reflexivity | left].
  - eexists. split; [by vm_compute|]. by split.
Qed.

Section Templates.

Variable maxSubtasks : Z.
Variable js_length : string -> Z.
Variable js_wordCount : string -> Z.
Variable re_test : marker -> string -> bool.
Variable first_number : string -> option Z.
Variable includes_file : string -> bool.
Variable file_count : string -> option Z.
Variable substring : string -> Z -> Z -> string.
Variable now : Z.

Lemma process_file_rank i : rank_of batch_ranks (id (process_file i)) = 1%nat.
Proof. reflexivity. Qed.

Lemma batch_members t analysis st :
  st ∈ decomposeFileBatchTask file_count t analysis ->
  (id st = "scan_files" /\ dependsOn st = [])
  \/ (exists i, st = process_file i)
  \/ (id st = "aggregate_results"
      /\ forall u, u ∈ dependsOn st -> exists i, u = id (process_file i)).
Proof.
  unfold decomposeFileBatchTask.
  set (n := Z.to_nat (Z.min (default 5 (file_count t)) 10)).
  intros [Hst| ->%list_elem_of_singleton]%elem_of_app.
  - apply elem_of_cons in Hst as [->|Hst]; [by left|].
    right. left. apply list_elem_of_In, in_map_iff in Hst as (i & <- & _). by exists i.
  - right. right. split; [done|]. cbn [dependsOn]. intros u Hu.
    apply list_elem_of_In, in_map_iff in Hu as (st & <- & Hst).
    apply list_elem_of_In, list_elem_of_filter in Hst as [Htype Hst].
    apply elem_of_cons in Hst as [->|Hst]; [discriminate Htype|].
    apply list_elem_of_In, in_map_iff in Hst as (i & <- & _). by exists i.
Qed.

Lemma batch_ranked t analysis u v :
  depends (decomposeFileBatchTask file_count t analysis) u v ->
  (rank_of batch_ranks u < rank_of batch_ranks v)%nat.
Proof.
  intros (_ & st & Hst & <- & Hu).
  apply batch_members in Hst as [[_ Hnone]|[[i ->]|[Hid Hdeps]]].
  - rewrite Hnone in Hu. by apply elem_of_nil in Hu.
  - apply list_elem_of_singleton in Hu as ->. rewrite process_file_rank.
    vm_compute. lia.
  - destruct (Hdeps u Hu) as [i ->]. rewrite Hid, process_file_rank.
    vm_compute. lia.
Qed.

(** Every dependency of a listed subtask is ranked below it. *)
Ltac ranked :=
  let st := fresh "st" in
  let Hst := fresh "Hst" in
  let Hu := fresh "Hu" in
  intros (_ & st & Hst & <- & Hu);
  repeat (apply elem_of_cons in Hst as [-> | Hst]);
  try (by apply elem_of_nil in Hst);
  cbn [dependsOn] in Hu;
  repeat (apply elem_of_cons in Hu as [-> | Hu]);
  try (by apply elem_of_nil in Hu);
  vm_compute; lia.

Lemma steps_ranked t analysis u v :
  depends (decomposeStepByStepTask substring t analysis) u v ->
  (rank_of step_ranks u < rank_of step_ranks v)%nat.
Proof.
  unfold decomposeStepByStepTask. cbn [steps step_subtasks]. ranked.
Qed.

Lemma analysis_ranked t analysis u v :
  depends (decomposeAnalysisTask t analysis) u v ->
  (rank_of analysis_ranks u < rank_of analysis_ranks v)%nat.
Proof. unfold decomposeAnalysisTask. ranked. Qed.

Lemma generic_ranked t analysis u v :
  depends (decomposeGenericTask substring t analysis) u v ->
  (rank_of generic_ranks u < rank_of generic_ranks v)%nat.
Proof. unfold decomposeGenericTask. ranked. Qed.

(** Every template can be ranked. *)
Lemma template_ranked t analysis :
  exists rank, forall u v,
    depends (template includes_file file_count substring t analysis) u v ->
    (rank u < rank v)%nat.
Proof.
  unfold template.
  destruct (hasMultipleTargets analysis && includes_file t);
    [exists (rank_of batch_ranks); apply batch_ranked|].
  destruct (hasMultipleSteps analysis);
    [exists (rank_of step_ranks); apply steps_ranked|].
  destruct (hasDeepAnalysis analysis);
    [exists (rank_of analysis_ranks); apply analysis_ranked|].
  exists (rank_of generic_ranks); apply generic_ranked.
Qed.

(** The ids and the dependency names of the templates are ordinary
    property names. *)
Lemma process_file_ordinary i : ordinary (id (process_file i)) = true.
Proof.
  unfold ordinary, inherited. apply andb_true_intro. split; [|reflexivity].
  apply negb_true_iff, bool_decide_eq_false. unfold prototype_members. cbn [id process_file].
  intros H. repeat (apply elem_of_cons in H as [H|H]; [discriminate H|]).
  by apply elem_of_nil in H.
Qed.

Lemma template_well_keyed t analysis :
  well_keyed (template includes_file file_count substring t analysis).
Proof.
  unfold template.
  destruct (hasMultipleTargets analysis && includes_file t).
  - apply Forall_forall. intros st Hst.
    apply batch_members in Hst as [[-> ->] | [[i ->] | [-> Hdeps]]].
    + split; [reflexivity | constructor].
    + split; [apply process_file_ordinary|]. by repeat constructor.
    + split; [reflexivity|]. apply Forall_forall. intros u Hu.
      destruct (Hdeps u Hu) as [i ->]. apply process_file_ordinary.
  - destruct (hasMultipleSteps analysis); [|destruct (hasDeepAnalysis analysis)];
      unfold well_keyed;
      repeat first [apply List.Forall_cons | apply List.Forall_nil | split | reflexivity].
Qed.

(** C7. For every task text, [decompose] returns a DAG whose
    [parallelGroups] are a topological partition of its subtasks: the
    id of every subtask occurs exactly once in the groups, and no
    dependency of a subtask occurs in the group of the subtask or in a
    later group. *)
Theorem decompose_topological_partition (t : string) :
  exists dag,
    decompose maxSubtasks js_length js_wordCount re_test first_number includes_file
      file_count substring now t = Some dag
    /\ topological_partition (subtasks dag) (parallelGroups dag).
Proof.
  unfold decompose.
  set (analysis := analyzeComplexity maxSubtasks js_length js_wordCount re_test
                     first_number t).
  destruct (shouldDecompose analysis); cbn [negb].
  - destruct (template_ranked t analysis) as [rank Hrank].
    destruct (buildDAG_topological _ rank Hrank) as (dag & Hb & Hsts & Hpart).
    rewrite Hb. eexists. split; [reflexivity|]. cbn [subtasks parallelGroups].
    by rewrite Hsts.
  - eexists. split; [reflexivity|]. cbn [subtasks parallelGroups]. split.
    + intros st ->%list_elem_of_singleton. reflexivity.
    + intros st d j k gj gk ->%list_elem_of_singleton Hd. cbn [dependsOn] in Hd.
      by apply elem_of_nil in Hd.
Qed.

End Templates.

(** The batch template for three files. *)
Example batch_of_three :
  parallelGroups <$>
    buildDAG (decomposeFileBatchTask (fun _ => Some 3) "" 
                (analyzeComplexity 20 (fun _ => 0) (fun _ => 0) (fun _ _ => true)
                   (fun _ => None) ""))
  = Some [["scan_files"];
          ["process_file_0"; "process_file_1"; "process_file_2"];
          ["aggregate_results"]].
Proof. by vm_compute. Qed.

End DecomposerFacts.

(** ** The result aggregator *)

Module AggregatorFacts.

Import Aggregator.

Section Facts.

Variable default_strategy : AggregationStrategy.
Variable conflictThreshold : Q.
Variable JSON_stringify : value -> option string.
Variable JSON_stringify_pretty : value -> option string.
Variable String_ : value -> string.
Variable word_similarity : string -> string -> Q.
Variable extractKeyPoints : string -> value.
Variable substring : string -> Z -> Z -> string.

#[local] Abbreviation run := (aggregate default_strategy conflictThreshold JSON_stringify
                   JSON_stringify_pretty String_ word_similarity
                   extractKeyPoints substring).

(** A list of one result is returned as it is, whatever the strategy. *)
Lemma aggregate_single (r : Entry) (options : Options) :
  run (Some [r]) options =
    Returned {| success := true; payload := Some (result r); error := None;
                source := Some "single"; out_metadata := metadata r; count := None;
                uniqueCount := None; conflictCount := None; vote_confidence := None;
                voteDistribution := None; selectedFrom := None |}.
Proof. reflexivity. Qed.

(** Re-aggregating a final result gives back its payload. *)
Lemma reaggregate_payload (final : Aggregated) (options : Options) :
  exists again,
    run (Some [as_entry final]) options = Returned again
    /\ payload_of again = payload_of final.
Proof. eexists. split; [apply aggregate_single | reflexivity]. Qed.

(** [concat] returns for every non-empty list. *)
Lemma aggregate_concat_returns (r : Entry) (rs : list Entry) (options : Options) :
  strategy options = Some CONCAT ->
  exists final, run (Some (r :: rs)) options = Returned final /\ success final = true.
Proof.
  intros Hs. unfold aggregate. rewrite Hs. simpl.
  destruct rs; eexists; split; reflexivity.
Qed.

(** [smart_merge] compares the results pairwise, which needs a text for
    each of them: it returns when every result is a string or has a
    JSON text. *)
Lemma conflictsWith_returns (r : Entry) (later : list Entry) :
  is_Some (key_of JSON_stringify r) ->
  Forall (fun r' => is_Some (key_of JSON_stringify r')) later ->
  exists conflicts,
    conflictsWith conflictThreshold JSON_stringify word_similarity r later
    = Returned conflicts.
Proof.
  intros [sa Ha] Hl. induction Hl as [|r' rest [sb Hb] _ [conflicts IH]]; simpl.
  - by eexists.
  - unfold calculateSimilarity. unfold key_of in Ha, Hb.
    destruct (result r); destruct (result r');
      simpl in Ha, Hb; rewrite ?Ha, ?Hb, IH; by eexists.
Qed.

Lemma detectConflicts_returns (rs : list Entry) :
  Forall (fun r => is_Some (key_of JSON_stringify r)) rs ->
  exists conflicts,
    detectConflicts conflictThreshold JSON_stringify word_similarity rs
    = Returned conflicts.
Proof.
  induction 1 as [|r rest Hr Hrest [more IH]]; simpl; [by eexists|].
  destruct (conflictsWith_returns r rest Hr Hrest) as [conflicts ->].
  rewrite IH. by eexists.
Qed.

Lemma dedup_from_Forall (P : Entry -> Prop) (rs : list Entry) :
  Forall P rs -> forall seen, Forall P (dedup_from JSON_stringify seen rs).
Proof.
  induction 1 as [|r rest Hr _ IH]; intros seen; simpl; [constructor|].
  case_decide; [apply IH | constructor; [done | apply IH]].
Qed.

Lemma aggregate_smart_merge_returns (r : Entry) (rs : list Entry) (options : Options) :
  strategy options = Some SMART_MERGE ->
  Forall (fun r' => is_Some (key_of JSON_stringify r')) (r :: rs) ->
  exists final, run (Some (r :: rs)) options = Returned final /\ success final = true.
Proof.
  intros Hs Hkeys. unfold aggregate. rewrite Hs. simpl.
  destruct rs as [|r' rs]; [eexists; split; reflexivity|].
  unfold aggregateBySmartMerge.
  destruct (detectConflicts_returns (deduplicate JSON_stringify (r :: r' :: rs)))
    as [conflicts ->].
  - by apply dedup_from_Forall.
  - eexists; split; reflexivity.
Qed.

(** C9. For the [concat] and [smart_merge] strategies and a non-empty
    list of results: if aggregating the list returns a final result,
    then aggregating the one-element list made of that final result
    returns the same payload.  Aggregating the list does return a final
    result with [concat], and with [smart_merge] when every result is
    a string or has a JSON text. *)
Theorem aggregation_idempotent (rs : list Entry) (s : AggregationStrategy)
    (original : option string) (prio : option (option string -> Q)) :
  rs ≠ [] ->
  s = CONCAT \/ s = SMART_MERGE ->
  let options := {| strategy := Some s; originalTask := original; priorities := prio |} in
  (forall final,
     run (Some rs) options = Returned final ->
     exists again,
       run (Some [as_entry final]) options = Returned again
       /\ payload_of again = payload_of final)
  /\ (s = CONCAT \/ Forall (fun r => is_Some (key_of JSON_stringify r)) rs ->
      exists final, run (Some rs) options = Returned final).
Proof.
  intros Hne Hs options. split.
  - intros final _. apply reaggregate_payload.
  - destruct rs as [|r rs]; [done|]. intros Hreturns.
    destruct Hs as [-> | ->].
    + destruct (aggregate_concat_returns r rs options eq_refl) as (final & Hfinal & _).
      by exists final.
    + destruct Hreturns as [Hs | Hkeys]; [discriminate Hs|].
      destruct (aggregate_smart_merge_returns r rs options eq_refl Hkeys)
        as (final & Hfinal & _).
      by exists final.
Qed.

(** C10. With a missing or an empty results list, [aggregate] returns,
    for every strategy and every option, the failure value: [success] is
    [false], an error message is set and there is no payload; it does
    not throw. *)
Theorem aggregate_empty_is_failure (options : Options) :
  (exists failed,
     run None options = Returned failed
     /\ success failed = false
     /\ error failed = Some "没有结果可聚合"
     /\ payload failed = None)
  /\ (exists failed,
        run (Some []) options = Returned failed
        /\ success failed = false
        /\ error failed = Some "没有结果可聚合"
        /\ payload failed = None).
Proof. split; eexists; repeat split; reflexivity. Qed.

End Facts.

Import AggregatorScenario.

(** Two results merged, and the merged text aggregated again. *)
Lemma aggregation_idempotent_witness :
  exists final again,
    plain_aggregate (Some two_texts) (with_strategy SMART_MERGE) = Returned final
    /\ payload final
       = Some (VStr ("[Agent 1]" ++ nl ++ "A" ++ separator ++ "[Agent 2]" ++ nl ++ "B"))
    /\ plain_aggregate (Some [as_entry final]) (with_strategy SMART_MERGE)
       = Returned again
    /\ payload_of again = payload_of final.
Proof.
  destruct (aggregation_idempotent SMART_MERGE (4 # 5) (fun _ => None) (fun _ => None)
              (fun _ => "undefined") (fun _ _ => 0%Q) (fun _ => VNull) (fun s _ _ => s)
              two_texts SMART_MERGE None None ltac:(done) (or_intror eq_refl))
    as [Hsame Hreturns].
  destruct (Hsame _ eq_refl) as (again & Hagain & Hpayload).
  eexists _, again.
  split; [reflexivity|]. split; [reflexivity|]. split; [exact Hagain | exact Hpayload].
Defined.

(** Two results concatenated, and the aggregate aggregated again. *)
Example concat_twice :
  exists final,
    plain_aggregate (Some two_texts) (with_strategy CONCAT) = Returned final
    /\ payload final = Some (VStr ("A" ++ separator ++ "B")%string)
    /\ (payload <$> match plain_aggregate (Some [as_entry final]) (with_strategy CONCAT) with
                    | Returned a => Some a
                    | Thrown _ => None
                    end) = Some (payload final).
Proof. eexists. repeat split. Qed.

(** A result without a JSON text next to another one: [smart_merge]
    throws where [concat] returns. *)
Example smart_merge_of_undefined_throws :
  is_thrown (plain_aggregate (Some one_undefined) (with_strategy SMART_MERGE)) = true
  /\ is_thrown (plain_aggregate (Some one_undefined) (with_strategy CONCAT)) = false.
Proof. split; reflexivity. Qed.

End AggregatorFacts.

(** ** The retry executor *)

Module RetryFacts.

Import Retry.

Lemma next_of_Simple : next_branch downgradeChain (Some "Simple") = None.
Proof. reflexivity. Qed.
Lemma next_of_Standard : next_branch downgradeChain (Some "Standard") = Some "Simple".
Proof. reflexivity. Qed.
Lemma next_of_Batch : next_branch downgradeChain (Some "Batch") = Some "Standard".
Proof. reflexivity. Qed.
Lemma next_of_Orchestrator : next_branch downgradeChain (Some "Orchestrator") = Some "Standard".
Proof. reflexivity. Qed.
Lemma next_of_Deep : next_branch downgradeChain (Some "Deep") = Some "Standard".
Proof. reflexivity. Qed.

Section Downgrade.

Variable R : Type.
Variable fn : nat -> Context -> completion R.

(** One round of [downgradeAndRetry], as an equation. *)
Lemma downgradeAndRetry_step fuel chain calls context :
  downgradeAndRetry (S fuel) chain fn calls context =
    match next_branch chain (branch context) with
    | None =>
        Some (Returned
                (failure R (Some ("无法降级分支: "
                                   ++ default "undefined" (branch context))%string)
                         "已到最低策略级别"), [])
    | Some downgradeTo =>
        let downgradedContext :=
          {| branch := Some downgradeTo; downgraded := true;
             originalBranch := branch context |} in
        match fn calls downgradedContext with
        | Returned r =>
            Some (Returned
                    {| success := true; result := Some r; error := None;
                       reason := None; was_downgraded := true;
                       from := branch context; to := Some downgradeTo;
                       attempts := None; errorType := None |},
                  [downgradeTo])
        | Thrown e =>
            match next_branch chain (Some downgradeTo) with
            | Some _ =>
                match downgradeAndRetry fuel chain fn (S calls) downgradedContext with
                | Some (out, visited) => Some (out, downgradeTo :: visited)
                | None => None
                end
            | None => Some (Thrown e, [downgradeTo])
            end
        end
    end.
Proof. reflexivity. Qed.

(** From [Simple] nothing is tried. *)
Lemma downgrade_from_Simple extra calls d o :
  exists r,
    downgradeAndRetry (S extra) downgradeChain fn calls
      {| branch := Some "Simple"; downgraded := d; originalBranch := o |}
    = Some (Returned r, []) /\ success r = false.
Proof.
  rewrite downgradeAndRetry_step. cbn [branch]. rewrite next_of_Simple.
  eexists. split; reflexivity.
Qed.

(** From [Standard] the operation is tried once, under [Simple]. *)
Lemma downgrade_from_Standard extra calls d o :
  exists out,
    downgradeAndRetry (S extra) downgradeChain fn calls
      {| branch := Some "Standard"; downgraded := d; originalBranch := o |}
    = Some (out, ["Simple"])
    /\ failed out =
       is_thrown (fn calls {| branch := Some "Simple"; downgraded := true;
                              originalBranch := Some "Standard" |}).
Proof.
  rewrite downgradeAndRetry_step. cbn [branch]. rewrite next_of_Standard.
  cbn zeta. destruct (fn calls _) as [r|e].
  - eexists. split; reflexivity.
  - rewrite next_of_Simple. eexists. split; reflexivity.
Qed.

(** From a tier above [Standard] the operation is tried under
    [Standard] and, if that fails, under [Simple]. *)
Lemma downgrade_from_above extra calls tier d o :
  next_branch downgradeChain (Some tier) = Some "Standard" ->
  exists out visited,
    downgradeAndRetry (S (S extra)) downgradeChain fn calls
      {| branch := Some tier; downgraded := d; originalBranch := o |}
    = Some (out, visited)
    /\ (visited = ["Standard"] /\ failed out = false
           /\ is_thrown (fn calls {| branch := Some "Standard"; downgraded := true;
                                     originalBranch := Some tier |}) = false
        \/ visited = ["Standard"; "Simple"]
           /\ failed out =
              is_thrown (fn (S calls) {| branch := Some "Simple"; downgraded := true;
                                         originalBranch := Some "Standard" |})).
Proof.
  intros Hnext. rewrite downgradeAndRetry_step. cbn [branch]. rewrite Hnext.
  cbn zeta. destruct (fn calls _) as [r|e].
  - eexists _, _. split; [reflexivity|]. left. repeat split.
  - rewrite next_of_Standard.
    destruct (downgrade_from_Standard extra (S calls) true (Some tier))
      as (out & -> & Hout).
    eexists _, _. split; [reflexivity|]. right. split; [reflexivity|exact Hout].
Qed.

(** C8. From every starting tier the downgrade process returns: with
    three units of fuel or more it gives the same completion, after at
    most two downgrades that follow the configured chain (Deep,
    Orchestrator and Batch to Standard, Standard to Simple).  The
    completion is either a success or a terminal failure, a failure is
    reached only at a tier that has no further downgrade entry, where
    nothing is tried after it, and an operation that fails every time
    ends in such a failure. *)
Theorem downgrade_chain_terminates (d : bool) (o : option string) :
  Forall (fun tier =>
    exists out visited,
      (forall extra,
         downgradeAndRetry (3 + extra) downgradeChain fn 0
           {| branch := Some tier; downgraded := d; originalBranch := o |}
         = Some (out, visited))
      /\ (length visited <= 2)%nat
      /\ follows_chain downgradeChain tier visited
      /\ (failed out = false
          \/ failed out = true
             /\ next_branch downgradeChain (Some (List.last visited tier)) = None)
      /\ ((forall calls context, is_thrown (fn calls context) = true) ->
          failed out = true))
    tiers.
Proof.
  assert (Habove : forall tier,
    next_branch downgradeChain (Some tier) = Some "Standard" ->
    exists out visited,
      (forall extra,
         downgradeAndRetry (3 + extra) downgradeChain fn 0
           {| branch := Some tier; downgraded := d; originalBranch := o |}
         = Some (out, visited))
      /\ (length visited <= 2)%nat
      /\ follows_chain downgradeChain tier visited
      /\ (failed out = false
          \/ failed out = true
             /\ next_branch downgradeChain (Some (List.last visited tier)) = None)
      /\ ((forall calls context, is_thrown (fn calls context) = true) ->
          failed out = true)).
  { intros tier Hnext.
    destruct (downgrade_from_above 0 0 tier d o Hnext) as (out & visited & Hrun & Hcase).
    exists out, visited. split.
    - intros extra.
      destruct (downgrade_from_above (S extra) 0 tier d o Hnext)
        as (out' & visited' & Hrun' & Hcase').
      change (3 + extra)%nat with (S (S (S extra))). rewrite Hrun'.
      revert Hrun Hrun'. rewrite !downgradeAndRetry_step. cbn [branch].
      rewrite Hnext. cbn zeta. destruct (fn 0%nat _) as [r|e].
      + intros [= <- <-] [= <- <-]. reflexivity.
      + rewrite next_of_Standard, !downgradeAndRetry_step. cbn [branch].
        rewrite next_of_Standard. cbn zeta. destruct (fn 1%nat _) as [r|e'].
        * intros [= <- <-] [= <- <-]. reflexivity.
        * rewrite next_of_Simple. intros [= <- <-] [= <- <-]. reflexivity.
    - destruct Hcase as [(-> & Hok & Hfn)|[-> Hf]].
      + split; [simpl; lia|]. split; [by split|]. split; [by left|].
        intros Hall. by rewrite Hall in Hfn.
      + split; [simpl; lia|]. split; [by repeat split|]. split.
        * destruct (failed out); [right; split; reflexivity | by left].
        * intros Hall. by rewrite Hf, Hall. }
  repeat first [apply List.Forall_cons | apply List.Forall_nil].
  - destruct (downgrade_from_Simple 0 0 d o) as (r & Hrun & Hr).
    exists (Returned r), []. split.
    + intros extra. change (3 + extra)%nat with (S (S (S extra))).
      revert Hrun. rewrite !downgradeAndRetry_step. cbn [branch].
      rewrite next_of_Simple. intros [= <-]. reflexivity.
    + split; [simpl; lia|]. split; [exact I|]. simpl. rewrite Hr. split; [|done].
      right. split; reflexivity.
  - destruct (downgrade_from_Standard 0 0 d o) as (out & Hrun & Hout).
    exists out, ["Simple"]. split.
    + intros extra. change (3 + extra)%nat with (S (S (S extra))).
      revert Hrun. rewrite !downgradeAndRetry_step. cbn [branch].
      rewrite next_of_Standard. cbn zeta. destruct (fn 0%nat _) as [r|e].
      * intros [= <-]. reflexivity.
      * rewrite next_of_Simple. intros [= <-]. reflexivity.
    + split; [simpl; lia|]. split; [by split|]. split.
      * destruct (failed out); [right; split; reflexivity | by left].
      * intros Hall. by rewrite Hout, Hall.
  - apply Habove. reflexivity.
  - apply Habove. reflexivity.
  - apply Habove. reflexivity.
Qed.

End Downgrade.

(** An operation that fails under every tier: from [Deep] it is tried
    under [Standard] and [Simple], and the second exception leaves
    [downgradeAndRetry]. *)
Example always_exhausted_from_Deep :
  downgradeAndRetry 3 downgradeChain
    (fun _ _ => Thrown "out of memory" : completion unit) 0
    {| branch := Some "Deep"; downgraded := false; originalBranch := None |}
  = Some (Thrown "out of memory", ["Standard"; "Simple"]).
Proof. reflexivity. Qed.

(** With a chain that has a cycle the process does not end: every
    amount of fuel is used up. *)
Example cyclic_chain_runs_out (fuel : nat) :
  downgradeAndRetry fuel (list_to_map [("A", "B"); ("B", "A")])
    (fun _ _ => Thrown "out of memory" : completion unit) 0
    {| branch := Some "A"; downgraded := false; originalBranch := None |}
  = None.
Proof.
  assert (H : forall fuel calls b d o, (b = "A" \/ b = "B") ->
    downgradeAndRetry fuel (list_to_map [("A", "B"); ("B", "A")])
      (fun _ _ => Thrown "out of memory" : completion unit) calls
      {| branch := Some b; downgraded := d; originalBranch := o |} = None).
  { clear fuel. induction fuel as [|fuel IH]; intros calls b d o Hb; [reflexivity|].
    destruct Hb as [-> | ->].
    - rewrite downgradeAndRetry_step. cbn [branch].
      change (next_branch _ (Some "A")) with (Some "B"). cbn zeta. cbn match.
      change (next_branch _ (Some "B")) with (Some "A"). cbn match.
      rewrite IH; [reflexivity | by right].
    - rewrite downgradeAndRetry_step. cbn [branch].
      change (next_branch _ (Some "B")) with (Some "A"). cbn zeta. cbn match.
      change (next_branch _ (Some "A")) with (Some "B"). cbn match.
      rewrite IH; [reflexivity | by left]. }
  apply H. by left.
Qed.

End RetryFacts.

(** ** The router *)

Module RouterFacts.

Import Registry Router RouterScenario.

(** A route found directly never carries the flag. *)
Lemma assign_isFallback now s candidates st strat r s' :
  assign now s candidates st strat = (Returned r, s') -> isFallback r = None.
Proof.
  unfold assign.
  destruct (selectAgent s candidates st strat) as [[a|] s1]; [|discriminate].
  by intros [= <- _].
Qed.

(** What [route] returns when discovery finds no candidate: either the
    route of the relaxed subtask, which is not flagged, or the route to
    the default agent, which is. *)
Lemma route_through_fallback default_strategy now s st options r s' :
  candidates_for s st (excludeAgents options) = [] ->
  route default_strategy now s st options = (Returned r, s') ->
  (isFallback r = None /\ strategy r = LOAD_BALANCE)
  \/ (isFallback r = Some true /\ strategy r = "fallback_default").
Proof.
  intros Hnone. unfold route. rewrite Hnone.
  destruct (fallbackEnabled s && negb (opt_isFallback options)); [|discriminate].
  unfold fallbackRoute, route_no_fallback.
  destruct (candidates_for s _ []) as [|c cs] eqn:Hrelaxed.
  - destruct (head (getAllAgents (agents s))) as [a|]; [|discriminate].
    intros [= <- _]. right. split; reflexivity.
  - destruct (assign now s (c :: cs) _ LOAD_BALANCE) as [[r'|e] s1] eqn:Ha.
    + intros [= <- _]. left. split.
      * eapply assign_isFallback; exact Ha.
      * revert Ha. unfold assign.
        destruct (selectAgent _ _ _ _) as [[a|] s2]; [|discriminate].
        by intros [= <- _].
    + destruct (head (getAllAgents (agents s1))) as [a|]; [|discriminate].
      intros [= <- _]. right. split; reflexivity.
Qed.

(** C6. A registry whose only agent can [read], and a subtask that
    requires [read] and [write]: discovery finds no candidate, the
    fallback relaxes the requirement to [read] and routes the subtask to
    the agent, and the route that comes back has no [isFallback] field. *)
Theorem relaxed_fallback_route_not_flagged :
  let s := {| agents := [worker "reader" ["read"] 1]; roundRobinIndex := 0;
              fallbackEnabled := true |} in
  let st := job "s1" ["read"; "write"] [] in
  candidates_for s st [] = []
  /\ exists r s',
       route CAPABILITY_MATCH 0 s st plain = (Returned r, s')
       /\ Router.agentId r = "reader"
       /\ strategy r = LOAD_BALANCE
       /\ isFallback r = None.
Proof.
  split; [reflexivity|]. eexists _, _. repeat split.
Qed.

(** The sibling path: when the relaxed search fails too, the route to
    the default agent is flagged. *)
Example default_agent_route_flagged :
  let s := {| agents := [worker "writer" ["write"] 1]; roundRobinIndex := 0;
              fallbackEnabled := true |} in
  let st := job "s1" ["read"; "search"] [] in
  exists r s',
    route CAPABILITY_MATCH 0 s st plain = (Returned r, s')
    /\ Router.agentId r = "writer"
    /\ isFallback r = Some true.
Proof. eexists _, _. repeat split. Qed.

End RouterFacts.

(** ** The scheduler *)

Module SchedulerFacts.

Import Aggregator Scheduler SchedulerScenario.

(** *** Admission slots in [executeSingle] *)

Lemma release_drops_holder c b t : t ∉ holders (releaseSlot c b t) b.
Proof.
  destruct c as [s|db]; simpl.
  - unfold Concurrency.Local.releaseSlot.
    destruct (s !! b) as [slot|] eqn:E.
    + rewrite lookup_insert_eq. simpl. set_solver.
    + rewrite E. simpl. set_solver.
  - unfold Concurrency.Redis.releaseSlot, Concurrency.Redis.srem.
    destruct (db !! _) as [members|] eqn:E.
    + case_decide.
      * rewrite lookup_delete_eq. simpl. set_solver.
      * rewrite lookup_insert_eq. simpl. set_solver.
    + rewrite E. simpl. set_solver.
Qed.

(** The path that reaches step 10 gives the slot back, whether the
    sub-agent succeeded or the retry executor reported a failure. *)
Lemma slot_released_when_steps_return
    classifyError retryableErrors maxRetries w c b t :
  buildTaskConfig w b = Returned tt ->
  (chatId w = None \/ sendMessage w = Returned tt) ->
  stopUpdater w = Returned tt ->
  t ∉ holders (run_with_slot classifyError retryableErrors maxRetries w c b t).2 b.
Proof.
  intros Hcfg Hmsg Hstop. unfold run_with_slot. rewrite Hcfg, Hstop.
  assert (Hsend : match chatId w with Some _ => sendMessage w | None => Returned tt end
                  = Returned tt).
  { destruct Hmsg as [-> | Hs]; [done|]. by destruct (chatId w). }
  rewrite Hsend.
  destruct (insertTaskHistory w); simpl; [|apply release_drops_holder].
  destruct (match chatId w with Some _ => updateMessage w | None => Returned tt end);
    simpl; apply release_drops_holder.
Qed.

(** C5. On an idle Redis-backed controller a Standard task acquires
    its slot through [waitForSlot]; sending the progress message then
    throws.  The [catch] block turns the exception into an
    [EXECUTION_ERROR] result, and the task id still holds the slot of
    the tier when [executeSingle] has returned, while the same call in a
    world where the message is sent leaves no holder. *)
Theorem slot_leaks_when_step_throws :
  let run w := executeSingle 60 (fun db => db) (fun _ => "UNKNOWN") [] 5 w
                 (RedisController ∅) None "task_1" in
  (exists r c,
     run channel_down = (Returned r, c)
     /\ success r = false
     /\ errorType r = Some "EXECUTION_ERROR"
     /\ holders c "Standard" = {["task_1"]})
  /\ (exists r c,
        run calm = (Returned r, c)
        /\ success r = true
        /\ holders c "Standard" = ∅).
Proof.
  split; eexists _, _; repeat split; by vm_compute.
Qed.

(** *** Worker load in [executeDAG] *)

(** C3. One subtask is routed to [alpha]; its execution throws, the
    subtask is re-routed to [beta] and completes there.  When
    [executeDAG] has returned no route is pending any more, yet the
    [currentLoad] of [beta] is still 1.  On the path without failure the
    load of the executing agent goes back to 0, and without retry the
    load of [alpha] stays at 1 for the abandoned subtask. *)
Theorem load_not_released_after_reroute :
  let '(routes, s1) := routeSubtasks Router.CAPABILITY_MATCH 0 one_job two_workers in
  let rerouted :=
    executeDAG Router.CAPABILITY_MATCH 0 second_time_lucky true one_job routes s1 in
  let direct :=
    executeDAG Router.CAPABILITY_MATCH 0 always_ok true one_job routes s1 in
  let abandoned :=
    executeDAG Router.CAPABILITY_MATCH 0 (fun _ _ _ => Thrown "worker crashed") false
      one_job routes s1 in
  (Router.agentId <$> routes !! "s1" = Some "alpha" /\ load_of s1 "alpha" = Some 1)
  /\ (completed rerouted = {["s1"]}
      /\ er_agentId <$> results rerouted !! "s1" = Some "beta"
      /\ load_of (router rerouted) "alpha" = Some 0
      /\ load_of (router rerouted) "beta" = Some 1)
  /\ (completed direct = {["s1"]}
      /\ load_of (router direct) "alpha" = Some 0
      /\ load_of (router direct) "beta" = Some 0)
  /\ (completed abandoned = ∅
      /\ load_of (router abandoned) "alpha" = Some 1).
Proof. by vm_compute. Qed.

End SchedulerFacts.

(** ** The multi-agent path *)

Module MultiAgentFacts.

Import Aggregator Scheduler MultiAgent.

Lemma deps_done_spec (done : gset string) st :
  deps_done done st = true <-> forall d, d ∈ Decomposer.dependsOn st -> d ∈ done.
Proof.
  unfold deps_done. rewrite forallb_forall. split.
  - intros H d Hd. apply list_elem_of_In in Hd.
    specialize (H d Hd). by apply bool_decide_eq_true in H.
  - intros H d Hd. apply bool_decide_eq_true, H. by apply list_elem_of_In.
Qed.

Lemma executable_of_ready routes dag (done : gset string) group i st :
  i ∈ executable_of routes dag done group ->
  find_subtask dag i = Some st ->
  forall d, d ∈ Decomposer.dependsOn st -> d ∈ done.
Proof.
  unfold executable_of. intros Hi Hf.
  apply list_elem_of_In, filter_In in Hi as [_ Hi].
  rewrite Hf in Hi. destruct (routes !! i); [|discriminate].
  by apply deps_done_spec.
Qed.

Lemma find_subtask_elem dag i st :
  find_subtask dag i = Some st -> st ∈ Decomposer.subtasks dag /\ Decomposer.id st = i.
Proof.
  unfold find_subtask. intros H. apply find_some in H as [Hin Hid].
  split; [by apply list_elem_of_In | by apply bool_decide_eq_true in Hid].
Qed.

(** *** Results in [executeDAG] *)

Section ExecuteDAG.

Variable default_strategy : string.
Variable now : Z.
Variable execute : string -> State -> option (completion Outcome * State).
Variable retry : bool.
Variable dag : Decomposer.DAG.
Variable routes : gmap string Router.Route.

#[local] Abbreviation settled := (MultiAgent.settled execute dag).
#[local] Abbreviation execute_one :=
  (MultiAgent.execute_one default_strategy now execute retry routes dag).
#[local] Abbreviation execute_group :=
  (MultiAgent.execute_group default_strategy now execute retry routes dag).
#[local] Abbreviation execute_groups :=
  (MultiAgent.execute_groups default_strategy now execute retry routes dag).

Lemma settled_record run i st r s' route s0 s1 :
  settled run ->
  find_subtask dag i = Some st ->
  executeSubtask execute route st s0 = Some (Returned r, s1) ->
  (forall d, d ∈ Decomposer.dependsOn st -> d ∈ completed run) ->
  settled (record_result run i r s').
Proof.
  intros [Hdom Hall] Hfind Hexec Hdeps. split; simpl.
  - rewrite dom_insert_L. by rewrite Hdom.
  - intros j x Hj. destruct (decide (j = i)) as [->|Hne].
    + rewrite lookup_insert_eq in Hj. injection Hj as <-.
      exists st. split; [done|]. split; [eauto|].
      intros d Hd. apply elem_of_union_r. by apply Hdeps.
    + rewrite lookup_insert_ne in Hj by done.
      destruct (Hall j x Hj) as (st' & Hf & He & Hd). exists st'.
      split; [done|]. split; [done|]. intros d Hd'. apply elem_of_union_r. by apply Hd.
Qed.

Lemma execute_one_settled run i run' :
  settled run ->
  (forall st, find_subtask dag i = Some st ->
     forall d, d ∈ Decomposer.dependsOn st -> d ∈ completed run) ->
  execute_one run i = Some run' ->
  settled run' /\ completed run ⊆ completed run'.
Proof.
  intros Hrun Hdeps. unfold MultiAgent.execute_one.
  destruct (routes !! i) as [route|]; [|by intros [= <-]].
  destruct (find_subtask dag i) as [st|] eqn:Hfind; [|by intros [= <-]].
  specialize (Hdeps st eq_refl).
  destruct (executeSubtask execute route st (state run)) as [[[r|e] s1]|] eqn:E0; [| |done].
  - intros [= <-]. split; [|simpl; set_solver].
    by apply (settled_record run i st r _ route (state run) s1).
  - destruct retry; [|by intros [= <-]].
    destruct (Router.reRoute default_strategy now (agentRouter s1) route)
      as [[newRoute|e'] r2]; [|by intros [= <-]].
    destruct (executeSubtask execute newRoute st (with_router s1 r2))
      as [[[r|e''] s3]|] eqn:E1; [| |done].
    + intros [= <-]. split; [|simpl; set_solver].
      by apply (settled_record run i st r _ newRoute (with_router s1 r2) s3).
    + by intros [= <-].
Qed.

Lemma execute_group_settled (ready : gset string) l run run' :
  settled run ->
  ready ⊆ completed run ->
  (forall i st, i ∈ l -> find_subtask dag i = Some st ->
     forall d, d ∈ Decomposer.dependsOn st -> d ∈ ready) ->
  execute_group run l = Some run' ->
  settled run' /\ completed run ⊆ completed run'.
Proof.
  revert run. induction l as [|i l IH]; intros run Hrun Hsub Hl; simpl.
  - by intros [= <-].
  - destruct (execute_one run i) as [run1|] eqn:E1; [|done].
    destruct (execute_one_settled run i run1 Hrun) as [H1 H2]; [|done|].
    { intros st Hf d Hd. apply Hsub. eapply Hl; [left|done..]. }
    intros Hrest. destruct (IH run1 H1) as [H3 H4]; [set_solver| |done|].
    + intros j st Hj. apply Hl. by right.
    + split; [done | set_solver].
Qed.

Lemma execute_groups_settled groups run run' :
  settled run -> execute_groups run groups = Some run' -> settled run'.
Proof.
  revert run. induction groups as [|group groups IH]; intros run Hrun; simpl.
  - by intros [= <-].
  - destruct (execute_group run _) as [run1|] eqn:E1; [|done].
    apply IH.
    apply (execute_group_settled (completed run)
             (executable_of routes dag (completed run) group) run run1); [done..| |done].
    intros i st Hi Hf. by eapply executable_of_ready.
Qed.

Lemma executeDAG_settled s run :
  executeDAG default_strategy now execute retry dag routes s = Some run -> settled run.
Proof.
  apply execute_groups_settled.
  split; simpl; [by rewrite dom_empty_L | by intros i r; rewrite lookup_empty].
Qed.

(** [executeDAG] ends when the execution of each of its subtasks ends. *)
Hypothesis execute_ends :
  forall st s, st ∈ Decomposer.subtasks dag -> is_Some (execute (Decomposer.task st) s).

Lemma executeSubtask_ends route st s :
  st ∈ Decomposer.subtasks dag -> is_Some (executeSubtask execute route st s).
Proof.
  intros Hst. unfold executeSubtask.
  destruct (Registry.getAgent _ _); [|done].
  destruct (execute_ends st s Hst) as [[[r|e] s1] ->]; done.
Qed.

Lemma execute_one_ends run i : is_Some (execute_one run i).
Proof.
  unfold MultiAgent.execute_one.
  destruct (routes !! i) as [route|]; [|done].
  destruct (find_subtask dag i) as [st|] eqn:Hfind; [|done].
  apply find_subtask_elem in Hfind as [Hst _].
  destruct (executeSubtask_ends route st (state run) Hst) as [[[r|e] s1] ->]; [done|].
  destruct retry; [|done].
  destruct (Router.reRoute _ _ _ _) as [[newRoute|e'] r2]; [|done].
  destruct (executeSubtask_ends newRoute st (with_router s1 r2) Hst) as [[[r|e''] s3] ->];
    done.
Qed.

Lemma execute_group_ends l : forall run, is_Some (execute_group run l).
Proof.
  induction l as [|i l IH]; intros run; simpl; [done|].
  destruct (execute_one_ends run i) as [run1 ->]. apply IH.
Qed.

Lemma executeDAG_ends s :
  is_Some (executeDAG default_strategy now execute retry dag routes s).
Proof.
  unfold executeDAG. generalize {| state := s; results := ∅; completed := ∅ |}.
  induction (Decomposer.parallelGroups dag) as [|group groups IH]; intros run; simpl; [done|].
  destruct (execute_group_ends (executable_of routes dag (completed run) group) run)
    as [run1 ->].
  apply IH.
Qed.

End ExecuteDAG.

(** *** Partial results in [executeMultiAgent] *)

Section Execute.

Variable default_strategy : string.
Variable now : Z.
Variable polls : nat.
Variable others : gmap string (gset string) -> gmap string (gset string).
Variable classifyError : string -> string.
Variable retryableErrors : list string.
Variable maxRetries : nat.
Variable analyzeComplexity : string -> Decomposer.Indicators.
Variable decompose : string -> option Decomposer.DAG.
Variable aggregateByDAG :
  list (list string) -> gmap string Entry -> completion Aggregated.
Variable world : nat -> string -> World.
Variable taskId : nat -> string.

#[local] Abbreviation execute :=
  (MultiAgent.execute default_strategy now polls others classifyError retryableErrors
     maxRetries analyzeComplexity decompose aggregateByDAG world taskId).

(** A task that does not qualify for the multi-agent mode goes to
    [executeSingle], which ends. *)
Lemma execute_single_ends fuel options task s :
  shouldUseMultiAgent analyzeComplexity task = false ->
  is_Some (execute (S fuel) options task s).
Proof.
  intros Hno. simpl. rewrite Hno, andb_false_r.
  by destruct (executeSingle _ _ _ _ _ _ _ _ _).
Qed.

(** C2, as the code has it.  [executeMultiAgent] has no outcome that
    marks the DAG as failed.  When it returns, it reports
    [success: true], and its result is the aggregate of the results
    that [executeDAG] has collected: a subtask has a result only if one
    of its executions returned and all its dependencies have a result,
    and the subtasks without a result are left out.  When it throws, the
    error is the one of the aggregation.  It ends whenever no subtask
    text qualifies for the multi-agent mode itself. *)
Theorem subtask_failures_do_not_fail_the_DAG
    (fuel : nat) (retry : bool) (task : string) (s : State) :
  let subtask_execute := execute fuel no_options in
  let outcome :=
    executeMultiAgent default_strategy now decompose aggregateByDAG subtask_execute
      retry task s in
  let executed dag :=
    let routed := routeSubtasks default_strategy now dag (agentRouter s) in
    executeDAG default_strategy now subtask_execute retry dag routed.1
      (with_router s routed.2) in
  match outcome with
  | Some (Returned m, s') =>
      m_success m = true
      /\ exists dag run aggregated,
           decompose task = Some dag
           /\ executed dag = Some run
           /\ s' = state run
           /\ settled subtask_execute dag run
           /\ aggregateByDAG (Decomposer.parallelGroups dag) (entry_of <$> results run)
              = Returned aggregated
           /\ m_result m = payload aggregated
  | Some (Thrown e, s') =>
      exists dag run,
        decompose task = Some dag
        /\ executed dag = Some run
        /\ s' = state run
        /\ aggregateByDAG (Decomposer.parallelGroups dag) (entry_of <$> results run)
           = Thrown e
  | None =>
      forall dag, decompose task = Some dag ->
        fuel = 0%nat
        \/ exists st, st ∈ Decomposer.subtasks dag
             /\ shouldUseMultiAgent analyzeComplexity (Decomposer.task st) = true
  end.
Proof.
  cbn zeta. unfold executeMultiAgent.
  destruct (decompose task) as [dag|] eqn:Hdag; [|done].
  destruct (routeSubtasks default_strategy now dag (agentRouter s)) as [routes r1] eqn:Hr.
  cbn [fst snd].
  destruct (executeDAG _ _ _ _ dag routes (with_router s r1)) as [run|] eqn:Hrun.
  - destruct (aggregateByDAG _ _) as [aggregated|e] eqn:Hagg.
    + split; [done|]. exists dag, run, aggregated. rewrite Hr.
      split; [done|]. split; [done|]. split; [done|].
      split; [by eapply executeDAG_settled|]. by split.
    + exists dag, run. rewrite Hr. by repeat split.
  - intros dag' [= <-].
    destruct fuel as [|fuel']; [by left|]. right.
    destruct (forallb (fun st => negb (shouldUseMultiAgent analyzeComplexity
                                         (Decomposer.task st)))
                (Decomposer.subtasks dag)) eqn:Hall.
    + exfalso.
      destruct (executeDAG_ends default_strategy now (execute (S fuel') no_options) retry
                  dag routes) with (s := with_router s r1) as [run Hsome].
      * intros st s0 Hst. apply execute_single_ends.
        rewrite forallb_forall in Hall.
        specialize (Hall st ltac:(by apply list_elem_of_In)).
        by apply negb_true_iff in Hall.
      * congruence.
    + apply not_true_iff_false in Hall.
      destruct (decide (Exists (fun st => shouldUseMultiAgent analyzeComplexity
                                            (Decomposer.task st) = true)
                          (Decomposer.subtasks dag))) as [Hex|Hnex].
      * apply Exists_exists in Hex as (st & Hst & Hm). by exists st.
      * exfalso. apply Hall. apply forallb_forall. intros st Hst.
        apply negb_true_iff. apply not_true_iff_false. intros Hm. apply Hnex.
        apply Exists_exists. exists st. split; [by apply list_elem_of_In | done].
Qed.

End Execute.

Import MultiAgentScenario.

(** The task asks for four steps, which form a chain.  The history
    store is lost after [step_1] has completed, so that both executions
    of [step_2], on its route and on the new one, throw.  [step_2] has
    no result, [step_3] and [step_4], which depend on it, are not
    started, and [executeMultiAgent] still reports success, with the
    output of [step_1] as the result of the task. *)
Lemma partial_aggregation_reported_as_success :
  exists dag routes r1 run m,
    decompose release_notes = Some dag
    /\ map Decomposer.id (Decomposer.subtasks dag) = ["step_1"; "step_2"; "step_3"; "step_4"]
    /\ map Decomposer.dependsOn (Decomposer.subtasks dag)
       = [[]; ["step_1"]; ["step_2"]; ["step_3"]]
    /\ Decomposer.parallelGroups dag = [["step_1"]; ["step_2"]; ["step_3"]; ["step_4"]]
    /\ (forall st, st ∈ Decomposer.subtasks dag ->
          shouldUseMultiAgent analyzeComplexity (Decomposer.task st) = false
          /\ executeSingle store_lost 1 (Decomposer.task st) (RedisController ∅)
             = (Thrown "SQLITE_CANTOPEN: unable to open database file", RedisController ∅)
          /\ executeSingle store_lost 2 (Decomposer.task st) (RedisController ∅)
             = (Thrown "SQLITE_CANTOPEN: unable to open database file", RedisController ∅))
    /\ routeSubtasks Router.CAPABILITY_MATCH 0 dag (agentRouter with_redis) = (routes, r1)
    /\ executeDAG store_lost 1 dag routes (with_router with_redis r1) = Some run
    /\ dom (results run) = {["step_1"]}
    /\ calls (state run) = 3%nat
    /\ executeMultiAgent store_lost 1 release_notes with_redis
       = Some (Returned m, state run)
    /\ m_success m = true
    /\ m_subtaskCount m = Some 4
    /\ m_result m = Some (VStr "模拟执行结果").
Proof.
  eexists _, _, _, _, _.
  split; [by vm_compute|]. split; [by vm_compute|]. split; [by vm_compute|].
  split; [by vm_compute|]. split.
  { intros st Hst. repeat (apply elem_of_cons in Hst as [-> | Hst]);
      [..| by apply elem_of_nil in Hst];
      (split; [by vm_compute|]; split; by vm_compute). }
  split; [by vm_compute|]. split; [by vm_compute|]. split; [by vm_compute|].
  split; [by vm_compute|]. split; [by vm_compute|]. split; [by vm_compute|].
  split; by vm_compute.
Qed.

(** With the local controller, which has no [waitForSlot], and a
    history store that answers, every step returns an error result.
    The four error results are aggregated, and [executeMultiAgent]
    reports success. *)
Example failed_steps_reported_as_success :
  exists m s,
    executeMultiAgent store_up 1 release_notes with_local = Some (Returned m, s)
    /\ (forall n st dag, decompose release_notes = Some dag ->
          st ∈ Decomposer.subtasks dag ->
          exists r, (executeSingle store_up n (Decomposer.task st) (LocalController ∅)).1
                    = Returned r
                    /\ Scheduler.success r = false
                    /\ Scheduler.errorType r = Some "EXECUTION_ERROR")
    /\ m_success m = true
    /\ m_result m
       = Some (VStr ("undefined" ++ separator ++ "undefined" ++ separator
                     ++ "undefined" ++ separator ++ "undefined")).
Proof.
  eexists _, _. split; [by vm_compute|]. split.
  { intros n st dag Hdag Hst. vm_compute in Hdag. injection Hdag as <-.
    repeat (apply elem_of_cons in Hst as [-> | Hst]); [..| by apply elem_of_nil in Hst];
      eexists; split; by vm_compute. }
  split; by vm_compute.
Qed.

End MultiAgentFacts.

(** ** Slots: release, unlisted tiers and [waitForSlot] *)

Module SlotFacts.

Import Concurrency ConcurrencyFacts.

Lemma local_release_exact b t s b' :
  local_holders (Local.releaseSlot b t s) b' =
    if bool_decide (b' = b) then local_holders s b' ∖ {[t]} else local_holders s b'.
Proof.
  unfold Local.releaseSlot, local_holders.
  destruct (s !! b) as [slot|] eqn:E.
  - case_bool_decide as Hb.
    + subst b'. by rewrite lookup_insert_eq, E.
    + by rewrite lookup_insert_ne.
  - case_bool_decide as Hb; [|done]. subst b'. rewrite E. simpl. set_solver.
Qed.

Lemma redis_release_exact b t db b' :
  redis_holders (Redis.releaseSlot b t db) b' =
    if bool_decide (b' = b) then redis_holders db b' ∖ {[t]} else redis_holders db b'.
Proof.
  unfold Redis.releaseSlot, Redis.srem, redis_holders.
  destruct (db !! (Redis.prefix ++ b)%string) as [members|] eqn:E.
  - case_bool_decide as Hb.
    + subst b'. rewrite E. simpl. case_decide as Hr.
      * rewrite lookup_delete_eq. simpl. by rewrite Hr.
      * by rewrite lookup_insert_eq.
    + assert ((Redis.prefix ++ b)%string ≠ (Redis.prefix ++ b')%string).
      { intros Heq. by apply String.app_inj in Heq. }
      case_decide; [by rewrite lookup_delete_ne | by rewrite lookup_insert_ne].
  - case_bool_decide as Hb; [|done]. subst b'. rewrite E. simpl. set_solver.
Qed.

(** X1.  Acquiring a slot and releasing it again leaves every tier with the
    holders it had, whether or not the slot was granted. *)
Theorem acquire_then_release_restores_holders (b t : string)
    (s db : gmap string (gset string)) :
  t ∉ local_holders s b -> t ∉ redis_holders db b ->
  forall b',
    local_holders (Local.releaseSlot b t (Local.acquireSlot b t s).1) b'
      = local_holders s b'
    /\ redis_holders (Redis.releaseSlot b t (Redis.acquireSlot b t db).1) b'
      = redis_holders db b'.
Proof.
  intros Hl Hr b'. split.
  - rewrite local_release_exact, local_acquire_holders.
    case_bool_decide as Hb; [subst b'|].
    + rewrite andb_true_r. destruct (Local.acquireSlot b t s).2; set_solver.
    + by rewrite andb_false_r.
  - rewrite redis_release_exact, redis_acquire_holders.
    case_bool_decide as Hb; [subst b'|].
    + rewrite andb_true_r. destruct (Redis.acquireSlot b t db).2; set_solver.
    + by rewrite andb_false_r.
Qed.

Lemma acquire_then_release_restores_holders_witness :
  local_holders (Local.releaseSlot "Deep" "t1" (Local.acquireSlot "Deep" "t1" ∅).1) "Deep"
    = local_holders ∅ "Deep"
  /\ redis_holders (Redis.releaseSlot "Deep" "t1" (Redis.acquireSlot "Deep" "t1" ∅).1) "Deep"
    = redis_holders ∅ "Deep".
Proof.
  apply (acquire_then_release_restores_holders "Deep" "t1" ∅ ∅);
    unfold local_holders, redis_holders; rewrite lookup_empty; set_solver.
Defined.

(** X2.  A tier that the limits table does not list, under a name that
    is not a member inherited by every object: the local controller
    never grants a slot, the Redis controller grants one slot at a
    time. *)
Theorem unlisted_tier_local_refuses_redis_grants_one (b t : string)
    (s db : gmap string (gset string)) :
  limits !! b = None ->
  inherited b = false ->
  (Local.acquireSlot b t s).2 = false
  /\ (Redis.acquireSlot b t db).2 = bool_decide (redis_holders db b = ∅).
Proof.
  intros Hb _. split.
  - unfold Local.acquireSlot. by rewrite Hb.
  - unfold Redis.acquireSlot, Redis.limit_of. rewrite Hb.
    change (Redis.scard (Redis.prefix ++ b)%string db) with (Redis.getCurrentConcurrency b db).
    rewrite redis_concurrency_holders.
    destruct (Z.ltb_spec (Z.of_nat (size (redis_holders db b))) 1) as [Hlt|Hge]; simpl; symmetry.
    + apply bool_decide_eq_true. apply leibniz_equiv, size_empty_inv. lia.
    + apply bool_decide_eq_false. intros He. rewrite He, size_empty in Hge. lia.
Qed.

Lemma unlisted_tier_local_refuses_redis_grants_one_witness :
  (Local.acquireSlot "Turbo" "t1" ∅).2 = false
  /\ (Redis.acquireSlot "Turbo" "t1" ∅).2 = bool_decide (redis_holders ∅ "Turbo" = ∅).
Proof.
  apply (unlisted_tier_local_refuses_redis_grants_one "Turbo" "t1" ∅ ∅); reflexivity.
Defined.


(** X3.  [waitForSlot] of the Redis controller returns only with the slot
    taken: the task is among the holders of the tier.  When the store
    was within the limits and the other tasks keep it so between the
    polls, it is within the limits afterwards. *)
Theorem waitForSlot_returns_with_slot
    (others : gmap string (gset string) -> gmap string (gset string))
    (n : nat) (b t : string) (db db' : gmap string (gset string)) :
  (forall d, bounded (redis_holders d) -> bounded (redis_holders (others d))) ->
  bounded (redis_holders db) ->
  Scheduler.redis_waitForSlot others n b t db = (Returned tt, db') ->
  t ∈ redis_holders db' b /\ bounded (redis_holders db').
Proof.
  intros Hothers. revert db. induction n as [|n IH]; intros db Hdb; simpl; [done|].
  destruct (Redis.acquireSlot b t db) as [db1 acquired] eqn:E.
  assert (Hdb1 : bounded (redis_holders db1)).
  { change db1 with (db1, acquired).1. rewrite <- E.
    apply (redis_step_bounded (Acquire b t) db Hdb). }
  destruct acquired.
  - intros [= <-]. split; [|done].
    pose proof (redis_acquire_holders b t db b) as H. rewrite E in H. simpl in H.
    rewrite bool_decide_eq_true_2 in H by done. rewrite H. set_solver.
  - intros H. apply (IH (others db1)); [by apply Hothers | done].
Qed.

Lemma waitForSlot_returns_with_slot_witness :
  "t1" ∈ redis_holders (Redis.acquireSlot "Deep" "t1" ∅).1 "Deep"
  /\ bounded (redis_holders (Redis.acquireSlot "Deep" "t1" ∅).1).
Proof.
  apply (waitForSlot_returns_with_slot (fun d => d) 1 "Deep" "t1" ∅).
  - intros d Hd. exact Hd.
  - apply empty_bounded.
  - reflexivity.
Defined.

(** X4.  While a tier is full and nobody releases, [waitForSlot] uses up
    its polls and throws; the store is as it was. *)
Theorem waitForSlot_times_out_when_full
    (n : nat) (b t : string) (N : Z) (db : gmap string (gset string)) :
  limits !! b = Some N ->
  N <= Z.of_nat (size (redis_holders db b)) ->
  Scheduler.redis_waitForSlot (fun d => d) n b t db
    = (Thrown ("等待" ++ b ++ "槽位超时")%string, db).
Proof.
  intros HN Hfull. induction n as [|n IH]; simpl; [done|].
  pose proof (redis_acquire_ok b t db N HN) as Hok.
  rewrite bool_decide_eq_false_2 in Hok by lia.
  destruct (Redis.acquireSlot b t db) as [db1 acquired] eqn:E. simpl in Hok. subst acquired.
  assert (db1 = db) as ->; [|exact IH].
  unfold Redis.acquireSlot in E.
  destruct (_ <? _); by inversion E.
Qed.

Lemma waitForSlot_times_out_when_full_witness :
  Scheduler.redis_waitForSlot (fun d => d) 3 "Deep" "t2"
      {[ (Redis.prefix ++ "Deep")%string := {["t1"]} ]}
    = (Thrown ("等待" ++ "Deep" ++ "槽位超时")%string,
       {[ (Redis.prefix ++ "Deep")%string := {["t1"]} ]}).
Proof.
  apply (waitForSlot_times_out_when_full 3 "Deep" "t2" 1).
  - reflexivity.
  - by vm_compute.
Defined.

End SlotFacts.

(** ** The agent registry *)

Module RegistryFacts.

Import Registry.

Lemma get_Some agents i a : get agents i = Some a -> a ∈ agents /\ agentId a = i.
Proof.
  induction agents as [|b rest IH]; simpl; [done|].
  case_decide as Hb.
  - intros [= <-]. split; [left | done].
  - intros H. destruct (IH H). split; [by right | done].
Qed.

Lemma get_None agents i : get agents i = None <-> i ∉ agentId <$> agents.
Proof.
  induction agents as [|b rest IH]; simpl.
  - split; [intros _; apply not_elem_of_nil | done].
  - case_decide as Hb.
    + split; [done|]. intros H. exfalso. apply H. subst i. left.
    + rewrite IH. rewrite not_elem_of_cons. naive_solver.
Qed.

Lemma get_elem_of agents a : a ∈ agents -> is_Some (get agents (agentId a)).
Proof.
  intros Ha. destruct (get agents (agentId a)) eqn:E; [eauto|].
  apply get_None in E. exfalso. apply E. apply list_elem_of_fmap. eauto.
Qed.

Lemma get_set_eq agents a : get (set agents a) (agentId a) = Some a.
Proof.
  induction agents as [|b rest IH]; simpl.
  - by rewrite decide_True.
  - case_decide as Hb; simpl.
    + by rewrite decide_True.
    + by rewrite decide_False.
Qed.

Lemma get_set_ne agents a j : j ≠ agentId a -> get (set agents a) j = get agents j.
Proof.
  intros Hj. induction agents as [|b rest IH]; simpl.
  - by rewrite decide_False.
  - case_decide as Hb; simpl.
    + rewrite decide_False by done. by rewrite decide_False by congruence.
    + case_decide; [done | exact IH].
Qed.

Lemma set_ids agents a :
  is_Some (get agents (agentId a)) -> agentId <$> set agents a = agentId <$> agents.
Proof.
  induction agents as [|b rest IH]; simpl.
  - by intros [? ?].
  - case_decide as Hb; csimpl.
    + intros _. by rewrite Hb.
    + intros H. by rewrite IH.
Qed.

(** X5.  [updateLoad] on a registered agent: the load is clamped at zero,
    the agent is marked busy exactly when it is full, and no other
    agent changes. *)
Theorem updateLoad_keeps_load_and_status_consistent
    (agents : list Agent) (i : string) (delta : Z) (a : Agent) :
  getAgent i agents = Some a ->
  exists a',
    getAgent i (updateLoad i delta agents) = Some a'
    /\ currentLoad a' = Z.max 0 (currentLoad a + delta)
    /\ maxConcurrent a' = maxConcurrent a
    /\ (status a' = busy <-> maxConcurrent a' <= currentLoad a')
    /\ forall j, j ≠ i -> getAgent j (updateLoad i delta agents) = getAgent j agents.
Proof.
  unfold getAgent, updateLoad. intros Ha. rewrite Ha.
  destruct (get_Some _ _ _ Ha) as [_ Hid].
  exists (updated a delta).
  assert (Hid' : agentId (updated a delta) = i) by done.
  split; [rewrite <- Hid'; apply get_set_eq|].
  split; [done|]. split; [done|]. split.
  - unfold updated. simpl.
    destruct (Z.leb_spec (maxConcurrent a) (Z.max 0 (currentLoad a + delta))) as [Hfull|Hfree].
    + done.
    + split; [|lia]. case_decide as Hs; [done|]. intros Hb. by destruct Hs.
  - intros j Hj. apply get_set_ne. by rewrite Hid'.
Qed.


Lemma updateLoad_keeps_load_and_status_consistent_witness :
  exists a',
    getAgent "alpha" (updateLoad "alpha" 1 [RouterScenario.worker "alpha" ["read"] 1])
      = Some a'
    /\ currentLoad a' = Z.max 0 (currentLoad (RouterScenario.worker "alpha" ["read"] 1) + 1)
    /\ maxConcurrent a' = maxConcurrent (RouterScenario.worker "alpha" ["read"] 1)
    /\ (status a' = busy <-> maxConcurrent a' <= currentLoad a')
    /\ forall j, j ≠ "alpha" ->
         getAgent j (updateLoad "alpha" 1 [RouterScenario.worker "alpha" ["read"] 1])
           = getAgent j [RouterScenario.worker "alpha" ["read"] 1].
Proof.
  apply (updateLoad_keeps_load_and_status_consistent
           [RouterScenario.worker "alpha" ["read"] 1] "alpha" 1).
  reflexivity.
Defined.

(** *** discover *)

Lemma insert_sorted_perm x l : insert_sorted x l ≡ₚ x :: l.
Proof.
  induction l as [|y l IH]; simpl; [done|].
  destruct (before y x); [|done].
  rewrite IH. apply Permutation_swap.
Qed.

Lemma sort_candidates_perm l : sort_candidates l ≡ₚ l.
Proof.
  unfold sort_candidates.
  assert (H : forall acc, foldl (fun acc x => insert_sorted x acc) acc l ≡ₚ acc ++ l).
  { induction l as [|x l IH]; intros acc; simpl.
    - by rewrite app_nil_r.
    - rewrite IH, insert_sorted_perm. simpl. apply Permutation_middle. }
  apply H.
Qed.

Lemma eligible_spec req a :
  eligible req a = true <->
    ((agentId a ∉ excludeIds req)
     /\ status a ≠ offline
     /\ (forall c, c ∈ req_capabilities req -> c ∈ capabilities a)
     /\ minAvailable req <= maxConcurrent a - currentLoad a).
Proof.
  unfold eligible. rewrite !andb_true_iff, !negb_true_iff, !bool_decide_eq_false.
  rewrite Z.leb_le, forallb_forall.
  split; intros (((H1 & H2) & H3) & H4) || intros (H1 & H2 & H3 & H4).
  - repeat split; try done. intros c Hc.
    apply list_elem_of_In in Hc. by apply H3, bool_decide_eq_true in Hc.
  - repeat split; try done. intros c Hc.
    apply bool_decide_eq_true, H3. by apply list_elem_of_In.
Qed.

Lemma elem_of_discover (req : Requirements) (agents : list Agent) (a : Agent) :
  a ∈ discover req agents <->
    ((a ∈ agents)
     /\ (agentId a ∉ excludeIds req)
     /\ status a ≠ offline
     /\ (forall c, c ∈ req_capabilities req -> c ∈ capabilities a)
     /\ minAvailable req <= maxConcurrent a - currentLoad a).
Proof.
  unfold discover.
  assert (H : a ∈ List.filter (eligible req) agents <-> a ∈ agents /\ eligible req a = true).
  { rewrite list_elem_of_In, filter_In, <- list_elem_of_In. done. }
  rewrite <- eligible_spec, <- H.
  destruct (preferHealthy req); [|done].
  by rewrite sort_candidates_perm.
Qed.

(** X6.  [discover] returns exactly the registered agents that are not
    excluded, not offline, have every required capability and at least
    [minAvailable] free slots; sorting loses and adds none. *)
Theorem discover_returns_exactly_the_eligible (req : Requirements)
    (agents : list Agent) (a : Agent) :
  a ∈ discover req agents <->
    ((a ∈ agents)
     /\ (agentId a ∉ excludeIds req)
     /\ status a ≠ offline
     /\ (forall c, c ∈ req_capabilities req -> c ∈ capabilities a)
     /\ minAvailable req <= maxConcurrent a - currentLoad a).
Proof. apply elem_of_discover. Qed.

Lemma before_total x y : before y x = false -> before x y = true.
Proof.
  unfold before, ratio_le.
  destruct (decide (status y = healthy)), (decide (status x = healthy)); try done;
    rewrite Z.leb_gt, Z.leb_le; lia.
Qed.

Lemma before_trans a b c :
  0 < maxConcurrent a -> 0 < maxConcurrent b -> 0 < maxConcurrent c ->
  before a b = true -> before b c = true -> before a c = true.
Proof.
  unfold before, ratio_le. intros Ha Hb Hc.
  destruct (decide (status a = healthy)), (decide (status b = healthy)),
    (decide (status c = healthy)); try done; rewrite !Z.leb_le; intros H1 H2;
    apply (Z.mul_le_mono_pos_r _ _ (maxConcurrent b) Hb);
    transitivity (currentLoad b * maxConcurrent a * maxConcurrent c); nia.
Qed.

#[local] Abbreviation positive := (fun a : Agent => 0 < maxConcurrent a).

Lemma StronglySorted_pairs {A} (R : A -> A -> Prop) (l : list A) i j a b :
  StronglySorted R l -> (i < j)%nat -> l !! i = Some a -> l !! j = Some b -> R a b.
Proof.
  intros Hs. revert i j. induction Hs as [|x l Hs IH Hx]; intros i j Hij Ha Hb.
  - by rewrite lookup_nil in Ha.
  - destruct j as [|j]; [lia|]. simpl in Hb. destruct i as [|i]; simpl in Ha.
    + injection Ha as ->. rewrite Forall_forall in Hx. apply Hx.
      by eapply list_elem_of_lookup_2.
    + apply (IH i j); [lia | done | done].
Qed.

Lemma insert_sorted_sorted x l :
  positive x -> Forall positive l ->
  StronglySorted (fun a b => before a b = true) l ->
  StronglySorted (fun a b => before a b = true) (insert_sorted x l).
Proof.
  intros Hx Hl Hs. induction Hs as [|y l Hs IH Hy]; simpl.
  - repeat constructor.
  - apply Forall_cons in Hl as [Hpy Hl].
    destruct (before y x) eqn:E.
    + constructor; [by apply IH|].
      rewrite (insert_sorted_perm x l). by constructor.
    + apply before_total in E. constructor; [by constructor|].
      constructor; [done|].
      rewrite Forall_forall in Hy, Hl. apply Forall_forall. intros z Hz.
      apply (before_trans x y z); [exact Hx | exact Hpy | by apply (Hl z) | done | by apply Hy].
Qed.

Lemma sort_candidates_sorted l :
  Forall positive l ->
  StronglySorted (fun a b => before a b = true) (sort_candidates l).
Proof.
  unfold sort_candidates. intros Hl.
  assert (H : forall acc, Forall positive acc ->
    StronglySorted (fun a b => before a b = true) acc ->
    StronglySorted (fun a b => before a b = true)
      (foldl (fun acc x => insert_sorted x acc) acc l)).
  { induction Hl as [|x l Hx Hl IH]; intros acc Hacc Hs; simpl; [done|].
    apply IH.
    - rewrite (insert_sorted_perm x acc). by constructor.
    - by apply insert_sorted_sorted. }
  apply H; constructor.
Qed.

(** *** Load ratios as doubles *)

Lemma round_half_even_error n d :
  0 < d -> 2 * Z.abs (round_half_even n d * d - n) <= d.
Proof.
  intros Hd. unfold round_half_even.
  pose proof (Z.div_mod n d ltac:(lia)) as Hn.
  pose proof (Z.mod_pos_bound n d Hd) as Hr.
  destruct (Z.ltb_spec (2 * (n mod d)) d); [nia|].
  destruct (Z.ltb_spec d (2 * (n mod d))); [nia|].
  destruct (Z.even (n / d)); nia.
Qed.

Lemma scaled_spec n d e :
  0 < d ->
  let '(N, D) := scaled n d e in
  0 < D /\ ((0 <= e /\ N = n /\ D = d * 2 ^ e) \/ (e < 0 /\ N = n * 2 ^ (- e) /\ D = d)).
Proof.
  intros Hd. unfold scaled. destruct (Z.leb_spec 0 e).
  - split; [|left; done]. apply Z.mul_pos_pos; [done|]. by apply Z.pow_pos_nonneg.
  - split; [done|]. right. done.
Qed.

Lemma binary64_exponent_spec n d :
  0 < n -> 0 < d ->
  let '(N, D) := scaled n d (binary64_exponent n d) in 2 ^ 52 * D <= N.
Proof.
  intros Hn Hd. unfold binary64_exponent.
  set (e := Z.log2 n - Z.log2 d - 53).
  destruct (scaled n d (e + 1)) as [N1 D1] eqn:E1.
  destruct (Z.leb_spec (2 ^ 52 * D1) N1) as [Hle|Hgt].
  - by rewrite E1.
  - clear E1 Hgt N1 D1.
    destruct (Z.log2_spec n Hn) as [Hn1 _].
    destruct (Z.log2_spec d Hd) as [_ Hd2].
    pose proof (Z.log2_nonneg n) as Hln. pose proof (Z.log2_nonneg d) as Hld.
    unfold scaled. destruct (Z.leb_spec 0 e) as [He|He].
    + assert (Hp : 2 ^ Z.log2 n = 2 ^ 52 * 2 ^ Z.succ (Z.log2 d) * 2 ^ e).
      { rewrite <- !Z.pow_add_r by lia. f_equal. lia. }
      assert (0 < 2 ^ e) by (by apply Z.pow_pos_nonneg). nia.
    + assert (Hp : 2 ^ Z.log2 n * 2 ^ (- e) = 2 ^ 52 * 2 ^ Z.succ (Z.log2 d)).
      { rewrite <- !Z.pow_add_r by lia. f_equal. lia. }
      assert (0 < 2 ^ (- e)) by (apply Z.pow_pos_nonneg; lia). nia.
Qed.

Lemma Qpower_2_nonneg e : 0 <= e -> (Qpower 2 e == inject_Z (2 ^ e))%Q.
Proof. intros He. symmetry. by apply (Zpower_Qpower 2 e). Qed.

Lemma binary64_div_spec a b :
  0 < a -> 0 < b ->
  exists Fn Fd,
    0 < Fd
    /\ (binary64_div a b == Fn # Z.to_pos Fd)%Q
    /\ 2 ^ 53 * Z.abs (Fn * b - a * Fd) <= a * Fd.
Proof.
  intros Ha Hb. unfold binary64_div.
  destruct (Z.eqb_spec a 0) as [|_]; [lia|].
  pose proof (Qred_correct (a # Z.to_pos b)) as Hq.
  set (q := Qred (a # Z.to_pos b)) in *.
  unfold Qeq in Hq. simpl in Hq. rewrite Z2Pos.id in Hq by done.
  set (n := Qnum q) in *. set (d := Z.pos (Qden q)) in *.
  assert (Hd : 0 < d) by done.
  assert (Hn : 0 < n) by nia.
  pose proof (binary64_exponent_spec n d Hn Hd) as Hexp.
  pose proof (scaled_spec n d (binary64_exponent n d) Hd) as Hsc.
  set (e := binary64_exponent n d) in *.
  destruct (scaled n d e) as [N D].
  destruct Hsc as [HD Hcase].
  pose proof (round_half_even_error N D HD) as Hm.
  set (m := round_half_even N D) in *.
  destruct Hcase as [(He & -> & ->) | (He & -> & ->)].
  - exists (m * 2 ^ e), 1. split; [done|]. split.
    + rewrite Qpower_2_nonneg by done. rewrite <- inject_Z_mult. reflexivity.
    + assert (Hp : 0 < 2 ^ e) by (by apply Z.pow_pos_nonneg).
      apply (Z.mul_le_mono_pos_l _ _ d Hd).
      assert (Hin : d * (m * 2 ^ e * b - a * 1) = b * (m * (d * 2 ^ e) - n)) by nia.
      assert (Habs : d * Z.abs (m * 2 ^ e * b - a * 1) = b * Z.abs (m * (d * 2 ^ e) - n)).
      { rewrite <- (Z.abs_eq d) at 1 by lia. rewrite <- (Z.abs_eq b) at 2 by lia.
        rewrite <- !Z.abs_mul. by rewrite Hin. }
      nia.
  - exists m, (2 ^ (- e)).
    assert (Hp : 0 < 2 ^ (- e)) by (apply Z.pow_pos_nonneg; lia).
    split; [done|]. split.
    + replace e with (- - e) at 1 by lia. rewrite Qpower_opp.
      rewrite Qpower_2_nonneg by lia.
      rewrite <- (Z2Pos.id (2 ^ (- e))) at 1 by done.
      unfold Qeq. simpl. rewrite Z.mul_1_r. 
      destruct (Z.to_pos (2 ^ - e)); simpl; lia.
    + apply (Z.mul_le_mono_pos_l _ _ d Hd).
      assert (Hin : d * (m * b - a * 2 ^ (- e)) = b * (m * d - n * 2 ^ (- e))) by nia.
      assert (Habs : d * Z.abs (m * b - a * 2 ^ (- e)) = b * Z.abs (m * d - n * 2 ^ (- e))).
      { rewrite <- (Z.abs_eq d) at 1 by lia. rewrite <- (Z.abs_eq b) at 2 by lia.
        rewrite <- !Z.abs_mul. by rewrite Hin. }
      nia.
Qed.

Lemma binary64_div_eq a b c d :
  0 < b -> 0 < d -> a * d = c * b -> binary64_div a b = binary64_div c d.
Proof.
  intros Hb Hd Heq. unfold binary64_div.
  destruct (Z.eqb_spec a 0) as [->|Ha], (Z.eqb_spec c 0) as [->|Hc]; [done | nia | nia |].
  assert (Hq : Qred (a # Z.to_pos b) = Qred (c # Z.to_pos d)).
  { apply Qred_complete. unfold Qeq. simpl. rewrite !Z2Pos.id by done. lia. }
  by rewrite Hq.
Qed.

Lemma binary64_div_lt_exact a b c d :
  0 <= a -> 0 < b -> 0 < d ->
  a * d < 2 ^ 52 -> c * b < 2 ^ 52 -> a * d < c * b ->
  (binary64_div a b < binary64_div c d)%Q.
Proof.
  intros Ha Hb Hd Hx Hy Hlt.
  assert (Hc : 0 < c) by nia.
  destruct (binary64_div_spec c d Hc Hd) as (Gn & Gd & HGd & -> & HG).
  destruct (Z.eq_dec a 0) as [->|Ha0].
  - unfold binary64_div. simpl. unfold Qlt. simpl. rewrite Z.mul_1_r.
    assert (0 < Gn * d); [|nia]. lia.
  - destruct (binary64_div_spec a b ltac:(lia) Hb) as (Fn & Fd & HFd & -> & HF).
    unfold Qlt. simpl. rewrite !Z2Pos.id by done.
    assert (H1 : 2 ^ 53 * (Fn * b) <= (2 ^ 53 + 1) * (a * Fd)) by lia.
    assert (H2 : (2 ^ 53 - 1) * (c * Gd) <= 2 ^ 53 * (Gn * d)) by lia.
    assert (H3 : (2 ^ 53 + 1) * (a * d) < (2 ^ 53 - 1) * (c * b)) by lia.
    apply (Z.mul_lt_mono_pos_l (2 ^ 53 * (b * d))); [lia|].
    apply Z.le_lt_trans with ((2 ^ 53 + 1) * (a * Fd) * (d * Gd)); [nia|].
    apply Z.lt_le_trans with ((2 ^ 53 - 1) * (c * Gd) * (b * Fd)); [|nia].
    replace ((2 ^ 53 + 1) * (a * Fd) * (d * Gd))
      with (((2 ^ 53 + 1) * (a * d)) * (Fd * Gd)) by ring.
    replace ((2 ^ 53 - 1) * (c * Gd) * (b * Fd))
      with (((2 ^ 53 - 1) * (c * b)) * (Fd * Gd)) by ring.
    apply Z.mul_lt_mono_pos_r; [nia | done].
Qed.

(** Within the exact range, the doubles compare as the exact quotients. *)
Lemma binary64_div_lt a b c d :
  0 <= a -> 0 < b -> 0 <= c -> 0 < d ->
  a * d < 2 ^ 52 -> c * b < 2 ^ 52 ->
  (binary64_div a b < binary64_div c d)%Q <-> a * d < c * b.
Proof.
  intros Ha Hb Hc Hd Hx Hy. split; [|by apply binary64_div_lt_exact].
  intros Hlt. destruct (Z.lt_trichotomy (a * d) (c * b)) as [H | [H | H]]; [done | |].
  - rewrite (binary64_div_eq a b c d Hb Hd H) in Hlt. by apply Qlt_irrefl in Hlt.
  - exfalso. apply (Qlt_irrefl (binary64_div a b)).
    apply Qlt_trans with (binary64_div c d); [done|].
    apply binary64_div_lt_exact; lia.
Qed.

Lemma binary64_div_le a b c d :
  0 <= a -> 0 < b -> 0 <= c -> 0 < d ->
  a * d < 2 ^ 52 -> c * b < 2 ^ 52 ->
  (binary64_div a b <= binary64_div c d)%Q <-> a * d <= c * b.
Proof.
  intros Ha Hb Hc Hd Hx Hy. split.
  - intros Hle. apply Z.nlt_ge. intros Hgt.
    apply (Qle_not_lt _ _ Hle). apply binary64_div_lt_exact; lia.
  - intros Hle. apply Qnot_lt_le. intros Hlt.
    apply (binary64_div_lt c d a b Hc Hd Ha Hb Hy Hx) in Hlt. lia.
Qed.

Lemma small_product x y : 0 <= x < 2 ^ 26 -> 0 <= y < 2 ^ 26 -> x * y < 2 ^ 52.
Proof.
  intros Hx Hy. change (2 ^ 52) with (2 ^ 26 * 2 ^ 26).
  apply Z.mul_lt_mono_nonneg; lia.
Qed.

(** [ratio_lt] and [ratio_le] are the comparisons of the doubles. *)
Lemma ratio_lt_binary64 (a b : Agent) :
  in_exact_range a -> in_exact_range b ->
  ratio_lt a b = true
  <-> (binary64_div (currentLoad a) (maxConcurrent a)
       < binary64_div (currentLoad b) (maxConcurrent b))%Q.
Proof.
  intros [Ha1 Ha2] [Hb1 Hb2]. unfold ratio_lt. rewrite Z.ltb_lt.
  symmetry. apply binary64_div_lt; try lia; apply small_product; lia.
Qed.

Lemma ratio_le_binary64 (a b : Agent) :
  in_exact_range a -> in_exact_range b ->
  ratio_le a b = true
  <-> (binary64_div (currentLoad a) (maxConcurrent a)
       <= binary64_div (currentLoad b) (maxConcurrent b))%Q.
Proof.
  intros [Ha1 Ha2] [Hb1 Hb2]. unfold ratio_le. rewrite Z.leb_le.
  symmetry. apply binary64_div_le; try lia; apply small_product; lia.
Qed.

(** Outside the range the two differ: these quotients are different, and
    the doubles are the same. *)
Example binary64_div_collapses :
  1000000000 * 1000000002 < 1000000001 * 1000000001
  /\ binary64_div 1000000000 1000000001 = binary64_div 1000000001 1000000002.
Proof. split; [lia | by vm_compute]. Qed.

Lemma in_exact_range_positive (l : list Agent) :
  Forall in_exact_range l -> Forall positive l.
Proof. intros H. eapply Forall_impl; [exact H|]. by intros a [_ [? _]]. Qed.

(** X7.  With [preferHealthy], a candidate listed earlier is never a
    non-healthy one before a healthy one, and among candidates of the
    same kind it has the lower load ratio; the loads and capacities are
    in the range in which the doubles compare as the exact ratios. *)
Theorem discover_lists_healthy_and_idle_first (req : Requirements)
    (agents : list Agent) (i j : nat) (a b : Agent) :
  preferHealthy req = true ->
  Forall in_exact_range agents ->
  (i < j)%nat ->
  discover req agents !! i = Some a ->
  discover req agents !! j = Some b ->
  (status b = healthy -> status a = healthy)
  /\ ((status a = healthy <-> status b = healthy) ->
      currentLoad a * maxConcurrent b <= currentLoad b * maxConcurrent a).
Proof.
  intros Hp Hrange Hij Ha Hb. apply in_exact_range_positive in Hrange as Hpos.
  unfold discover in Ha, Hb. rewrite Hp in Ha, Hb.
  assert (Hs : StronglySorted (fun a b => before a b = true)
                 (sort_candidates (List.filter (eligible req) agents))).
  { apply sort_candidates_sorted. apply Forall_forall. intros x Hx.
    apply list_elem_of_In, filter_In in Hx as [Hx _].
    rewrite Forall_forall in Hpos. by apply Hpos, list_elem_of_In. }
  assert (Hab : before a b = true).
  { by apply (StronglySorted_pairs _ _ i j a b Hs). }
  revert Hab. unfold before, ratio_le.
  destruct (decide (status a = healthy)), (decide (status b = healthy));
    rewrite ?Z.leb_le; intros Hab; try done; split; try done; try tauto.
Qed.

(** [beta], registered first, is half loaded; [alpha] is loaded to a
    quarter and is listed first. *)
Lemma discover_lists_healthy_and_idle_first_witness :
  (status (RouterScenario.loaded (RouterScenario.worker "beta" ["read"] 4) 2) = healthy
   -> status (RouterScenario.loaded (RouterScenario.worker "alpha" ["read"] 4) 1) = healthy)
  /\ ((status (RouterScenario.loaded (RouterScenario.worker "alpha" ["read"] 4) 1) = healthy
       <-> status (RouterScenario.loaded (RouterScenario.worker "beta" ["read"] 4) 2)
           = healthy) ->
      currentLoad (RouterScenario.loaded (RouterScenario.worker "alpha" ["read"] 4) 1)
        * maxConcurrent (RouterScenario.loaded (RouterScenario.worker "beta" ["read"] 4) 2)
      <= currentLoad (RouterScenario.loaded (RouterScenario.worker "beta" ["read"] 4) 2)
        * maxConcurrent (RouterScenario.loaded (RouterScenario.worker "alpha" ["read"] 4) 1)).
Proof.
  apply (discover_lists_healthy_and_idle_first
           {| req_capabilities := ["read"]; minAvailable := 1; excludeIds := [];
              preferHealthy := true |}
           [RouterScenario.loaded (RouterScenario.worker "beta" ["read"] 4) 2;
            RouterScenario.loaded (RouterScenario.worker "alpha" ["read"] 4) 1] 0 1).
  - reflexivity.
  - repeat first [apply List.Forall_cons | apply List.Forall_nil];
      unfold in_exact_range; simpl; lia.
  - lia.
  - reflexivity.
  - reflexivity.
Defined.

(** *** register, unregister and getAgent *)

(** X8.  The registry is a map from agent id to agent: [register] stores a
    fresh entry with no load under its id, also when the id was taken,
    [unregister] removes the entry, and neither touches another id. *)
Theorem register_and_unregister_act_on_one_id (now : Z) (info : AgentInfo)
    (agents : list Agent) (i : string) :
  (exists a,
     getAgent (info_agentId info) (register now info agents) = Some a
     /\ agentId a = info_agentId info
     /\ currentLoad a = 0 /\ status a = healthy /\ lastHeartbeat a = now
     /\ capabilities a = default [] (info_capabilities info))
  /\ (forall j, j ≠ info_agentId info ->
        getAgent j (register now info agents) = getAgent j agents)
  /\ getAgent i (unregister i agents) = None
  /\ (forall j, j ≠ i -> getAgent j (unregister i agents) = getAgent j agents).
Proof.
  unfold getAgent, register. repeat split.
  - match goal with |- context [set agents ?a] => exists a end.
    split; [|repeat split; reflexivity].
    match goal with |- get (set _ ?a) _ = _ => apply (get_set_eq agents a) end.
  - intros j Hj. by apply get_set_ne.
  - apply get_None. unfold unregister. intros H.
    apply list_elem_of_fmap in H as (a & Ha & Hin).
    apply list_elem_of_filter in Hin as [Hne _]. by destruct Hne.
  - intros j Hj. unfold unregister.
    induction agents as [|b rest IH]; [done|].
    rewrite filter_cons. simpl. case_decide as Hb.
    + simpl. case_decide; [done | exact IH].
    + rewrite decide_False; [exact IH|]. intros Heq. apply Hj. congruence.
Qed.

(** *** Health checks *)

Lemma get_map (f : Agent -> Agent) agents i :
  (forall a, agentId (f a) = agentId a) ->
  get (map f agents) i = f <$> get agents i.
Proof.
  intros Hf. induction agents as [|b rest IH]; simpl; [done|].
  rewrite Hf. by case_decide.
Qed.

(** X9.  Right after a health check, [discover] returns no agent whose
    last heartbeat is older than the threshold. *)
Theorem discover_after_healthCheck_skips_stale_agents
    (req : Requirements) (offlineThreshold now : Z)
    (agents : list Agent) (a : Agent) :
  a ∈ discover req (healthCheck offlineThreshold now agents) ->
  now - lastHeartbeat a <= offlineThreshold.
Proof.
  intros Ha. apply elem_of_discover in Ha as (Hin & _ & Hon & _).
  unfold healthCheck in Hin. apply list_elem_of_In, in_map_iff in Hin as (a0 & Ha0 & _).
  destruct (Z.ltb_spec offlineThreshold (now - lastHeartbeat a0)) as [Hstale|Hfresh].
  - case_decide as Hs; subst a; [by rewrite Hs in Hon | by simpl in Hon].
  - by subst a.
Qed.

(** Of two agents, the one that was last heard of 200 s ago is marked
    offline and skipped; the other one was heard of 50 s ago. *)
Lemma discover_after_healthCheck_skips_stale_agents_witness :
  discover {| req_capabilities := []; minAvailable := 1; excludeIds := [];
              preferHealthy := false |}
    (healthCheck 90000 200000
       [RouterScenario.worker "old" ["read"] 2;
        RouterScenario.heard_at (RouterScenario.worker "alpha" ["read"] 2) 150000])
  = [RouterScenario.heard_at (RouterScenario.worker "alpha" ["read"] 2) 150000]
  /\ 200000
       - lastHeartbeat (RouterScenario.heard_at (RouterScenario.worker "alpha" ["read"] 2)
                          150000)
     <= 90000.
Proof.
  split; [reflexivity|].
  apply (discover_after_healthCheck_skips_stale_agents
           {| req_capabilities := []; minAvailable := 1; excludeIds := [];
              preferHealthy := false |}
           90000 200000
           [RouterScenario.worker "old" ["read"] 2;
            RouterScenario.heard_at (RouterScenario.worker "alpha" ["read"] 2) 150000]).
  simpl. apply list_elem_of_here.
Defined.

(** X10.  A heartbeat keeps an agent on line, or brings it back, for as
    long as the threshold: a health check within that time leaves it
    with a status other than offline and with the load it had. *)
Theorem heartbeat_keeps_agent_online_until_threshold
    (offlineThreshold now later : Z) (agents : list Agent) (i : string) (a : Agent) :
  getAgent i agents = Some a ->
  later - now <= offlineThreshold ->
  exists a',
    getAgent i (healthCheck offlineThreshold later (heartbeat now i agents)) = Some a'
    /\ status a' = (if decide (status a = offline) then healthy else status a)
    /\ status a' ≠ offline
    /\ currentLoad a' = currentLoad a
    /\ lastHeartbeat a' = now.
Proof.
  unfold getAgent, heartbeat. intros Ha Hlate. rewrite Ha.
  destruct (get_Some _ _ _ Ha) as [_ Hid].
  unfold healthCheck. rewrite get_map.
  2:{ intros b. destruct (_ <? _); [|done]. by case_decide. }
  set (a1 := {| agentId := agentId a; name := name a; capabilities := capabilities a;
                maxConcurrent := maxConcurrent a; currentLoad := currentLoad a;
                status := if decide (status a = offline) then healthy else status a;
                lastHeartbeat := now; metadata := metadata a;
                avgExecutionTime := avgExecutionTime a |}).
  assert (Hget : get (set agents a1) i = Some a1).
  { rewrite <- Hid. apply (get_set_eq agents a1). }
  rewrite Hget. simpl.
  destruct (Z.ltb_spec offlineThreshold (later - now)); [lia|].
  exists a1. repeat split. simpl. by case_decide.
Qed.

Lemma heartbeat_keeps_agent_online_until_threshold_witness :
  exists a',
    getAgent "alpha"
      (healthCheck 90000 50000
         (heartbeat 10 "alpha" [RouterScenario.worker "alpha" ["read"] 2])) = Some a'
    /\ status a' = (if decide (status (RouterScenario.worker "alpha" ["read"] 2) = offline)
                    then healthy else status (RouterScenario.worker "alpha" ["read"] 2))
    /\ status a' ≠ offline
    /\ currentLoad a' = currentLoad (RouterScenario.worker "alpha" ["read"] 2)
    /\ lastHeartbeat a' = 10.
Proof.
  apply (heartbeat_keeps_agent_online_until_threshold 90000 10 50000
           [RouterScenario.worker "alpha" ["read"] 2] "alpha").
  - reflexivity.
  - lia.
Defined.

End RegistryFacts.

(** ** The agent router *)

Module RoutingFacts.

Import Registry RegistryFacts Router RouterScenario.

(** *** Selection *)

Lemma insert_scored_perm required x l : insert_scored required x l ≡ₚ x :: l.
Proof.
  induction l as [|y l IH]; simpl; [done|].
  destruct (_ || _); [|done].
  rewrite IH. apply Permutation_swap.
Qed.

Lemma sorted_by_score_perm required l :
  foldl (fun acc x => insert_scored required x acc) [] l ≡ₚ l.
Proof.
  assert (H : forall acc,
    foldl (fun acc x => insert_scored required x acc) acc l ≡ₚ acc ++ l).
  { induction l as [|x l IH]; intros acc; simpl.
    - by rewrite app_nil_r.
    - rewrite IH, insert_scored_perm. simpl. apply Permutation_middle. }
  apply H.
Qed.

Lemma head_perm_elem {A} (l l' : list A) :
  l ≡ₚ l' -> l' ≠ [] -> exists a, head l = Some a /\ a ∈ l'.
Proof.
  intros Hp Hne. destruct l as [|a l].
  - apply Permutation_nil_l in Hp. congruence.
  - exists a. split; [done|]. rewrite <- Hp. left.
Qed.

Lemma reduce_best_elem better l :
  l ≠ [] -> exists a, reduce_best better l = Some a /\ a ∈ l.
Proof.
  destruct l as [|first rest]; [done|]. intros _. simpl.
  eexists. split; [done|].
  assert (H : forall best, foldl (fun best current =>
              if better current best then current else best) best rest
            ∈ best :: rest).
  { induction rest as [|x rest IH]; intros best; simpl; [left|].
    destruct (better x best).
    - specialize (IH x). right. done.
    - specialize (IH best). apply elem_of_cons in IH as [->|IH]; [left | by do 2 right]. }
  apply H.
Qed.

Lemma selectAgent_picks_candidate s candidates st strat :
  candidates ≠ [] ->
  exists a s1,
    selectAgent s candidates st strat = (Some a, s1)
    /\ a ∈ candidates
    /\ agents s1 = agents s
    /\ fallbackEnabled s1 = fallbackEnabled s.
Proof.
  intros Hne. unfold selectAgent.
  repeat case_decide.
  - destruct (head_perm_elem _ candidates
                (sorted_by_score_perm (default [] (Decomposer.requiredCapabilities st))
                   candidates) Hne) as (a & Ha & Hin).
    exists a, s. unfold selectByCapability. by rewrite Ha.
  - destruct (reduce_best_elem ratio_lt candidates Hne) as (a & Ha & Hin).
    exists a, s. unfold selectByLoadBalance. by rewrite Ha.
  - unfold selectByCost.
    destruct (reduce_best_elem (fun current best => Qlt_bool (cost_of current) (cost_of best))
                candidates Hne) as (a & Ha & Hin).
    exists a, s. by rewrite Ha.
  - unfold selectByPerformance.
    destruct (reduce_best_elem
                (fun current best => time_lt (time_of current) (time_of best))
                candidates Hne) as (a & Ha & Hin).
    exists a, s. by rewrite Ha.
  - unfold selectByRoundRobin.
    assert (Hlen : (0 < length candidates)%nat) by (destruct candidates; [done | simpl; lia]).
    destruct (lookup_lt_is_Some_2 candidates (roundRobinIndex s mod length candidates))
      as [a Ha].
    { apply Nat.mod_upper_bound. lia. }
    exists a. eexists. rewrite Ha. split; [done|]. split; [|done].
    by eapply list_elem_of_lookup_2.
  - destruct candidates as [|a rest]; [done|].
    exists a, s. repeat split. left.
Qed.

Lemma assign_returns now s candidates st strat :
  candidates ≠ [] ->
  exists r s' a,
    assign now s candidates st strat = (Returned r, s')
    /\ a ∈ candidates
    /\ Router.agentId r = Registry.agentId a
    /\ subtaskId r = Decomposer.id st
    /\ agents s' = updateLoad (Registry.agentId a) 1 (agents s)
    /\ fallbackEnabled s' = fallbackEnabled s.
Proof.
  intros Hne. unfold assign.
  destruct (selectAgent_picks_candidate s candidates st strat Hne)
    as (a & s1 & -> & Hin & Hag & Hfb).
  eexists _, _, a. split; [done|]. repeat split; try done.
  simpl. by rewrite Hag.
Qed.

Lemma discover_nil req : discover req [] = [].
Proof. unfold discover. simpl. by destruct (preferHealthy req). Qed.

(** X11.  With the fallback enabled, [route] throws only when no agent at
    all is registered: whatever the subtask requires, some agent is
    assigned as long as there is one. *)
Theorem route_throws_only_on_empty_registry
    (default_strategy : string) (now : Z) (s : State)
    (st : Decomposer.Subtask) (options : Options) :
  fallbackEnabled s = true ->
  opt_isFallback options = false ->
  is_thrown (route default_strategy now s st options).1 = true <-> agents s = [].
Proof.
  intros Hfb Hopt. unfold route. rewrite Hfb, Hopt. simpl.
  destruct (candidates_for s st (excludeAgents options)) as [|c cs] eqn:Hc.
  - unfold fallbackRoute, route_no_fallback.
    match goal with |- context [candidates_for s ?r []] =>
      destruct (candidates_for s r []) as [|c' cs'] eqn:Hc' end.
    + unfold getAllAgents. destruct (agents s) as [|a rest]; simpl; [done|].
      split; [done|]. done.
    + match goal with |- context [assign now s ?l ?r ?x] =>
        destruct (assign_returns now s l r x) as (r' & s' & a & -> & Hin & _) end; [done|].
      simpl. split; [done|]. intros Hnil.
      unfold candidates_for in Hc'. rewrite Hnil, discover_nil in Hc'. done.
  - destruct (assign_returns now s (c :: cs) st (default default_strategy (opt_strategy options)))
      as (r' & s' & a & -> & Hin & _); [done|].
    simpl. split; [done|]. intros Hnil.
    unfold candidates_for in Hc. rewrite Hnil, discover_nil in Hc. done.
Qed.


Lemma route_throws_only_on_empty_registry_witness :
  is_thrown (route CAPABILITY_MATCH 0 SchedulerScenario.default_agents
               (job "s1" ["teleport"] []) plain).1 = true
  <-> agents SchedulerScenario.default_agents = [].
Proof.
  apply (route_throws_only_on_empty_registry CAPABILITY_MATCH 0
           SchedulerScenario.default_agents (job "s1" ["teleport"] []) plain);
    reflexivity.
Defined.

(** X12.  When [discover] finds a candidate, [route] assigns the subtask to
    a registered agent that is not excluded, not offline, has every
    required capability and a free slot, whatever the strategy. *)
Theorem route_assigns_a_capable_agent_with_a_free_slot
    (default_strategy : string) (now : Z) (s : State)
    (st : Decomposer.Subtask) (options : Options) :
  candidates_for s st (excludeAgents options) ≠ [] ->
  exists r s' a,
    route default_strategy now s st options = (Returned r, s')
    /\ a ∈ agents s
    /\ Router.agentId r = Registry.agentId a
    /\ subtaskId r = Decomposer.id st
    /\ (Registry.agentId a ∉ excludeAgents options)
    /\ status a ≠ offline
    /\ (forall c, c ∈ default [] (Decomposer.requiredCapabilities st) -> c ∈ capabilities a)
    /\ currentLoad a < maxConcurrent a
    /\ agents s' = updateLoad (Registry.agentId a) 1 (agents s).
Proof.
  intros Hne. unfold route.
  destruct (candidates_for s st (excludeAgents options)) as [|c cs] eqn:Hc; [done|].
  destruct (assign_returns now s (c :: cs) st (default default_strategy (opt_strategy options)))
    as (r & s' & a & -> & Hin & Hid & Hsub & Hag & _); [done|].
  exists r, s', a. split; [done|].
  rewrite <- Hc in Hin. unfold candidates_for in Hin.
  apply elem_of_discover in Hin as (H1 & H2 & H3 & H4 & H5).
  simpl in *. repeat split; try done. lia.
Qed.

Lemma route_assigns_a_capable_agent_with_a_free_slot_witness :
  exists r s' a,
    route CAPABILITY_MATCH 0 SchedulerScenario.two_workers (job "s1" ["read"] []) plain
      = (Returned r, s')
    /\ a ∈ agents SchedulerScenario.two_workers
    /\ Router.agentId r = Registry.agentId a
    /\ subtaskId r = Decomposer.id (job "s1" ["read"] [])
    /\ (Registry.agentId a ∉ excludeAgents plain)
    /\ status a ≠ offline
    /\ (forall c, c ∈ default [] (Decomposer.requiredCapabilities (job "s1" ["read"] []))
          -> c ∈ capabilities a)
    /\ currentLoad a < maxConcurrent a
    /\ agents s' = updateLoad (Registry.agentId a) 1 (agents SchedulerScenario.two_workers).
Proof.
  apply (route_assigns_a_capable_agent_with_a_free_slot CAPABILITY_MATCH 0
           SchedulerScenario.two_workers (job "s1" ["read"] []) plain).
  vm_compute. discriminate.
Defined.

(** *** Load accounting *)

Lemma totalLoad_cons a agents :
  totalLoad (getStats (a :: agents)) = currentLoad a + totalLoad (getStats agents).
Proof.
  unfold getStats, getAllAgents. simpl.
  assert (H : forall l acc, foldl (fun sum a => sum + currentLoad a) acc l
                = acc + foldl (fun sum a => sum + currentLoad a) 0 l).
  { induction l as [|b rest IH]; intros acc; simpl; [lia|].
    rewrite (IH (acc + currentLoad b)), (IH (0 + currentLoad b)). lia. }
  apply H.
Qed.

Lemma totalLoad_set agents a a' :
  get agents (Registry.agentId a') = Some a ->
  totalLoad (getStats (set agents a'))
    = totalLoad (getStats agents) - currentLoad a + currentLoad a'.
Proof.
  induction agents as [|b rest IH]; cbn [get set]; [done|].
  case_decide as Hb.
  - intros [= ->]. rewrite !totalLoad_cons. lia.
  - intros H. rewrite !totalLoad_cons, (IH H). lia.
Qed.

Lemma set_nonneg agents a' :
  Forall (fun a => 0 <= currentLoad a) agents -> 0 <= currentLoad a' ->
  Forall (fun a => 0 <= currentLoad a) (set agents a').
Proof.
  intros Hl Ha. induction Hl as [|b rest Hb Hl IH]; simpl.
  - by repeat constructor.
  - case_decide; constructor; done.
Qed.

Lemma updateLoad_nonneg i delta agents :
  Forall (fun a => 0 <= currentLoad a) agents ->
  Forall (fun a => 0 <= currentLoad a) (updateLoad i delta agents).
Proof.
  intros Hl. unfold updateLoad. destruct (get agents i) as [a|]; [|done].
  apply set_nonneg; [done|]. simpl. lia.
Qed.

Lemma updateLoad_totalLoad i agents a :
  Forall (fun a => 0 <= currentLoad a) agents ->
  a ∈ agents -> Registry.agentId a = i ->
  totalLoad (getStats (updateLoad i 1 agents)) = totalLoad (getStats agents) + 1.
Proof.
  intros Hl Hin Hid. unfold updateLoad.
  destruct (get_elem_of agents a Hin) as [a0 Ha0]. rewrite Hid in Ha0. rewrite Ha0.
  destruct (get_Some _ _ _ Ha0) as [Hin0 Hid0].
  rewrite (totalLoad_set agents a0); [|by simpl; rewrite Hid0].
  rewrite Forall_forall in Hl. specialize (Hl a0 Hin0). simpl. lia.
Qed.

(** What one [route] does to the loads: a route that is returned
    adds one unit, a route that throws leaves the router as it was. *)
Lemma route_load default_strategy now s st options :
  Forall (fun a => 0 <= currentLoad a) (agents s) ->
  match route default_strategy now s st options with
  | (Returned r, s') =>
      totalLoad (getStats (agents s')) = totalLoad (getStats (agents s)) + 1
      /\ Forall (fun a => 0 <= currentLoad a) (agents s')
      /\ subtaskId r = Decomposer.id st
  | (Thrown _, s') => s' = s
  end.
Proof.
  intros Hl.
  assert (Hassign : forall cands st' strat, cands ≠ [] ->
    (forall a, a ∈ cands -> a ∈ agents s) ->
    exists r s', assign now s cands st' strat = (Returned r, s')
      /\ totalLoad (getStats (agents s')) = totalLoad (getStats (agents s)) + 1
      /\ Forall (fun a => 0 <= currentLoad a) (agents s')
      /\ subtaskId r = Decomposer.id st').
  { intros cands st' strat Hne Hsub.
    destruct (assign_returns now s cands st' strat Hne)
      as (r & s' & a & Heq & Hin & Hid & Hst & Hag & _).
    exists r, s'. split; [done|]. rewrite Hag. repeat split; try done.
    - by apply (updateLoad_totalLoad _ _ a); [|apply Hsub|].
    - by apply updateLoad_nonneg. }
  assert (Hcands : forall st' ex a, a ∈ candidates_for s st' ex -> a ∈ agents s).
  { intros st' ex a Ha. unfold candidates_for in Ha.
    by apply elem_of_discover in Ha as [? _]. }
  unfold route.
  destruct (candidates_for s st (excludeAgents options)) as [|c cs] eqn:Hc.
  - destruct (fallbackEnabled s && negb (opt_isFallback options)); [|done].
    unfold fallbackRoute, route_no_fallback.
    match goal with |- context [candidates_for s ?r []] =>
      destruct (candidates_for s r []) as [|c' cs'] eqn:Hc' end.
    + unfold getAllAgents. destruct (head (agents s)) as [a|] eqn:Hh; [|done].
      lazy beta iota. cbn [agents with_agents subtaskId]. repeat split.
      * apply (updateLoad_totalLoad _ _ a); [done | | done].
        apply head_Some in Hh as [l' ->]. left.
      * by apply updateLoad_nonneg.
    + match goal with |- context [assign now s ?l ?r ?x] =>
        destruct (Hassign l r x) as (r' & s' & -> & H1 & H2 & H3) end; [done | |done].
      intros a Ha. rewrite <- Hc' in Ha. by apply Hcands in Ha.
  - destruct (Hassign (c :: cs) st (default default_strategy (opt_strategy options)))
      as (r' & s' & -> & H1 & H2 & H3); [done | |done].
    intros a Ha. rewrite <- Hc in Ha. by apply Hcands in Ha.
Qed.

Lemma routeBatch_spec default_strategy now subtasks options : forall s,
  Forall (fun a => 0 <= currentLoad a) (agents s) ->
  let '(entries, s') := routeBatch default_strategy now s subtasks options in
  map batch_subtaskId entries = map Decomposer.id subtasks
  /\ totalLoad (getStats (agents s'))
     = totalLoad (getStats (agents s))
       + Z.of_nat (length (List.filter batch_success entries))
  /\ Forall (fun a => 0 <= currentLoad a) (agents s').
Proof.
  induction subtasks as [|st rest IH]; intros s Hl; cbn [routeBatch].
  - repeat split; [cbn [List.filter length]; lia | done].
  - pose proof (route_load default_strategy now s st options Hl) as Hr.
    destruct (route default_strategy now s st options) as [[r|e] s1].
    + destruct Hr as (Hload & Hl1 & Hid). specialize (IH s1 Hl1).
      destruct (routeBatch default_strategy now s1 rest options) as [entries s2].
      destruct IH as (Hids & Hsum & Hl2).
      cbn [map List.filter length batch_success batch_subtaskId].
      rewrite Hids, Hid, Hsum, Hload. repeat split; [lia | done].
    + subst s1. specialize (IH s Hl).
      destruct (routeBatch default_strategy now s rest options) as [entries s2].
      destruct IH as (Hids & Hsum & Hl2).
      cbn [map List.filter length batch_success batch_subtaskId].
      rewrite Hids, Hsum. repeat split; done.
Qed.

(** X13.  [routeBatch] answers with one entry per subtask, in order, also
    for the subtasks that could not be routed, and the loads of the
    registry grow by exactly the number of entries reported as
    routed. *)
Theorem routeBatch_accounts_for_every_subtask
    (default_strategy : string) (now : Z) (s s' : State)
    (subtasks : list Decomposer.Subtask) (options : Options)
    (entries : list BatchEntry) :
  Forall (fun a => 0 <= currentLoad a) (agents s) ->
  routeBatch default_strategy now s subtasks options = (entries, s') ->
  map batch_subtaskId entries = map Decomposer.id subtasks
  /\ totalLoad (getStats (agents s'))
     = totalLoad (getStats (agents s))
       + Z.of_nat (length (List.filter batch_success entries)).
Proof.
  intros Hl Heq.
  pose proof (routeBatch_spec default_strategy now subtasks options s Hl) as H.
  rewrite Heq in H. tauto.
Qed.


Lemma routeBatch_accounts_for_every_subtask_witness :
  map batch_subtaskId
      (routeBatch CAPABILITY_MATCH 0 SchedulerScenario.two_workers
         [job "s1" ["read"] []; job "s2" ["read"] []] plain).1
    = map Decomposer.id [job "s1" ["read"] []; job "s2" ["read"] []]
  /\ totalLoad (getStats (agents
       (routeBatch CAPABILITY_MATCH 0 SchedulerScenario.two_workers
          [job "s1" ["read"] []; job "s2" ["read"] []] plain).2))
     = totalLoad (getStats (agents SchedulerScenario.two_workers))
       + Z.of_nat (length (List.filter batch_success
           (routeBatch CAPABILITY_MATCH 0 SchedulerScenario.two_workers
              [job "s1" ["read"] []; job "s2" ["read"] []] plain).1)).
Proof.
  apply (routeBatch_accounts_for_every_subtask CAPABILITY_MATCH 0
           SchedulerScenario.two_workers _
           [job "s1" ["read"] []; job "s2" ["read"] []] plain).
  - repeat first [apply List.Forall_cons | apply List.Forall_nil]; simpl; lia.
  - reflexivity.
Defined.

(** X14.  The load-balance strategy picks a candidate whose load ratio
    [currentLoad / maxConcurrent] is the lowest of all candidates; the
    loads and capacities are in the range in which the doubles compare
    as the exact ratios. *)
Theorem selectByLoadBalance_picks_lowest_load_ratio
    (candidates : list Agent) (best : Agent) :
  Forall in_exact_range candidates ->
  selectByLoadBalance candidates = Some best ->
  best ∈ candidates
  /\ forall a, a ∈ candidates ->
       currentLoad best * maxConcurrent a <= currentLoad a * maxConcurrent best.
Proof.
  unfold selectByLoadBalance, reduce_best.
  destruct candidates as [|first rest]; [done|].
  intros Hrange [= <-].
  assert (Hpos : Forall (fun a => 0 < maxConcurrent a) (first :: rest)).
  { eapply Forall_impl; [exact Hrange|]. by intros a [_ [? _]]. }
  apply Forall_cons in Hpos as [Hfirst Hrest].
  assert (H : forall seen b0,
    0 < maxConcurrent b0 -> Forall (fun a => 0 < maxConcurrent a) seen ->
    b0 ∈ seen ->
    (forall a, a ∈ seen -> currentLoad b0 * maxConcurrent a <= currentLoad a * maxConcurrent b0) ->
    let b := foldl (fun best current => if ratio_lt current best then current else best)
               b0 rest in
    b ∈ seen ++ rest
    /\ forall a, a ∈ seen ++ rest ->
         currentLoad b * maxConcurrent a <= currentLoad a * maxConcurrent b).
  { clear Hrange.
    induction Hrest as [|x rest Hx Hrest IH]; intros seen b0 Hb0 Hseen Hin Hmin; simpl.
    - by rewrite app_nil_r.
    - assert (Hsx : Forall (fun a => 0 < maxConcurrent a) (seen ++ [x])).
      { apply Forall_app. split; [done|]. by repeat constructor. }
      rewrite (cons_middle x seen rest), app_assoc.
      destruct (ratio_lt x b0) eqn:E; unfold ratio_lt in E.
      + apply Z.ltb_lt in E. apply IH; [done | done | set_solver |].
        intros a Ha. apply elem_of_app in Ha as [Ha|Ha].
        * specialize (Hmin a Ha). rewrite Forall_forall in Hseen.
          specialize (Hseen a Ha). simpl in Hseen.
          apply (Z.mul_le_mono_pos_r _ _ (maxConcurrent b0) Hb0).
          transitivity (currentLoad b0 * maxConcurrent x * maxConcurrent a); [nia|].
          nia.
        * apply list_elem_of_singleton in Ha as ->. lia.
      + apply Z.ltb_ge in E. apply IH; [done | done | set_solver |].
        intros a Ha. apply elem_of_app in Ha as [Ha|Ha]; [by apply Hmin|].
        apply list_elem_of_singleton in Ha as ->. lia. }
  apply (H [first] first); [done | by repeat constructor | left |].
  intros a Ha. apply list_elem_of_singleton in Ha as ->. lia.
Qed.

(** [alpha] is loaded to three quarters, [beta] to a quarter: [beta]
    is picked. *)
Lemma selectByLoadBalance_picks_lowest_load_ratio_witness :
  loaded (worker "beta" ["read"] 4) 1
    ∈ [loaded (worker "alpha" ["read"] 4) 3; loaded (worker "beta" ["read"] 4) 1]
  /\ forall a,
       a ∈ [loaded (worker "alpha" ["read"] 4) 3; loaded (worker "beta" ["read"] 4) 1] ->
       currentLoad (loaded (worker "beta" ["read"] 4) 1) * maxConcurrent a
       <= currentLoad a * maxConcurrent (loaded (worker "beta" ["read"] 4) 1).
Proof.
  apply (selectByLoadBalance_picks_lowest_load_ratio
           [loaded (worker "alpha" ["read"] 4) 3; loaded (worker "beta" ["read"] 4) 1]).
  - repeat first [apply List.Forall_cons | apply List.Forall_nil];
      unfold in_exact_range; simpl; lia.
  - reflexivity.
Defined.


(** *** routeDAG *)

Lemma route_thrown default_strategy now s st options e s' :
  route default_strategy now s st options = (Thrown e, s') -> s' = s.
Proof.
  unfold route.
  destruct (candidates_for s st (excludeAgents options)) as [|c cs] eqn:Hc.
  - destruct (fallbackEnabled s && negb (opt_isFallback options)); [|by intros [= _ <-]].
    unfold fallbackRoute, route_no_fallback.
    match goal with |- context [candidates_for s ?r []] =>
      destruct (candidates_for s r []) as [|c' cs'] eqn:Hc' end.
    + destruct (head (getAllAgents (agents s))); [done | by intros [= _ <-]].
    + match goal with |- context [assign now s ?l ?r ?x] =>
        destruct (assign_returns now s l r x) as (r' & s1 & a & -> & _) end; done.
  - destruct (assign_returns now s (c :: cs) st (default default_strategy (opt_strategy options)))
      as (r' & s1 & a & -> & _); done.
Qed.

(** What holds of [routes] and [pending] all along [routeDAG]: a
    subtask id is still pending, or it has a route and names a subtask
    without dependencies. *)
Lemma route_pending_keeps default_strategy now (dag : Decomposer.DAG) routes pending s st :
  st ∈ Decomposer.subtasks dag -> Decomposer.dependsOn st = [] ->
  (forall x, x ∈ Decomposer.subtasks dag ->
     Decomposer.id x ∈ pending
     \/ (is_Some (routes !! Decomposer.id x)
         /\ exists x', x' ∈ Decomposer.subtasks dag
              /\ Decomposer.id x' = Decomposer.id x /\ Decomposer.dependsOn x' = [])) ->
  let '(routes1, pending1, s1) := route_pending default_strategy now (routes, pending, s) st in
  forall x, x ∈ Decomposer.subtasks dag ->
     Decomposer.id x ∈ pending1
     \/ (is_Some (routes1 !! Decomposer.id x)
         /\ exists x', x' ∈ Decomposer.subtasks dag
              /\ Decomposer.id x' = Decomposer.id x /\ Decomposer.dependsOn x' = []).
Proof.
  intros Hst Hdeps Hinv. unfold route_pending.
  destruct (route default_strategy now s st _) as [[r|e] s1]; [|done].
  intros x Hx. destruct (decide (Decomposer.id x = Decomposer.id st)) as [Heq|Hne].
  - right. rewrite Heq, lookup_insert_eq. split; [done|]. by exists st.
  - destruct (Hinv x Hx) as [Hp | [Hr Hex]].
    + left. set_solver.
    + right. by rewrite lookup_insert_ne.
Qed.

Lemma routeDAG_loop_returned default_strategy now fuel (dag : Decomposer.DAG) :
  forall routes pending s routes' s',
  routeDAG_loop default_strategy now fuel dag routes ∅ pending s
    = Some (Returned routes', s') ->
  (forall x, x ∈ Decomposer.subtasks dag ->
     Decomposer.id x ∈ pending
     \/ (is_Some (routes !! Decomposer.id x)
         /\ exists x', x' ∈ Decomposer.subtasks dag
              /\ Decomposer.id x' = Decomposer.id x /\ Decomposer.dependsOn x' = [])) ->
  forall x, x ∈ Decomposer.subtasks dag ->
     is_Some (routes' !! Decomposer.id x)
     /\ exists x', x' ∈ Decomposer.subtasks dag
          /\ Decomposer.id x' = Decomposer.id x /\ Decomposer.dependsOn x' = [].
Proof.
  induction fuel as [|fuel IH]; intros routes pending s routes' s'; [done|].
  cbn [routeDAG_loop]. case_decide as Hp.
  - intros [= <- <-] Hinv x Hx. destruct (Hinv x Hx) as [Hin|H]; [|done].
    rewrite Hp in Hin. set_solver.
  - set (executable := List.filter _ (Decomposer.subtasks dag)).
    assert (Hex : forall st, st ∈ executable ->
              st ∈ Decomposer.subtasks dag /\ Decomposer.dependsOn st = []).
    { intros st Hst. apply list_elem_of_In, filter_In in Hst as [Hst Hok].
      split; [by apply list_elem_of_In|].
      destruct (_ || _); [done|].
      destruct (Decomposer.dependsOn st) as [|d ds]; [done|].
      simpl in Hok. rewrite bool_decide_eq_false_2 in Hok by set_solver. done. }
    clearbody executable.
    destruct executable as [|e0 es] eqn:He; [done|]. rewrite <- He in *. clear He.
    assert (Hfold : forall l acc,
      (forall st, st ∈ l -> st ∈ Decomposer.subtasks dag /\ Decomposer.dependsOn st = []) ->
      (let '(r0, p0, _) := acc in
       forall x, x ∈ Decomposer.subtasks dag ->
         Decomposer.id x ∈ p0
         \/ (is_Some (r0 !! Decomposer.id x)
             /\ exists x', x' ∈ Decomposer.subtasks dag
                  /\ Decomposer.id x' = Decomposer.id x /\ Decomposer.dependsOn x' = [])) ->
      let '(r1, p1, _) := foldl (route_pending default_strategy now) acc l in
      forall x, x ∈ Decomposer.subtasks dag ->
         Decomposer.id x ∈ p1
         \/ (is_Some (r1 !! Decomposer.id x)
             /\ exists x', x' ∈ Decomposer.subtasks dag
                  /\ Decomposer.id x' = Decomposer.id x /\ Decomposer.dependsOn x' = [])).
    { induction l as [|st l IHl]; intros [[r0 p0] s0] Hl Hacc; simpl; [done|].
      apply IHl; [intros y Hy; apply Hl; by right|].
      destruct (Hl st) as [Hst Hd]; [left|].
      apply (route_pending_keeps default_strategy now dag r0 p0 s0 st Hst Hd Hacc). }
    intros Hloop Hinv.
    specialize (Hfold executable (routes, pending, s) Hex Hinv).
    destruct (foldl _ _ executable) as [[routes1 pending1] s1].
    by apply (IH routes1 pending1 s1 routes' s').
Qed.

(** X15.  [routeDAG] returns routes only for a DAG without dependencies:
    since nothing is ever marked as completed, every id of the DAG
    then has a route and names a subtask whose [dependsOn] is empty. *)
Theorem routeDAG_returns_only_without_dependencies
    (default_strategy : string) (now : Z) (fuel : nat) (dag : Decomposer.DAG)
    (s s' : State) (routes : gmap string Route) (st : Decomposer.Subtask) :
  routeDAG default_strategy now fuel dag s = Some (Returned routes, s') ->
  st ∈ Decomposer.subtasks dag ->
  is_Some (routes !! Decomposer.id st)
  /\ exists st', st' ∈ Decomposer.subtasks dag
       /\ Decomposer.id st' = Decomposer.id st /\ Decomposer.dependsOn st' = [].
Proof.
  unfold routeDAG. intros Hret Hst.
  apply (routeDAG_loop_returned default_strategy now fuel dag _ _ _ _ _ Hret); [|done].
  intros x Hx. left. apply elem_of_list_to_set, list_elem_of_fmap. by exists x.
Qed.

Lemma routeDAG_returns_only_without_dependencies_witness :
  is_Some ((<[ "s1" :=
      {| subtaskId := "s1"; Router.agentId := "alpha"; agentName := "alpha";
         strategy := CAPABILITY_MATCH; assignedAt := 0;
         estimatedDuration := Some 1000; isFallback := None; subtask := None |} ]> ∅
        : gmap string Route) !! Decomposer.id (job "s1" ["read"] []))
  /\ exists st', st' ∈ Decomposer.subtasks SchedulerScenario.one_job
       /\ Decomposer.id st' = Decomposer.id (job "s1" ["read"] [])
       /\ Decomposer.dependsOn st' = [].
Proof.
  apply (routeDAG_returns_only_without_dependencies CAPABILITY_MATCH 0 2
           SchedulerScenario.one_job SchedulerScenario.two_workers
           (with_agents SchedulerScenario.two_workers
              (updateLoad "alpha" 1 (agents SchedulerScenario.two_workers)))).
  - by vm_compute.
  - apply list_elem_of_here.
Defined.

(** X16.  When a subtask without dependencies cannot be routed, [routeDAG]
    neither returns nor throws: the loop tries the same subtasks again
    and again, however long it runs. *)
Theorem routeDAG_spins_when_no_root_can_be_routed
    (default_strategy : string) (now : Z) (dag : Decomposer.DAG) (s : State)
    (root : Decomposer.Subtask) :
  root ∈ Decomposer.subtasks dag ->
  Decomposer.dependsOn root = [] ->
  (forall st, st ∈ Decomposer.subtasks dag -> Decomposer.dependsOn st = [] ->
     is_thrown (route default_strategy now s st
                  {| opt_strategy := None; excludeAgents := [];
                     opt_isFallback := false |}).1 = true) ->
  forall fuel, routeDAG default_strategy now fuel dag s = None.
Proof.
  intros Hroot Hdeps Hthrow fuel. unfold routeDAG.
  set (pending := list_to_set _).
  assert (Hp : Decomposer.id root ∈ pending).
  { apply elem_of_list_to_set, list_elem_of_fmap. by exists root. }
  clearbody pending.
  induction fuel as [|fuel IH]; [done|].
  cbn [routeDAG_loop]. rewrite decide_False by set_solver.
  set (executable := List.filter _ (Decomposer.subtasks dag)).
  assert (Hex : forall st, st ∈ executable ->
            st ∈ Decomposer.subtasks dag /\ Decomposer.dependsOn st = []).
  { intros st Hst. apply list_elem_of_In, filter_In in Hst as [Hst Hok].
    split; [by apply list_elem_of_In|].
    destruct (_ || _); [done|].
    destruct (Decomposer.dependsOn st) as [|d ds]; [done|].
    simpl in Hok. rewrite bool_decide_eq_false_2 in Hok by set_solver. done. }
  assert (Hin : root ∈ executable).
  { apply list_elem_of_In, filter_In. split; [by apply list_elem_of_In|].
    rewrite bool_decide_eq_false_2 by set_solver.
    rewrite bool_decide_eq_false_2; [by rewrite Hdeps|].
    rewrite lookup_empty. by intros [? ?]. }
  clearbody executable.
  assert (Hfold : foldl (route_pending default_strategy now) (∅, pending, s) executable
                  = (∅, pending, s)).
  { clear Hin. induction executable as [|st l IHl]; [done|]. simpl.
    destruct (Hex st) as [Hst Hd]; [left|].
    specialize (Hthrow st Hst Hd).
    destruct (route default_strategy now s st _) as [[r|e] s1] eqn:Hr; [done|].
    apply route_thrown in Hr as ->. apply IHl. intros y Hy. apply Hex. by right. }
  destruct executable as [|e0 es]; [by apply not_elem_of_nil in Hin|].
  rewrite Hfold. exact IH.
Qed.

Lemma routeDAG_spins_when_no_root_can_be_routed_witness :
  routeDAG CAPABILITY_MATCH 0 1000 SchedulerScenario.one_job
    {| agents := []; roundRobinIndex := 0; fallbackEnabled := true |} = None.
Proof.
  apply (routeDAG_spins_when_no_root_can_be_routed CAPABILITY_MATCH 0
           SchedulerScenario.one_job
           {| agents := []; roundRobinIndex := 0; fallbackEnabled := true |}
           (job "s1" ["read"] [])).
  - apply list_elem_of_here.
  - reflexivity.
  - intros st _ _. reflexivity.
Defined.

End RoutingFacts.

(** ** The retry executor: retries, error handling and checkpoints *)

Module RecoveryFacts.

Import Retry.

Section Execute.

Variable R : Type.
Variable classifyError : string -> string.
Variable retryableErrors : list string.
Variable maxRetries : nat.
Variable fn : nat -> completion R.

(** The first [k] invocations throw errors of a retryable type. *)
#[local] Abbreviation retryable_until k :=
  (forall j, (j < k)%nat ->
     exists e, fn j = Thrown e /\ isRetryable retryableErrors (classifyError e) = true).

Lemma execute_from_spec budget attempt lastError :
  (budget + attempt = S maxRetries)%nat ->
  retryable_until attempt ->
  let out := execute_from R classifyError retryableErrors budget maxRetries fn
               attempt lastError in
  (forall k r, (k <= maxRetries)%nat -> fn k = Returned r -> retryable_until k ->
     success out = true /\ result out = Some r /\ attempts out = Some (S k))
  /\ (success out = true ->
      exists k r, (k <= maxRetries)%nat /\ fn k = Returned r /\ retryable_until k)
  /\ (exists n, attempts out = Some n /\ (n <= S maxRetries)%nat
        /\ (budget ≠ 0%nat -> 1 <= n)%nat
        /\ (budget ≠ 0%nat -> reason out ≠ Some "未知错误")).
Proof.
  revert attempt lastError.
  induction budget as [|budget IH]; intros attempt lastError Hsum Hpre; cbn [execute_from].
  - cbn. split; [|split].
    + intros k r Hk Hfn Hk'. destruct (Hpre k) as (e & He & _); [lia | congruence].
    + done.
    + exists attempt. split; [done|]. split; [lia|]. split; done.
  - destruct (fn attempt) as [r0|e] eqn:Hfn.
    + cbn. split; [|split].
      * intros k r Hk Hfnk Hk'.
        destruct (Nat.lt_trichotomy k attempt) as [Hlt | [-> | Hgt]].
        -- destruct (Hpre k Hlt) as (e & He & _). congruence.
        -- rewrite Hfn in Hfnk. injection Hfnk as ->. done.
        -- destruct (Hk' attempt Hgt) as (e & He & _). congruence.
      * intros _. exists attempt, r0. split; [lia|]. split; done.
      * exists (S attempt). split; [done|]. split; [lia|]. split; [lia | done].
    + destruct (isRetryable retryableErrors (classifyError e)) eqn:Hre; cbn [negb].
      * destruct (Nat.ltb_spec maxRetries (S attempt)) as [Hlast|Hmore].
        -- cbn. split; [|split].
           ++ intros k r Hk Hk1 Hk2. exfalso.
              destruct (Nat.lt_trichotomy k attempt) as [Hlt | [-> | Hgt]].
              ** destruct (Hpre k Hlt) as (e' & He' & _). congruence.
              ** congruence.
              ** lia.
           ++ done.
           ++ exists (S attempt). split; [done|]. split; [lia|]. split; [lia | done].
        -- assert (Hpre' : retryable_until (S attempt)).
           { intros j Hj. destruct (decide (j = attempt)) as [->|Hne].
             - by exists e.
             - apply Hpre. lia. }
           destruct (IH (S attempt) (Some e) ltac:(lia) Hpre') as (H1 & H2 & H3).
           split; [exact H1|]. split; [exact H2|].
           destruct H3 as (n & Hn & Hle & Hone & Hreason).
           exists n. split; [done|]. split; [done|].
           split; [intros _; apply Hone; lia | intros _; apply Hreason; lia].
      * cbn. split; [|split].
        -- intros k r Hk Hk1 Hk2. exfalso.
           destruct (Nat.lt_trichotomy k attempt) as [Hlt | [-> | Hgt]].
           ++ destruct (Hpre k Hlt) as (e' & He' & _). congruence.
           ++ congruence.
           ++ destruct (Hk2 attempt Hgt) as (e' & He' & Hre'). congruence.
        -- done.
        -- exists (S attempt). split; [done|]. split; [lia|]. split; [lia | done].
Qed.

(** X17.  [execute] succeeds exactly when one of the first [maxRetries + 1]
    invocations returns and every invocation before it threw an error
    of a retryable type; it then reports the value returned and the
    number of invocations. *)
Theorem execute_succeeds_iff_retryable_until_return :
  let out := execute classifyError retryableErrors maxRetries fn in
  (success out = true <->
     exists k r, (k <= maxRetries)%nat /\ fn k = Returned r /\ retryable_until k)
  /\ (forall k r, (k <= maxRetries)%nat -> fn k = Returned r -> retryable_until k ->
        result out = Some r /\ attempts out = Some (S k)).
Proof.
  unfold execute.
  destruct (execute_from_spec (S maxRetries) 0 None) as (H1 & H2 & _); [lia | |].
  { intros j Hj. lia. }
  cbn zeta. split; [split|].
  - exact H2.
  - intros (k & r & Hk & Hfn & Hpre). by destruct (H1 k r Hk Hfn Hpre).
  - intros k r Hk Hfn Hpre. by destruct (H1 k r Hk Hfn Hpre) as (_ & ? & ?).
Qed.

Lemma execute_with_nat :
  execute_with classifyError retryableErrors (Z.of_nat maxRetries) fn
  = execute classifyError retryableErrors maxRetries fn.
Proof.
  unfold execute_with, execute.
  by replace (Z.to_nat (Z.of_nat maxRetries + 1)) with (S maxRetries) by lia;
    rewrite Nat2Z.id.
Qed.

Lemma execute_within_budget :
  let out := execute classifyError retryableErrors maxRetries fn in
  exists n, attempts out = Some n /\ (1 <= n <= S maxRetries)%nat
    /\ reason out ≠ Some "未知错误".
Proof.
  unfold execute.
  destruct (execute_from_spec (S maxRetries) 0 None) as (_ & _ & n & Hn & Hle & H1 & Hr);
    [lia | |].
  { intros j Hj. lia. }
  exists n. repeat split; [done | by apply H1 | done | by apply Hr].
Qed.

End Execute.

Section Configured.

Variable R : Type.
Variable classifyError : string -> string.
Variable retryableErrors : list string.
Variable fn : nat -> completion R.

(** X18.  With [this.maxRetries] a non-negative integer, [execute]
    invokes the operation at least once and at most [maxRetries + 1]
    times, and does not report the reason given after the loop, an
    unknown error.  With a negative [this.maxRetries], which the
    constructor keeps, the loop is not entered: the operation is not
    invoked and the failure after the loop is returned, with zero
    attempts and the unknown error as reason. *)
Theorem execute_attempts_within_budget (maxRetries : Z) :
  let out := execute_with classifyError retryableErrors maxRetries fn in
  if maxRetries <? 0
  then out = {| success := false; result := None; error := None;
                reason := Some "未知错误"; was_downgraded := false; from := None;
                to := None; attempts := Some 0%nat; errorType := None |}
  else exists n, attempts out = Some n
         /\ 1 <= Z.of_nat n <= maxRetries + 1
         /\ reason out ≠ Some "未知错误".
Proof.
  destruct (Z.ltb_spec maxRetries 0) as [Hneg|Hpos]; cbn zeta.
  - unfold execute_with.
    by replace (Z.to_nat (maxRetries + 1)) with 0%nat by lia.
  - rewrite <- (Z2Nat.id maxRetries Hpos), execute_with_nat.
    destruct (execute_within_budget R classifyError retryableErrors
                (Z.to_nat maxRetries) fn) as (n & Hn & Hle & Hr).
    exists n. split; [done|]. split; [lia | done].
Qed.

(** The constructor's default applies to a missing option and to zero,
    so that a configured executor makes no attempt only when
    [options.maxRetries] is negative. *)
Lemma maxRetries_of_negative (option : option Z) :
  maxRetries_of option < 0 <-> exists n, option = Some n /\ n < 0.
Proof.
  unfold maxRetries_of. destruct option as [n|].
  - destruct (Z.eqb_spec n 0) as [->|Hn].
    + split; [lia | intros (? & [= <-] & ?); lia].
    + split; [by exists n | by intros (? & [= <-] & ?)].
  - split; [lia | by intros (? & ? & _)].
Qed.

End Configured.



Section Backoff.

Variable R : Type.
Variable classifyError : string -> string.
Variable maxRetries : nat.
Variable enableDowngrade : bool.

Lemma retry_rounds_spec (fn : nat -> Context -> option string -> completion R)
    (err : nat -> string) (context : Context) (total k : nat) :
  forall rounds attempt lastErrorType lastError,
  (1 <= attempt)%nat ->
  (forall j t, (attempt - 1 <= j < k)%nat -> fn j context t = Thrown (err j)) ->
  (rounds + attempt = S total)%nat ->
  let out := retry_rounds R classifyError rounds total fn attempt context
               lastErrorType lastError in
  (forall r, (k < total)%nat -> (attempt - 1 <= k)%nat ->
     (forall t, fn k context t = Returned r) ->
     success out.1 = true /\ result out.1 = Some r /\ attempts out.1 = Some (S k))
  /\ ((total <= k)%nat -> (rounds ≠ 0)%nat ->
      success out.1 = false /\ error out.1 = Some (err (total - 1)%nat)
      /\ attempts out.1 = Some total
      /\ out.2 = Some (classifyError (err (total - 1)%nat))).
Proof.
  induction rounds as [|rounds IH]; intros attempt lastErrorType lastError Hatt Hthrow Hsum;
    cbn [retry_rounds].
  - cbn. split; [|done]. intros r Hk. lia.
  - destruct (decide (attempt - 1 < k)%nat) as [Hlt|Hge].
    + rewrite (Hthrow (attempt - 1)%nat lastErrorType) by lia.
      destruct (IH (S attempt) (Some (classifyError (err (attempt - 1)%nat)))
                  (Some (err (attempt - 1)%nat))) as [H1 H2]; [lia | | lia |].
      { intros j t Hj. apply Hthrow. lia. }
      split.
      * intros r Hk Hle Hret. apply H1; [done | lia | done].
      * intros Hk _. destruct rounds as [|rounds'].
        -- cbn. assert (attempt = total) as -> by lia. done.
        -- by apply H2.
    + split; [|lia]. intros r Hk Hle Hret.
      assert (k = (attempt - 1)%nat) as -> by lia.
      rewrite Hret. cbn. repeat split. f_equal. lia.
Qed.

(** X19.  [retryWithBackoff] does not look at the type of an error: it
    invokes the operation until it returns, at most [maxRetries] times,
    and after the last failure it reports that error and leaves its
    type in [context.lastErrorType]. *)
Theorem retryWithBackoff_retries_whatever_the_error
    (fn : nat -> Context -> option string -> completion R)
    (err : nat -> string) (context : Context) (lastErrorType : option string)
    (k : nat) :
  (1 <= maxRetries)%nat ->
  (forall j t, (j < k)%nat -> fn j context t = Thrown (err j)) ->
  let out := retryWithBackoff R classifyError maxRetries None fn context lastErrorType in
  (forall r, (k < maxRetries)%nat -> (forall t, fn k context t = Returned r) ->
     success out.1 = true /\ result out.1 = Some r /\ attempts out.1 = Some (S k))
  /\ ((maxRetries <= k)%nat ->
      success out.1 = false /\ error out.1 = Some (err (maxRetries - 1)%nat)
      /\ attempts out.1 = Some maxRetries
      /\ out.2 = Some (classifyError (err (maxRetries - 1)%nat))).
Proof.
  intros Hpos Hthrow. unfold retryWithBackoff.
  destruct (retry_rounds_spec fn err context maxRetries k maxRetries 1 lastErrorType None)
    as [H1 H2]; [lia | | lia |].
  { intros j t Hj. apply Hthrow. lia. }
  split.
  - intros r Hk Hret. apply H1; [done | lia | done].
  - intros Hk. apply H2; [done | lia].
Qed.

(** X20.  [handleErrorByType] returns no result object, but [undefined], in
    exactly one case: a [RESOURCE] error when the downgrade is disabled
    or the context names no branch. *)
Theorem handleErrorByType_undefined_iff_resource_without_downgrade
    (fuel : nat) (chain : gmap string string) (error errorType : string)
    (context : Context) (lastErrorType : option string)
    (fn : nat -> Context -> option string -> completion R) :
  handleErrorByType R classifyError maxRetries enableDowngrade fuel chain error errorType
      context lastErrorType fn = Some (Returned None)
  <-> errorType = "RESOURCE"
      /\ (enableDowngrade = false \/ branch context = None \/ branch context = Some "").
Proof.
  unfold handleErrorByType.
  case_bool_decide as H1.
  { split; [done|]. intros [-> _]. exfalso.
    apply list_elem_of_In in H1. simpl in H1. intuition discriminate. }
  case_decide as H2.
  - destruct enableDowngrade; simpl.
    + destruct (branch context) as [[|c b]|] eqn:Hb.
      * split; [intros _|done]. split; [done|]. by right; right.
      * destruct (downgradeAndRetry _ _ _ _ _) as [[[r|e] l]|].
        -- split; [done|]. intros [_ [H|[H|H]]]; done.
        -- split; [done|]. intros [_ [H|[H|H]]]; done.
        -- split; [done|]. intros [_ [H|[H|H]]]; done.
      * split; [intros _|done]. split; [done|]. by right; left.
    + split; [intros _|done]. split; [done|]. by left.
  - case_decide as H3; [split; [done | by intros [? _]]|].
    case_bool_decide as H4; split; try done; by intros [? _].
Qed.

End Backoff.

Lemma retryWithBackoff_retries_whatever_the_error_witness :
  let out := retryWithBackoff nat (fun _ => "PERMISSION") 3 None
               (fun n _ _ => if (n <? 2)%nat then Thrown "permission denied"
                             else Returned n)
               {| branch := Some "Standard"; downgraded := false;
                  originalBranch := None |} None in
  (forall r, (2 < 3)%nat ->
     (forall t : option string,
        (fun n (_ : Context) (_ : option string) =>
           if (n <? 2)%nat then Thrown "permission denied" else Returned n)
          2%nat {| branch := Some "Standard"; downgraded := false;
                   originalBranch := None |} t = Returned r) ->
     success out.1 = true /\ result out.1 = Some r /\ attempts out.1 = Some 3%nat)
  /\ ((3 <= 2)%nat ->
      success out.1 = false
      /\ error out.1 = Some ((fun _ : nat => "permission denied") (3 - 1)%nat)
      /\ attempts out.1 = Some 3%nat
      /\ out.2 = Some ((fun _ : string => "PERMISSION")
                         ((fun _ : nat => "permission denied") (3 - 1)%nat))).
Proof.
  apply (retryWithBackoff_retries_whatever_the_error nat (fun _ => "PERMISSION") 3
           (fun n _ _ => if (n <? 2)%nat then Thrown "permission denied" else Returned n)
           (fun _ => "permission denied")
           {| branch := Some "Standard"; downgraded := false; originalBranch := None |}
           None 2).
  - lia.
  - intros j t Hj. destruct j as [|[|j]]; [reflexivity | reflexivity | lia].
Defined.


Section Checkpoints.

Variable R D : Type.

(** X21.  Saving a checkpoint and loading it gives back the data saved
    last, and [attempt] counts the saves of that task since its
    checkpoint was cleared; checkpoints of other tasks are not
    touched. *)
Theorem loadCheckpoint_returns_last_save_and_counts
    (t : string) (saves : list (Z * D)) (now : Z) (d : D)
    (cps : gmap string (Checkpoint D)) :
  let cps' := foldl (fun c s => saveCheckpoint D s.1 t s.2 c)
                (clearCheckpoint D t cps) (saves ++ [(now, d)]) in
  loadCheckpoint D t cps'
    = Some {| timestamp := now; data := d; attempt := S (length saves) |}
  /\ forall t', t' ≠ t -> loadCheckpoint D t' cps' = loadCheckpoint D t' cps.
Proof.
  cbn zeta. rewrite foldl_app. cbn [foldl fst snd].
  set (mid := foldl _ _ saves).
  assert (Hmid : (match mid !! t with Some c => attempt c | None => 0%nat end = length saves)
                 /\ forall t', t' ≠ t -> mid !! t' = cps !! t').
  { subst mid. induction saves as [|s saves IH] using rev_ind.
    - simpl. unfold clearCheckpoint. rewrite lookup_delete_eq. split; [done|].
      intros t' Hne. by rewrite lookup_delete_ne.
    - rewrite foldl_app, length_app. cbn [foldl length].
      destruct IH as [IH1 IH2]. unfold saveCheckpoint at 1 3.
      rewrite lookup_insert_eq. cbn [attempt]. rewrite IH1. split; [lia|].
      intros t' Hne. rewrite lookup_insert_ne by done. by apply IH2. }
  destruct Hmid as [H1 H2]. unfold loadCheckpoint, saveCheckpoint. split.
  - rewrite lookup_insert_eq, H1. do 2 f_equal. lia.
  - intros t' Hne. rewrite lookup_insert_ne by done. by apply H2.
Qed.

(** X22.  A checkpoint is used up by the first resume that succeeds: a
    failed resume leaves every checkpoint in place, a successful one
    reports the attempt count and removes the checkpoint of that task
    only, so that the next resume finds none and does not invoke the
    operation. *)
Theorem resumeFromCheckpoint_consumes_checkpoint_on_success_only
    (t : string) (fn fn' : Context -> D -> completion R) (context : Context)
    (cps : gmap string (Checkpoint D)) (cp : Checkpoint D) :
  loadCheckpoint D t cps = Some cp ->
  let out := resumeFromCheckpoint R D t fn context cps in
  match fn context (data cp) with
  | Returned r =>
      resume_success out.1 = true
      /\ resume_result out.1 = Some r
      /\ resume_attempts out.1 = Some (attempt cp)
      /\ loadCheckpoint D t out.2 = None
      /\ (forall t', t' ≠ t -> loadCheckpoint D t' out.2 = loadCheckpoint D t' cps)
      /\ resumeFromCheckpoint R D t fn' context out.2
         = ({| resume_success := false; resume_result := None; resume_error := None;
               resumed := None; resume_attempts := None;
               resume_reason := Some "无检查点可恢复" |}, out.2)
  | Thrown e =>
      resume_success out.1 = false
      /\ resume_error out.1 = Some e
      /\ out.2 = cps
  end.
Proof.
  intros Hcp. unfold resumeFromCheckpoint. rewrite Hcp.
  destruct (fn context (data cp)) as [r|e]; cbn; [|done].
  unfold loadCheckpoint. rewrite lookup_delete_eq.
  repeat split. intros t' Hne. by rewrite lookup_delete_ne.
Qed.

End Checkpoints.

Lemma resumeFromCheckpoint_consumes_checkpoint_on_success_only_witness :
  let cps : gmap string (Checkpoint nat) :=
    saveCheckpoint nat 0 "task-001" 3%nat ∅ in
  let out := resumeFromCheckpoint nat nat "task-001" (fun _ d => Returned d)
               {| branch := None; downgraded := false; originalBranch := None |} cps in
  resume_success out.1 = true
  /\ resume_result out.1 = Some 3%nat
  /\ resume_attempts out.1 = Some 1%nat
  /\ loadCheckpoint nat "task-001" out.2 = None
  /\ (forall t', t' ≠ "task-001" ->
        loadCheckpoint nat t' out.2 = loadCheckpoint nat t' cps)
  /\ resumeFromCheckpoint nat nat "task-001" (fun _ d => Returned d)
       {| branch := None; downgraded := false; originalBranch := None |} out.2
     = ({| resume_success := false; resume_result := None; resume_error := None;
           resumed := None; resume_attempts := None;
           resume_reason := Some "无检查点可恢复" |}, out.2).
Proof.
  apply (resumeFromCheckpoint_consumes_checkpoint_on_success_only nat nat "task-001"
           (fun _ d => Returned d) (fun _ d => Returned d)
           {| branch := None; downgraded := false; originalBranch := None |}
           (saveCheckpoint nat 0 "task-001" 3%nat ∅)
           {| timestamp := 0; data := 3%nat; attempt := 1 |}).
  reflexivity.
Defined.

End RecoveryFacts.

(** ** The task decomposer: sizes, groups and executable subtasks *)

Module DecompositionFacts.

Import Decomposer Graph DecomposerFacts.

(** X23.  Following the parallel groups of [buildDAG] in order never gets
    stuck: when every dependency names a subtask and the groups before
    a group are completed, [getExecutableSubtasks] returns every
    subtask of that group. *)
Theorem next_group_is_executable
    (sts : list Subtask) (dag : DAG) (k : nat) (gk : list string) (st : Subtask) :
  (forall x d, x ∈ sts -> d ∈ dependsOn x -> d ∈ id <$> sts) ->
  buildDAG sts = Some dag ->
  parallelGroups dag !! k = Some gk ->
  st ∈ sts -> id st ∈ gk ->
  st ∈ getExecutableSubtasks dag (list_to_set (concat (take k (parallelGroups dag)))).
Proof.
  intros Hclosed Hb Hgk Hst Hin.
  destruct (buildDAG_spec sts) as (dag' & Hb' & Hsts & _ & Hnd & _ & _ & Htopo).
  rewrite Hb in Hb'. injection Hb' as <-.
  unfold getExecutableSubtasks. rewrite Hsts.
  apply list_elem_of_In, filter_In. split; [by apply list_elem_of_In|].
  rewrite bool_decide_eq_false_2.
  - apply forallb_forall. intros d Hd. apply bool_decide_eq_true.
    apply list_elem_of_In in Hd.
    assert (Hdep : depends sts d (id st)).
    { split; [|by exists st]. apply elem_of_keys. by apply (Hclosed st). }
    destruct (Htopo k gk d (id st) Hgk Hin Hdep) as (j & gj & Hlt & Hgj & Hj).
    apply elem_of_list_to_set, elem_of_concat. exists j, gj. split; [|done].
    by rewrite lookup_take_lt.
  - rewrite elem_of_list_to_set. intros Hprev.
    apply elem_of_concat in Hprev as (j & gj & Hgj & Hj).
    apply lookup_take_Some in Hgj as [Hgj Hlt].
    pose proof (concat_lookup_unique (id st) _ j k gj gk Hnd Hgj Hgk Hj Hin). lia.
Qed.


Lemma next_group_is_executable_witness :
  exists dag,
    buildDAG [RouterScenario.job "a" [] []; RouterScenario.job "b" [] ["a"]] = Some dag
    /\ RouterScenario.job "b" [] ["a"]
         ∈ getExecutableSubtasks dag (list_to_set (concat (take 1 (parallelGroups dag)))).
Proof.
  eexists. split; [reflexivity|].
  apply (next_group_is_executable
           [RouterScenario.job "a" [] []; RouterScenario.job "b" [] ["a"]] _ 1 ["b"]).
  - intros x d Hx Hd.
    apply elem_of_cons in Hx as [->|Hx]; [by apply elem_of_nil in Hd|].
    apply list_elem_of_singleton in Hx as ->.
    apply list_elem_of_singleton in Hd as ->. apply list_elem_of_here.
  - reflexivity.
  - reflexivity.
  - apply list_elem_of_further, list_elem_of_here.
  - apply list_elem_of_here.
Defined.

Section Sizes.

Variable maxSubtasks : Z.
Variable js_length : string -> Z.
Variable js_wordCount : string -> Z.
Variable re_test : marker -> string -> bool.
Variable first_number : string -> option Z.
Variable includes_file : string -> bool.
Variable file_count : string -> option Z.
Variable substring : string -> Z -> Z -> string.
Variable now : Z.

Lemma batch_length t analysis :
  List.length (decomposeFileBatchTask file_count t analysis)
    = (Z.to_nat (Z.min (default 5 (file_count t)) 10)%Z + 2)%nat.
Proof.
  unfold decomposeFileBatchTask.
  rewrite length_app. cbn [List.length]. rewrite length_map, length_seq. lia.
Qed.

(** X24.  [decompose] returns for every task, with [totalSubtasks] the
    number of subtasks, which lies between 1 and 12 whatever
    [maxSubtasks] and the estimate of the analysis are. *)
Theorem decompose_yields_one_to_twelve_subtasks (t : string) :
  exists dag,
    decompose maxSubtasks js_length js_wordCount re_test first_number includes_file
      file_count substring now t = Some dag
    /\ totalSubtasks dag = Some (Z.of_nat (List.length (subtasks dag)))
    /\ (1 <= List.length (subtasks dag) <= 12)%nat.
Proof.
  unfold decompose.
  set (analysis := analyzeComplexity maxSubtasks js_length js_wordCount re_test
                     first_number t).
  destruct (shouldDecompose analysis); cbn [negb].
  - destruct (buildDAG_returns (template includes_file file_count substring t analysis))
      as (dag & Hb & Hsts).
    rewrite Hb. eexists. split; [reflexivity|]. cbn [subtasks totalSubtasks].
    rewrite Hsts. split; [done|].
    unfold template.
    destruct (hasMultipleTargets analysis && includes_file t).
    { rewrite batch_length. lia. }
    destruct (hasMultipleSteps analysis); [cbn; lia|].
    destruct (hasDeepAnalysis analysis); cbn; lia.
  - eexists. split; [reflexivity|]. cbn. split; [done | lia].
Qed.

(** X25.  The groups of the file-batch template: the scan, then all
    processing subtasks side by side, then the aggregation.  When the
    task names zero files, nothing separates the two and the
    aggregation is scheduled in the first group, beside the scan. *)
Theorem file_batch_groups (t : string) (analysis : Indicators) :
  let n := Z.to_nat (Z.min (default 5 (file_count t)) 10) in
  parallelGroups <$> buildDAG (decomposeFileBatchTask file_count t analysis)
    = Some (if decide (n = 0%nat)
            then [["scan_files"; "aggregate_results"]]
            else [["scan_files"];
                  map (fun i => id (process_file i)) (seq 0 n);
                  ["aggregate_results"]]).
Proof.
  unfold decomposeFileBatchTask.
  assert (Hn : (Z.to_nat (Z.min (default 5 (file_count t)) 10)%Z <= 10)%nat) by lia.
  revert Hn. generalize (Z.to_nat (Z.min (default 5 (file_count t)) 10)). intros n Hn.
  cbn zeta.
  do 11 (destruct n as [|n]; [by vm_compute|]). lia.
Qed.

End Sizes.

End DecompositionFacts.

(** ** The result aggregator: deduplication, votes and priorities *)

Module AggregationFacts.
Import Aggregator.

Section Dedup.

Variable JSON_stringify : value -> option string.

#[local] Abbreviation key := (key_of JSON_stringify).

Lemma dedup_from_spec (l : list Entry) : forall seen,
  NoDup (key <$> dedup_from JSON_stringify seen l)
  /\ (forall k, k ∈ key <$> dedup_from JSON_stringify seen l
                <-> (k ∈ key <$> l) /\ k ∉ seen)
  /\ sublist (dedup_from JSON_stringify seen l) l.
Proof.
  induction l as [|r l IH]; intros seen; cbn [dedup_from].
  - split; [constructor|]. split; [|constructor].
    intros k. rewrite fmap_nil. split; [by intros ?%elem_of_nil | by intros [?%elem_of_nil _]].
  - case_decide as Hseen.
    + destruct (IH seen) as (H1 & H2 & H3). split; [done|]. split; [|by constructor].
      intros k. rewrite H2, fmap_cons, elem_of_cons. split; [naive_solver|].
      intros [[->|Hk] Hn]; [done | done].
    + destruct (IH (key r :: seen)) as (H1 & H2 & H3). rewrite !fmap_cons. split.
      * constructor; [|done]. rewrite H2. intros [_ Hn]. apply Hn. left.
      * split; [|by constructor]. intros k. rewrite !elem_of_cons, H2, elem_of_cons.
        split.
        -- intros [->|[Hk Hn]]; [by split; [left|] | split; [by right | naive_solver]].
        -- intros [[->|Hk] Hn]; [by left|].
           destruct (decide (k = key r)) as [->|Hne]; [by left | right; naive_solver].
Qed.

Lemma dedup_from_fixed (l : list Entry) : forall seen,
  NoDup (key <$> l) -> (forall k, k ∈ key <$> l -> k ∉ seen) ->
  dedup_from JSON_stringify seen l = l.
Proof.
  induction l as [|r l IH]; intros seen Hnd Hseen; cbn [dedup_from]; [done|].
  rewrite fmap_cons in Hnd, Hseen. apply NoDup_cons in Hnd as [Hr Hnd].
  rewrite decide_False by (apply Hseen; left).
  f_equal. apply IH; [done|]. intros k Hk.
  rewrite not_elem_of_cons. split; [by intros -> | apply Hseen; by right].
Qed.

(** X26.  [deduplicate] keeps one result for every distinct key, in the
    order of the input, and leaves a list without duplicates as it is;
    in particular it is idempotent. *)
Theorem deduplicate_keeps_one_result_per_key (results : list Entry) :
  NoDup (key <$> deduplicate JSON_stringify results)
  /\ (forall k, k ∈ key <$> deduplicate JSON_stringify results <-> k ∈ key <$> results)
  /\ sublist (deduplicate JSON_stringify results) results
  /\ deduplicate JSON_stringify (deduplicate JSON_stringify results)
     = deduplicate JSON_stringify results.
Proof.
  unfold deduplicate. destruct (dedup_from_spec results []) as (H1 & H2 & H3).
  split; [done|]. split; [|split; [done|]].
  - intros k. rewrite H2. split; [by intros [? _]|]. intros Hk. split; [done|].
    apply not_elem_of_nil.
  - apply dedup_from_fixed; [done|]. intros k _. apply not_elem_of_nil.
Qed.

End Dedup.


Section Vote.

Variable JSON_stringify : value -> option string.
Variable substring : string -> Z -> Z -> string.

#[local] Abbreviation key := (key_of JSON_stringify).
(** The results seen so far that have the key [k]. *)
#[local] Abbreviation voters k seen :=
  (List.filter (fun r => bool_decide (key r = k)) seen).

Lemma cast_vote_new k r votes :
  k ∉ votes.*1 -> cast_vote k r votes = votes ++ [(k, (1, [r]))].
Proof.
  induction votes as [|[k' [n rs]] votes IH]; intros Hk; cbn [cast_vote]; [done|].
  rewrite fmap_cons in Hk. apply not_elem_of_cons in Hk as [Hne Hk].
  rewrite decide_False by done. by rewrite IH.
Qed.

Lemma cast_vote_old k r votes :
  k ∈ votes.*1 ->
  exists l1 n rs l2,
    votes = l1 ++ (k, (n, rs)) :: l2
    /\ (k ∉ l1.*1)
    /\ cast_vote k r votes = l1 ++ (k, (n + 1, rs ++ [r])) :: l2.
Proof.
  induction votes as [|[k' [n rs]] votes IH]; intros Hk; [by apply elem_of_nil in Hk|].
  cbn [cast_vote]. case_decide as Hkk.
  - subst k'. exists [], n, rs, votes. split; [done|]. split; [apply not_elem_of_nil | done].
  - rewrite fmap_cons in Hk. apply elem_of_cons in Hk as [Hk|Hk]; [by simpl in Hk|].
    destruct (IH Hk) as (l1 & n' & rs' & l2 & -> & Hl1 & ->).
    exists ((k', (n, rs)) :: l1), n', rs', l2. split; [done|]. split; [|done].
    rewrite fmap_cons. by apply not_elem_of_cons.
Qed.

Lemma voters_snoc k seen r :
  voters k (seen ++ [r]) = voters k seen ++ (if bool_decide (key r = k) then [r] else []).
Proof. rewrite List.filter_app. cbn [List.filter]. by destruct (bool_decide _). Qed.

Lemma votes_of_other_keys (l : list (option string * (Z * list Entry))) seen r :
  key r ∉ l.*1 ->
  Forall (fun kv => kv.2.2 = voters kv.1 seen
                    /\ kv.2.1 = Z.of_nat (length kv.2.2)
                    /\ kv.2.2 ≠ []) l ->
  Forall (fun kv => kv.2.2 = voters kv.1 (seen ++ [r])
                    /\ kv.2.1 = Z.of_nat (length kv.2.2)
                    /\ kv.2.2 ≠ []) l.
Proof.
  intros Hout Hok. apply Forall_forall. intros [k' [n' rs']] Hin'.
  rewrite Forall_forall in Hok. destruct (Hok _ Hin') as (H1 & H2 & H3). cbn in *.
  rewrite voters_snoc, bool_decide_eq_false_2, app_nil_r; [done|].
  intros Heq. apply Hout. rewrite Heq. apply list_elem_of_fmap.
  by exists (k', (n', rs')).
Qed.

(** What [votes] holds when the results [seen] have been counted. *)
Lemma count_votes_spec (results : list Entry) :
  let votes := count_votes JSON_stringify results in
  NoDup votes.*1
  /\ (forall r, r ∈ results -> key r ∈ votes.*1)
  /\ Forall (fun kv => kv.2.2 = voters kv.1 results
                       /\ kv.2.1 = Z.of_nat (length kv.2.2)
                       /\ kv.2.2 ≠ []) votes.
Proof.
  unfold count_votes. cbn zeta.
  induction results as [|r results IH] using rev_ind.
  - cbn. split; [constructor|]. split; [by intros r ?%elem_of_nil | constructor].
  - rewrite foldl_app. cbn [foldl].
    set (votes := foldl _ [] results) in *.
    destruct IH as (Hnd & Hall & Hok).
    destruct (decide (key r ∈ votes.*1)) as [Hin|Hout].
    + destruct (cast_vote_old (key r) r votes Hin) as (l1 & n & rs & l2 & Hv & Hl1 & ->).
      rewrite Hv in Hnd, Hall, Hok.
      assert (Hkeys : (l1 ++ (key r, (n + 1, rs ++ [r])) :: l2).*1
                      = (l1 ++ (key r, (n, rs)) :: l2).*1).
      { by rewrite !fmap_app, !fmap_cons. }
      rewrite Hkeys. split; [done|]. split.
      * intros x [Hx| ->%list_elem_of_singleton]%elem_of_app; [by apply Hall|].
        rewrite fmap_app, fmap_cons. apply elem_of_app. right. left.
      * rewrite fmap_app, fmap_cons in Hnd.
        apply NoDup_app in Hnd as (_ & Hdisj & Hnd2). apply NoDup_cons in Hnd2 as [Hl2 _].
        apply Forall_app in Hok as [Hok1 Hok2]. apply Forall_cons in Hok2 as [Hk Hok2].
        apply Forall_app. split; [|apply Forall_cons; split].
        -- by apply votes_of_other_keys.
        -- destruct Hk as (H1 & H2 & H3). cbn in *.
           rewrite voters_snoc, bool_decide_eq_true_2 by done.
           rewrite <- H1, length_app. cbn. split; [done|]. split; [lia|].
           by destruct rs.
        -- by apply votes_of_other_keys.
    + rewrite (cast_vote_new _ _ _ Hout). rewrite fmap_app. cbn [fmap list_fmap fst].
      split; [|split].
      * apply NoDup_app. split; [done|]. split; [|apply NoDup_singleton].
        intros k Hk ->%list_elem_of_singleton. done.
      * intros x [Hx| ->%list_elem_of_singleton]%elem_of_app.
        -- apply elem_of_app. left. by apply Hall.
        -- apply elem_of_app. right. left.
      * apply Forall_app. split.
        -- by apply votes_of_other_keys.
        -- apply Forall_singleton. cbn.
           rewrite voters_snoc, bool_decide_eq_true_2 by done.
           assert (Hnone : voters (key r) results = []).
           { destruct (voters (key r) results) as [|x xs] eqn:E; [done|].
             assert (Hx : x ∈ voters (key r) results) by (rewrite E; left).
             apply list_elem_of_In, filter_In in Hx as [Hx Hkx].
             apply bool_decide_eq_true in Hkx. apply list_elem_of_In, Hall in Hx.
             by rewrite Hkx in Hx. }
           rewrite Hnone. done.
Qed.

Lemma pick_winner_fold (votes : list (option string * (Z * list Entry))) : forall w0 m0,
  let out := foldl (fun acc kv =>
                      let '(winner, maxVotes) := acc in
                      let '(_, (n, rs)) := kv in
                      if maxVotes <? n then (head rs, n) else acc) (w0, m0) votes in
  m0 <= out.2
  /\ (forall kv, kv ∈ votes -> kv.2.1 <= out.2)
  /\ (out = (w0, m0) \/ exists k rs, (k, (out.2, rs)) ∈ votes /\ out.1 = head rs).
Proof.
  induction votes as [|[k [n rs]] votes IH]; intros w0 m0; cbn [foldl].
  - cbn. split; [lia|]. split; [by intros kv ?%elem_of_nil | by left].
  - destruct (Z.ltb_spec m0 n) as [Hlt|Hge].
    + destruct (IH (head rs) n) as (H1 & H2 & H3). cbn zeta in *.
      split; [lia|]. split.
      * intros kv [->|Hkv]%elem_of_cons; [done | by apply H2].
      * right. destruct H3 as [-> | (k' & rs' & Hin & Hw)].
        -- exists k, rs. split; [left | done].
        -- exists k', rs'. split; [by right | done].
    + destruct (IH w0 m0) as (H1 & H2 & H3). cbn zeta in *.
      split; [done|]. split.
      * intros kv [->|Hkv]%elem_of_cons; [cbn; lia | by apply H2].
      * destruct H3 as [-> | (k' & rs' & Hin & Hw)]; [by left|].
        right. exists k', rs'. split; [by right | done].
Qed.

Lemma distribution_spec (votes : list (option string * (Z * list Entry))) :
  match distribution substring votes with
  | Returned _ => forall kv, kv ∈ votes -> kv.1 ≠ None
  | Thrown _ => exists kv, kv ∈ votes /\ kv.1 = None
  end.
Proof.
  induction votes as [|[[k|] [n rs]] votes IH]; cbn [distribution].
  - by intros kv ?%elem_of_nil.
  - destruct (distribution substring votes).
    + intros kv [->|Hkv]%elem_of_cons; [done | by apply IH].
    + destruct IH as (kv & Hkv & Hnone). exists kv. split; [by right | done].
  - eexists. split; [left | done].
Qed.

(** X27.  [aggregateByVote] returns the result that was given most often:
    no other result of the input has more votes, the confidence is the
    share of the winning votes.  It throws for an empty input and when
    some result has no key ([JSON.stringify] gave [undefined]). *)
Theorem aggregateByVote_returns_a_most_frequent_result (results : list Entry) :
  match aggregateByVote JSON_stringify substring results with
  | Returned a =>
      exists w,
        w ∈ results
        /\ payload a = Some (result w)
        /\ (forall r, r ∈ results ->
              (length (voters (key r) results) <= length (voters (key w) results))%nat)
        /\ vote_confidence a
           = Some (Qmake (Z.of_nat (length (voters (key w) results)))
                         (Pos.of_nat (length results)))
        /\ (forall r, r ∈ results -> key r ≠ None)
  | Thrown _ => results = [] \/ exists r, r ∈ results /\ key r = None
  end.
Proof.
  unfold aggregateByVote.
  destruct (count_votes_spec results) as (Hnd & Hall & Hok). cbn zeta in *.
  set (votes := count_votes JSON_stringify results) in *.
  rewrite Forall_forall in Hok.
  destruct (pick_winner_fold votes None 0) as (_ & Hmax & Hwin). cbn zeta in *.
  fold (pick_winner votes) in Hmax, Hwin.
  pose proof (distribution_spec votes) as Hdist.
  destruct (pick_winner votes) as [[w|] m] eqn:Hp; cbn [fst snd] in *.
  - destruct Hwin as [Heq | (k & rs & Hin & Hw)]; [done|].
    destruct (Hok _ Hin) as (Hrs & Hm & Hne). cbn [fst snd] in *.
    assert (Hwrs : w ∈ rs) by (destruct rs; [done | injection Hw as ->; left]).
    assert (Hwres : w ∈ results /\ key w = k).
    { rewrite Hrs in Hwrs. apply list_elem_of_In, filter_In in Hwrs as [H1 H2].
      split; [by apply list_elem_of_In | by apply bool_decide_eq_true in H2]. }
    destruct Hwres as [Hwres Hkw].
    destruct (distribution substring votes) as [d|e].
    + exists w. split; [done|]. split; [done|]. split; [|split].
      * intros r Hr. specialize (Hall r Hr).
        apply list_elem_of_fmap in Hall as ([k' [n' rs']] & Hk' & Hin').
        cbn in Hk'. subst k'.
        destruct (Hok _ Hin') as (Hrs' & Hn' & _). cbn [fst snd] in *.
        specialize (Hmax _ Hin'). cbn in Hmax. rewrite Hkw, <- Hrs, <- Hrs'. lia.
      * cbn. rewrite Hkw, <- Hrs, <- Hm. done.
      * intros r Hr. specialize (Hall r Hr).
        apply list_elem_of_fmap in Hall as (kv & Hk' & Hin').
        rewrite Hk'. by apply Hdist.
    + right. destruct Hdist as (kv & Hkv & Hnone).
      destruct (Hok _ Hkv) as (Hrs' & _ & Hne').
      destruct (kv.2.2) as [|x xs] eqn:E; [done|].
      assert (Hx : x ∈ voters kv.1 results) by (rewrite <- Hrs'; left).
      apply list_elem_of_In, filter_In in Hx as [H1 H2].
      exists x. split; [by apply list_elem_of_In|].
      apply bool_decide_eq_true in H2. by rewrite H2.
  - left. destruct results as [|r results]; [done|]. exfalso.
    assert (Hr : key r ∈ votes.*1) by (apply Hall; left).
    apply list_elem_of_fmap in Hr as (kv & _ & Hin).
    destruct (Hok _ Hin) as (_ & Hn & Hne). specialize (Hmax _ Hin).
    destruct Hwin as [Heq | (k & rs & Hin' & Hw)].
    + injection Heq as Heq. subst m. destruct (kv.2.2); [done|]. cbn in Hn. lia.
    + destruct (Hok _ Hin') as (_ & _ & Hne'). cbn in Hne'. by destruct rs.
Qed.

End Vote.


Section Sorting.

Context {A : Type} (before : A -> A -> bool).
Hypothesis before_total : forall a b, before a b = false -> before b a = true.
Hypothesis before_trans :
  forall a b c, before a b = true -> before b c = true -> before a c = true.

Lemma js_insert_perm x l : insert_sorted before x l ≡ₚ x :: l.
Proof.
  induction l as [|y l IH]; simpl; [done|].
  destruct (before y x); [|done].
  rewrite IH. apply Permutation_swap.
Qed.

Lemma js_sort_perm l : js_sort before l ≡ₚ l.
Proof.
  unfold js_sort.
  assert (H : forall acc, foldl (fun acc x => insert_sorted before x acc) acc l ≡ₚ acc ++ l).
  { induction l as [|x l IH]; intros acc; simpl.
    - by rewrite app_nil_r.
    - rewrite IH, js_insert_perm. simpl. apply Permutation_middle. }
  apply H.
Qed.

Lemma js_insert_sorted x l :
  StronglySorted (fun a b => before a b = true) l ->
  StronglySorted (fun a b => before a b = true) (insert_sorted before x l).
Proof.
  intros Hs. induction Hs as [|y l Hs IH Hy]; simpl.
  - repeat constructor.
  - destruct (before y x) eqn:E.
    + constructor; [done|]. rewrite (js_insert_perm x l). by constructor.
    + apply before_total in E. constructor; [by constructor|].
      constructor; [done|].
      rewrite Forall_forall in Hy. apply Forall_forall. intros z Hz.
      apply (before_trans x y z); auto.
Qed.

Lemma js_sort_sorted l : StronglySorted (fun a b => before a b = true) (js_sort before l).
Proof.
  unfold js_sort.
  assert (H : forall acc, StronglySorted (fun a b => before a b = true) acc ->
    StronglySorted (fun a b => before a b = true)
      (foldl (fun acc x => insert_sorted before x acc) acc l)).
  { induction l as [|x l IH]; intros acc Hs; simpl; [done|].
    by apply IH, js_insert_sorted. }
  apply H. constructor.
Qed.

Lemma js_sort_head l first rest :
  (forall a, before a a = true) ->
  js_sort before l = first :: rest ->
  first ∈ l /\ forall r, r ∈ l -> before first r = true.
Proof.
  intros Hrefl Heq. pose proof (js_sort_perm l) as Hp. pose proof (js_sort_sorted l) as Hs.
  rewrite Heq in Hp, Hs. split; [rewrite <- Hp; left|].
  intros r Hr. rewrite <- Hp in Hr. apply elem_of_cons in Hr as [->|Hr]; [apply Hrefl|].
  apply StronglySorted_inv in Hs as [_ Hall]. rewrite Forall_forall in Hall. by apply Hall.
Qed.

End Sorting.

(** X28.  [aggregateByPriority] returns the result of a subtask whose
    priority no other subtask of the input exceeds, and names that
    subtask in [selectedFrom]; it throws only for an empty input. *)
Theorem aggregateByPriority_picks_highest_priority
    (results : list Entry) (prio : option (option string -> Q)) :
  let priority_of r := match prio with
                       | Some f => f (subtaskId r)
                       | None => 0%Q
                       end in
  match aggregateByPriority results prio with
  | Returned a =>
      exists w,
        w ∈ results
        /\ payload a = Some (result w)
        /\ selectedFrom a = Some (subtaskId w)
        /\ forall r, r ∈ results -> (priority_of r <= priority_of w)%Q
  | Thrown _ => results = []
  end.
Proof.
  cbn zeta. unfold aggregateByPriority.
  pose (priority_of := fun r : Entry => match prio with
                                        | Some f => f (subtaskId r)
                                        | None => 0%Q
                                        end).
  pose (before := fun a b : Entry => Qle_bool (priority_of b) (priority_of a)).
  change (match match js_sort before results with
                | [] => Thrown "TypeError: Cannot read properties of undefined"
                | first :: _ =>
                    Returned
                      {| success := true; payload := Some (result first); error := None;
                         source := Some "priority"; out_metadata := None; count := None;
                         uniqueCount := None; conflictCount := None;
                         vote_confidence := None; voteDistribution := None;
                         selectedFrom := Some (subtaskId first) |}
                end with
          | Returned a =>
              exists w, w ∈ results /\ payload a = Some (result w)
                /\ selectedFrom a = Some (subtaskId w)
                /\ forall r, r ∈ results -> (priority_of r <= priority_of w)%Q
          | Thrown _ => results = []
          end).
  destruct (js_sort before results) as [|first rest] eqn:Hsort.
  - pose proof (js_sort_perm before results) as Hp. rewrite Hsort in Hp.
    by apply Permutation_nil_l in Hp.
  - destruct (js_sort_head before) with (l := results) (first := first) (rest := rest)
      as [Hin Hmax]; try done.
    + intros a b Hab. unfold before in *. apply Qle_bool_iff.
      destruct (Qlt_le_dec (priority_of a) (priority_of b)) as [Hlt|Hle].
      * by apply Qlt_le_weak.
      * apply Qle_bool_iff in Hle. congruence.
    + intros a b c. unfold before. rewrite !Qle_bool_iff. intros H1 H2.
      by apply (Qle_trans _ (priority_of b)).
    + intros a. unfold before. apply Qle_bool_iff, Qle_refl.
    + exists first. repeat split; [done|]. intros r Hr.
      specialize (Hmax r Hr). unfold before in Hmax. by apply Qle_bool_iff.
Qed.

End AggregationFacts.

(** ** The scheduler *)

Module ExecutionFacts.
Import Aggregator Scheduler SchedulerScenario.

(** X29.  With the local concurrency controller, which has no
    [waitForSlot], [executeSingle] succeeds only by running the task on
    the Simple path: a task that needs a slot ends in the [catch]
    block.  Every other result names a budget failure, a cancellation
    or an execution error, and the controller is left as it was. *)
Theorem local_controller_only_runs_simple_tasks
    (polls : nat) (others : gmap string (gset string) -> gmap string (gset string))
    (classifyError : string -> string) (retryableErrors : list string)
    (maxRetries : nat) (w : World) (slots : gmap string (gset string))
    (forceBranch : option string) (taskId : string)
    (r : TaskResult) (c : Controller) :
  executeSingle polls others classifyError retryableErrors maxRetries w
    (LocalController slots) forceBranch taskId = (Returned r, c) ->
  c = LocalController slots
  /\ (r = executeSimple
      \/ (success r = false
          /\ (errorType r = Some "BUDGET_EXCEEDED"
              \/ errorType r = Some "USER_CANCELLED"
              \/ errorType r = Some "EXECUTION_ERROR"))).
Proof.
  unfold executeSingle, on_error.
  destruct (classifyTask w) as [classified|e].
  2:{ destruct (insertFailureHistory w); intros [= <- <-].
      split; [done|]. right. split; [done|]. by do 2 right. }
  case_decide as Hb; [intros [= <- <-]; split; [done | by left]|].
  destruct (checkBudget w) as [[|]|e].
  3:{ destruct (insertFailureHistory w); intros [= <- <-].
      split; [done|]. right. split; [done|]. by do 2 right. }
  2:{ intros [= <- <-]. split; [done|]. right. split; [done|]. by left. }
  destruct (match chatId w with
            | Some _ => if confirmation_enabled w then sendTextConfirm w
                        else Returned proceed
            | None => Returned proceed
            end) as [[| |]|e].
  - cbn. destruct (insertFailureHistory w); intros [= <- <-].
    split; [done|]. right. split; [done|]. by do 2 right.
  - intros [= <- <-]. split; [done | by left].
  - intros [= <- <-]. split; [done|]. right. split; [done|]. right. by left.
  - destruct (insertFailureHistory w); intros [= <- <-].
    split; [done|]. right. split; [done|]. by do 2 right.
Qed.

Lemma local_controller_only_runs_simple_tasks_witness :
  LocalController ∅ = LocalController ∅
  /\ ({| success := false; branch := None; result := None;
         error := Some "TypeError: this.concurrencyController.waitForSlot is not a function";
         errorType := Some "EXECUTION_ERROR"; attempts := None |} = executeSimple
      \/ (success {| success := false; branch := None; result := None;
                     error := Some "TypeError: this.concurrencyController.waitForSlot is not a function";
                     errorType := Some "EXECUTION_ERROR"; attempts := None |} = false
          /\ (errorType {| success := false; branch := None; result := None;
                           error := Some "TypeError: this.concurrencyController.waitForSlot is not a function";
                           errorType := Some "EXECUTION_ERROR"; attempts := None |}
                = Some "BUDGET_EXCEEDED"
              \/ errorType {| success := false; branch := None; result := None;
                              error := Some "TypeError: this.concurrencyController.waitForSlot is not a function";
                              errorType := Some "EXECUTION_ERROR"; attempts := None |}
                   = Some "USER_CANCELLED"
              \/ errorType {| success := false; branch := None; result := None;
                              error := Some "TypeError: this.concurrencyController.waitForSlot is not a function";
                              errorType := Some "EXECUTION_ERROR"; attempts := None |}
                   = Some "EXECUTION_ERROR"))).
Proof.
  apply (local_controller_only_runs_simple_tasks 60 (fun db => db) (fun _ => "UNKNOWN")
           [] 5 calm ∅ None "task_1").
  reflexivity.
Defined.

(** X30.  The multi-agent mode is chosen exactly when the estimated number
    of subtasks, capped by [maxSubtasks], exceeds two: the complexity
    score plays no part, and a decomposer limited to two subtasks never
    runs a task in multi-agent mode. *)
Theorem multi_agent_mode_iff_estimate_exceeds_two
    (maxSubtasks : Z) (js_length js_wordCount : string -> Z)
    (re_test : Decomposer.marker -> string -> bool)
    (first_number : string -> option Z) (task : string) :
  let analyze := Decomposer.analyzeComplexity maxSubtasks js_length js_wordCount
                   re_test first_number in
  shouldUseMultiAgent analyze task
    = (2 <? Decomposer.estimatedSubtasks (analyze task))
  /\ (maxSubtasks <= 2 -> shouldUseMultiAgent analyze task = false).
Proof.
  cbn zeta. unfold shouldUseMultiAgent, Decomposer.analyzeComplexity.
  cbn [Decomposer.shouldDecompose Decomposer.estimatedSubtasks].
  set (score := if re_test Decomposer.Dependencies task then _ else _).
  set (estimate := if re_test Decomposer.Dependencies task then _ else _).
  clearbody score estimate. split.
  - destruct (Z.ltb_spec 2 (Z.min estimate maxSubtasks)) as [Hlt|Hge].
    + apply andb_true_iff. split; [|done].
      apply orb_true_iff. right. apply Z.ltb_lt. lia.
    + apply andb_false_iff. by right.
  - intros Hmax. apply andb_false_iff. right. apply Z.ltb_ge. lia.
Qed.

End ExecutionFacts.
